(** * Stream reconfiguration of the default camera HAL (modules/camera/Camera.cpp)

    A shallow embedding of [Camera::open], [Camera::close],
    [Camera::initialize], [Camera::configureStreams] and its helpers
    [destroyStreams], [reuseStream], [isValidStreamSet] and [setupStreams],
    and of [Camera::registerStreamBuffers].

    C++ objects live in explicit stores: [Stream] objects in a heap indexed by
    address, the caller's [camera3_stream_t] descriptors in a second store.
    A method is a state transformer that may have no defined result
    (dereferencing a pointer that is null, dangling or was never written). *)

From stdpp Require Import base option list gmap fin_maps.
From Stdlib Require Import ZArith Lia.

Local Open Scope Z_scope.

(** ** Constants of the platform headers *)

(** [errno.h] *)
Definition EBUSY : Z := 16.
Definition EINVAL : Z := 22.

(** The four buffer-usage flags of [hardware/gralloc.h] used by
    [setupStreams].  The header is not part of the sources at hand, so the
    flags are parameters of the development. *)
Class GrallocUsage := {
  GRALLOC_USAGE_SW_READ_OFTEN : Z;
  GRALLOC_USAGE_SW_WRITE_OFTEN : Z;
  GRALLOC_USAGE_HW_CAMERA_WRITE : Z;
  GRALLOC_USAGE_HW_CAMERA_READ : Z
}.

(** ** Data model *)

(** Addresses of heap objects; a C pointer is [option addr], [None] is NULL. *)
Abbreviation addr := positive.
Abbreviation ptr := (option positive).

(** Modelled from the spec: the stream type enumeration of
    [hardware/camera3.h], "a type classification (input / output /
    bidirectional)". *)
Inductive camera3_stream_type_t :=
  | CAMERA3_STREAM_OUTPUT
  | CAMERA3_STREAM_INPUT
  | CAMERA3_STREAM_BIDIRECTIONAL.

Global Instance camera3_stream_type_eq_dec : EqDecision camera3_stream_type_t.
Proof. solve_decision. Defined.

(** Modelled from the spec: the stream descriptor [camera3_stream_t] of
    [hardware/camera3.h].  [stream_type], [width], [height] and [format] are
    the immutable descriptor fields; [max_buffers] is the field whose
    positive value signals reuse; [priv] is the tag that
    [configureStreams] overwrites with the backing stream's address. *)
Record camera3_stream_t := mk_camera3_stream {
  stream_type : camera3_stream_type_t;
  width : Z;
  height : Z;
  format : Z;
  max_buffers : Z;
  priv : ptr
}.

Definition set_priv (p : ptr) (x : camera3_stream_t) : camera3_stream_t :=
  mk_camera3_stream (stream_type x) (width x) (height x) (format x)
                    (max_buffers x) p.

Definition set_max_buffers (n : Z) (x : camera3_stream_t) : camera3_stream_t :=
  mk_camera3_stream (stream_type x) (width x) (height x) (format x) n (priv x).

(** [camera3_stream_configuration_t]: the array [streams] of descriptor
    pointers; [num_streams] is its length. *)
Record camera3_stream_configuration_t := mk_config {
  streams : list addr
}.

Definition num_streams (cfg : camera3_stream_configuration_t) : nat :=
  length (streams cfg).

(** Modelled from the spec: the [Stream] class of Stream.h / Stream.cpp,
    which is not among the sources.  "Stream: identity (owning device id), a
    type classification (input / output / bidirectional), a reuse marker,
    assigned usage flags, and a maximum in-flight buffer count"; a new
    Stream is "bound to this device and descriptor" ([mStream] is the
    address of that descriptor) and records the descriptor's immutable
    fields. *)
Record Stream := mk_Stream {
  mReuse : bool;
  mOwnerId : Z;
  mStream : addr;
  mType : camera3_stream_type_t;
  mWidth : Z;
  mHeight : Z;
  mFormat : Z;
  mUsage : Z;
  mMaxBuffers : Z
}.

Definition set_mReuse (b : bool) (s : Stream) : Stream :=
  mk_Stream b (mOwnerId s) (mStream s) (mType s) (mWidth s) (mHeight s)
            (mFormat s) (mUsage s) (mMaxBuffers s).

Definition set_mUsage (u : Z) (s : Stream) : Stream :=
  mk_Stream (mReuse s) (mOwnerId s) (mStream s) (mType s) (mWidth s)
            (mHeight s) (mFormat s) u (mMaxBuffers s).

Definition set_mMaxBuffers (n : Z) (s : Stream) : Stream :=
  mk_Stream (mReuse s) (mOwnerId s) (mStream s) (mType s) (mWidth s)
            (mHeight s) (mFormat s) (mUsage s) n.

(** Modelled from the spec: the constructor [Stream::Stream(id, astream)]:
    a Stream "bound to this device and descriptor", not marked reused, with
    no usage and no buffer count assigned yet. *)
Definition Stream_new (id : Z) (d : addr) (x : camera3_stream_t) : Stream :=
  mk_Stream false id d (stream_type x) (width x) (height x) (format x) 0 0.

(** Modelled from the spec: [Stream::isInputType] and
    [Stream::isOutputType], "streams whose type classification includes
    input / output (a bidirectional stream counts toward both)". *)
Definition isInputType (s : Stream) : bool :=
  match mType s with
  | CAMERA3_STREAM_INPUT | CAMERA3_STREAM_BIDIRECTIONAL => true
  | CAMERA3_STREAM_OUTPUT => false
  end.

Definition isOutputType (s : Stream) : bool :=
  match mType s with
  | CAMERA3_STREAM_OUTPUT | CAMERA3_STREAM_BIDIRECTIONAL => true
  | CAMERA3_STREAM_INPUT => false
  end.

(** Modelled from the spec: [Stream::isValidReuseStream(id, astream)],
    "verify compatibility (same owning device id, same type classification
    and any other immutable descriptor fields)". *)
Definition isValidReuseStream (s : Stream) (id : Z) (x : camera3_stream_t) : bool :=
  bool_decide (mOwnerId s = id)
  && bool_decide (mType s = stream_type x)
  && bool_decide (mWidth s = width x)
  && bool_decide (mHeight s = height x)
  && bool_decide (mFormat s = format x).

(** The [Camera] object.  [mStreams] is NULL or the committed array of
    Stream pointers; the array is only ever assigned the candidate array of
    a successful [configureStreams], whose entries are all non-null, so it is
    a list of addresses.  [mDevice_module] is [mDevice.common.module]. *)
Record Camera := mk_Camera {
  mId : Z;
  mBusy : bool;
  mCallbackOps : ptr;
  mStreams : option (list addr);
  mNumStreams : nat;
  mDevice_module : ptr
}.

(** [Camera::Camera(id)] *)
Definition Camera_new (id : Z) : Camera :=
  mk_Camera id false None None 0 None.

(** The program state: one camera, the heap of Stream objects and the
    caller-owned descriptors. *)
Record State := mk_State {
  cam : Camera;
  heap : gmap positive Stream;
  descs : gmap positive camera3_stream_t
}.

Definition with_cam (c : Camera) (st : State) : State :=
  mk_State c (heap st) (descs st).
Definition with_heap (h : gmap positive Stream) (st : State) : State :=
  mk_State (cam st) h (descs st).
Definition with_descs (ds : gmap positive camera3_stream_t) (st : State) : State :=
  mk_State (cam st) (heap st) ds.

(** ** The monad of methods

    A computation maps a state to a result and a new state, or to [None]
    when its behaviour is undefined.  The mutex [mMutex] is locked and
    unlocked in matched pairs on every path of every method; with one
    thread it has no effect and is left out. *)
Definition M (A : Type) : Type := State → option (A * State).

Global Instance M_ret : MRet M := λ A (a : A) st, Some (a, st).
Global Instance M_bind : MBind M := λ A B (f : A → M B) (m : M A) st,
  match m st with
  | Some (a, st') => f a st'
  | None => None
  end.

Definition undefined {A} : M A := λ _, None.
Definition get_cam : M Camera := λ st, Some (cam st, st).
Definition put_cam (c : Camera) : M unit := λ st, Some (tt, with_cam c st).

(** [*a] for a Stream pointer [a] *)
Definition load_stream (a : addr) : M Stream := λ st,
  match heap st !! a with
  | Some s => Some (s, st)
  | None => None
  end.

(** a field assignment through a Stream pointer [a] *)
Definition update_stream (a : addr) (f : Stream → Stream) : M unit := λ st,
  match heap st !! a with
  | Some _ => Some (tt, with_heap (alter f a (heap st)) st)
  | None => None
  end.

(** [new Stream(...)]: an address that holds no live Stream *)
Definition new_stream (s : Stream) : M addr := λ st,
  let a := fresh (dom (heap st)) in
  Some (a, with_heap (<[a := s]> (heap st)) st).

(** [delete a]: undefined unless [a] is a live Stream *)
Definition delete_stream (a : addr) : M unit := λ st,
  match heap st !! a with
  | Some _ => Some (tt, with_heap (delete a (heap st)) st)
  | None => None
  end.

(** [*d] for a descriptor pointer [d] *)
Definition load_desc (d : addr) : M camera3_stream_t := λ st,
  match descs st !! d with
  | Some x => Some (x, st)
  | None => None
  end.

Definition update_desc (d : addr) (f : camera3_stream_t → camera3_stream_t) : M unit :=
  λ st,
  match descs st !! d with
  | Some _ => Some (tt, with_descs (alter f d (descs st)) st)
  | None => None
  end.

(** [for (i = 0; i < count; i++) ... arr[i] ...]: the elements such a loop
    visits; undefined when it runs past the end of the array. *)
Definition array_prefix {A} (arr : list A) (count : nat) : M (list A) :=
  if decide (count ≤ length arr)%nat then mret (take count arr) else undefined.

(** a loop body run once per element, in order *)
Fixpoint for_each {A} (body : A → M unit) (l : list A) : M unit :=
  match l with
  | [] => mret tt
  | a :: l' => body a;; for_each body l'
  end.

(** Modelled from the spec: [Stream::setUsage] and [Stream::setMaxBuffers].
    Both assign the Stream's field; the buffer count is the "positive
    max-buffer value left over from a prior configuration" that a later call
    reads from the descriptor, so it is also written to the descriptor the
    Stream is bound to. *)
Definition setUsage (a : addr) (usage : Z) : M unit :=
  update_stream a (set_mUsage usage).

Definition setMaxBuffers (a : addr) (n : Z) : M unit :=
  s ← load_stream a;
  update_stream a (set_mMaxBuffers n);;
  update_desc (mStream s) (set_max_buffers n).

(** ** Device lifecycle *)

(** The value stored through the out-parameter [device] of [open]:
    the address of this camera's [mDevice.common]. *)
Inductive hw_device_ref := DeviceOf (id : Z).

(** [Camera::open(module, device)]: the status and the value written to
    [*device], if any. *)
Definition open (module : ptr) : M (Z * option hw_device_ref) :=
  c ← get_cam;
  if mBusy c then mret (- EBUSY, None)
  else
    put_cam (mk_Camera (mId c) true (mCallbackOps c) (mStreams c)
                       (mNumStreams c) module);;
    mret (0, Some (DeviceOf (mId c))).

(** [Camera::close()] *)
Definition close : M Z :=
  c ← get_cam;
  if negb (mBusy c) then mret (- EINVAL)
  else
    put_cam (mk_Camera (mId c) false (mCallbackOps c) (mStreams c)
                       (mNumStreams c) (mDevice_module c));;
    mret 0.

(** [Camera::initialize(callback_ops)] *)
Definition initialize (callback_ops : ptr) : M Z :=
  c ← get_cam;
  put_cam (mk_Camera (mId c) (mBusy c) callback_ops (mStreams c)
                     (mNumStreams c) (mDevice_module c));;
  mret 0.

(** ** Stream configuration *)

(** An element of a [Stream**] array: a pointer that was stored, or the
    indeterminate content of an element of [new Stream*[n]] that was never
    written. *)
Inductive slot :=
  | Indeterminate
  | Val (p : ptr).

Definition stored (a : addr) : slot := Val (Some a).

(** [Camera::destroyStreams(streams, count)] *)
Definition destroy_one (sl : slot) : M unit :=
  match sl with
  | Indeterminate => undefined
  | Val None => mret tt
  | Val (Some a) =>
      s ← load_stream a;
      if negb (mReuse s) then delete_stream a else mret tt
  end.

Definition destroyStreams (streams : option (list slot)) (count : nat) : M unit :=
  match streams with
  | None => mret tt
  | Some arr =>
      visited ← array_prefix arr count;
      for_each destroy_one visited
      (* delete [] streams *)
  end.

(** [Camera::reuseStream(astream)], for the descriptor at address [d]:
    the Stream pointer it returns. *)
Definition reuseStream (d : addr) : M ptr :=
  c ← get_cam;
  astream ← load_desc d;
  match priv astream with
  | None => undefined
  | Some p =>
      s ← load_stream p;
      if negb (isValidReuseStream s (mId c) astream) then mret None
      else
        update_stream p (set_mReuse true);;
        mret (Some p)
  end.

(** [Camera::isValidStreamSet(streams, count)] *)
Fixpoint count_types (l : list addr) (inputs outputs : Z) : M (Z * Z) :=
  match l with
  | [] => mret (inputs, outputs)
  | a :: l' =>
      s ← load_stream a;
      let inputs := if isInputType s then inputs + 1 else inputs in
      let outputs := if isOutputType s then outputs + 1 else outputs in
      count_types l' inputs outputs
  end.

Definition isValidStreamSet (streams : option (list addr)) (count : nat) : M bool :=
  match streams with
  | None => mret false
  | Some arr =>
      if decide (count = 0%nat) then mret false
      else
        visited ← array_prefix arr count;
        '(inputs, outputs) ← count_types visited 0 0;
        if decide (outputs < 1) then mret false
        else if decide (inputs > 1) then mret false
        else mret true
  end.

Section Configure.
Context `{GrallocUsage}.

(** [Camera::setupStreams(streams, count)] *)
Definition setup_one (a : addr) : M unit :=
  s ← load_stream a;
  let usage := 0 in
  let usage :=
    if isOutputType s
    then Z.lor usage (Z.lor GRALLOC_USAGE_SW_WRITE_OFTEN GRALLOC_USAGE_HW_CAMERA_WRITE)
    else usage in
  let usage :=
    if isInputType s
    then Z.lor usage (Z.lor GRALLOC_USAGE_SW_READ_OFTEN GRALLOC_USAGE_HW_CAMERA_READ)
    else usage in
  setUsage a usage;;
  setMaxBuffers a 1.

Definition setupStreams (streams : list addr) (count : nat) : M unit :=
  visited ← array_prefix streams count;
  for_each setup_one visited.

(** The outcome of the loop that fills [newStreams]: every element stored,
    or the array as it is at the jump to [err_out]. *)
Inductive fill_result :=
  | Filled (newStreams : list addr)
  | Aborted (newStreams : list slot).

(** The second loop of [configureStreams], over the descriptor pointers
    [stream_config->streams[i]]. *)
Fixpoint fillStreams (l : list addr) : M fill_result :=
  match l with
  | [] => mret (Filled [])
  | d :: l' =>
      c ← get_cam;
      astream ← load_desc d;
      p ← (if decide (max_buffers astream > 0) then reuseStream d
           else a ← new_stream (Stream_new (mId c) d astream); mret (Some a));
      match p with
      | None =>
          mret (Aborted (Val None :: replicate (length l') Indeterminate))
      | Some a =>
          update_desc d (set_priv (Some a));;
          r ← fillStreams l';
          match r with
          | Filled rest => mret (Filled (a :: rest))
          | Aborted rest => mret (Aborted (stored a :: rest))
          end
      end
  end.

(** The label [err_out] of [configureStreams] *)
Definition err_out (newStreams : list slot) (count : nat) : M Z :=
  destroyStreams (Some newStreams) count;;
  mret (- EINVAL).

(** [Camera::configureStreams(stream_config)] *)
Definition configureStreams
    (stream_config : option camera3_stream_configuration_t) : M Z :=
  match stream_config with
  | None => mret (- EINVAL)
  | Some cfg =>
      if decide (num_streams cfg = 0%nat) then mret (- EINVAL)
      else
        c ← get_cam;
        (* Mark all current streams unused for now *)
        current ← array_prefix (default [] (mStreams c)) (mNumStreams c);
        for_each (λ a, update_stream a (set_mReuse false)) current;;
        (* Fill new stream array with reused streams and new streams *)
        r ← fillStreams (streams cfg);
        match r with
        | Aborted newStreams => err_out newStreams (num_streams cfg)
        | Filled newStreams =>
            valid ← isValidStreamSet (Some newStreams) (num_streams cfg);
            if negb valid then err_out (stored <$> newStreams) (num_streams cfg)
            else
              setupStreams newStreams (num_streams cfg);;
              destroyStreams (fmap (M:=list) stored <$> mStreams c) (mNumStreams c);;
              put_cam (mk_Camera (mId c) (mBusy c) (mCallbackOps c)
                                 (Some newStreams) (num_streams cfg)
                                 (mDevice_module c));;
              mret 0
        end
  end.

End Configure.


(** ** The remaining entry points *)

(** Modelled from the spec: the buffer set [camera3_stream_buffer_set_t]
    of [hardware/camera3.h], "bufferSet or its stream handle": the pointer
    [stream] to the descriptor the buffers belong to, which
    [registerStreamBuffers] reads, and the buffer handles, which only the
    Stream reads. *)
Record camera3_stream_buffer_set_t := mk_buffer_set {
  stream : ptr;
  num_buffers : Z;
  buffers : list positive
}.

(** [Stream::registerBuffers] is defined in Stream.cpp, which is not among
    the sources, and the specification leaves it out of scope ("delegates
    to the Stream"): it is a parameter of the development. *)
Class StreamBuffers := {
  Stream_registerBuffers : addr → camera3_stream_buffer_set_t → M Z
}.

(** [Camera::registerStreamBuffers(buf_set)]: a member call through a
    pointer that is null or refers to no live Stream is undefined. *)
Definition registerStreamBuffers `{StreamBuffers}
    (buf_set : option camera3_stream_buffer_set_t) : M Z :=
  match buf_set with
  | None => mret (- EINVAL)
  | Some bs =>
      match stream bs with
      | None => mret (- EINVAL)
      | Some d =>
          astream ← load_desc d;
          match priv astream with
          | None => undefined
          | Some a =>
              load_stream a;;
              Stream_registerBuffers a bs
          end
      end
  end.

(** * Vocabulary of the specification *)

(** The Streams visited by [for (i = 0; i < mNumStreams; i++) mStreams[i]]:
    the committed stream set. *)
Definition current (c : Camera) : list addr :=
  take (mNumStreams c) (default [] (mStreams c)).

(** The pointers stored in a [Stream**] array. *)
Definition entry (sl : slot) : option addr :=
  match sl with
  | Val (Some a) => Some a
  | _ => None
  end.

Definition entries (arr : list slot) : list addr := omap entry arr.

Definition initialized (sl : slot) : Prop := sl ≠ Indeterminate.

(** The candidate streams a fill loop produced, and the array it leaves. *)
Definition candidates (r : fill_result) : list addr :=
  match r with
  | Filled newStreams => newStreams
  | Aborted newStreams => entries newStreams
  end.

Definition slots_of (r : fill_result) : list slot :=
  match r with
  | Filled newStreams => stored <$> newStreams
  | Aborted newStreams => newStreams
  end.

(** [on l f a] is the change made to the object at address [a] by a loop that
    applies [f] to every object whose address is in [l]. *)
Definition on {X} (l : list addr) (f : X → X) (a : addr) : X → X :=
  if decide (a ∈ l) then f else id.

(** What [destroyStreams] over the pointers [l] leaves of the Stream [s] at
    address [a]. *)
Definition sweep (l : list addr) (a : addr) (s : Stream) : option Stream :=
  if decide (a ∈ l ∧ mReuse s = false) then None else Some s.

(** [ss] are the Stream objects the pointers [l] refer to. *)
Definition objects (st : State) (l : list addr) (ss : list Stream) : Prop :=
  Forall2 (λ a s, heap st !! a = Some s) l ss.

Definition live (st : State) (a : addr) : Prop := is_Some (heap st !! a).

(** The validity rule in the words of the specification: "count streams
    whose type classification includes input and those that include output
    (a bidirectional stream counts toward both).  Valid iff input-count ≤ 1
    AND output-count ≥ 1 AND the set is non-empty." *)
Definition includes_input (t : camera3_stream_type_t) : bool :=
  match t with
  | CAMERA3_STREAM_INPUT | CAMERA3_STREAM_BIDIRECTIONAL => true
  | CAMERA3_STREAM_OUTPUT => false
  end.

Definition includes_output (t : camera3_stream_type_t) : bool :=
  match t with
  | CAMERA3_STREAM_OUTPUT | CAMERA3_STREAM_BIDIRECTIONAL => true
  | CAMERA3_STREAM_INPUT => false
  end.

Definition input_count (types : list camera3_stream_type_t) : nat :=
  length (filter includes_input types).

Definition output_count (types : list camera3_stream_type_t) : nat :=
  length (filter includes_output types).

Definition valid_stream_set (types : list camera3_stream_type_t) : Prop :=
  types ≠ [] ∧ (input_count types ≤ 1)%nat ∧ (1 ≤ output_count types)%nat.

Global Instance valid_stream_set_dec types : Decision (valid_stream_set types).
Proof. unfold valid_stream_set. apply _. Defined.

(** The usage assignment in the words of the specification: "software-write
    + hardware-camera-write" if output-capable, "software-read +
    hardware-camera-read" if input-capable, "both added for
    bidirectional". *)
Definition spec_usage `{GrallocUsage} (t : camera3_stream_type_t) : Z :=
  match t with
  | CAMERA3_STREAM_OUTPUT =>
      Z.lor GRALLOC_USAGE_SW_WRITE_OFTEN GRALLOC_USAGE_HW_CAMERA_WRITE
  | CAMERA3_STREAM_INPUT =>
      Z.lor GRALLOC_USAGE_SW_READ_OFTEN GRALLOC_USAGE_HW_CAMERA_READ
  | CAMERA3_STREAM_BIDIRECTIONAL =>
      Z.lor (Z.lor GRALLOC_USAGE_SW_WRITE_OFTEN GRALLOC_USAGE_HW_CAMERA_WRITE)
            (Z.lor GRALLOC_USAGE_SW_READ_OFTEN GRALLOC_USAGE_HW_CAMERA_READ)
  end.

(** A Stream after [setupStreams] has handled it. *)
Definition configured_stream `{GrallocUsage} (s : Stream) : Stream :=
  set_mMaxBuffers 1 (set_mUsage (spec_usage (mType s)) s).

(** ** The fill loop *)

(** Every descriptor of [l] that signals reuse carries the address of a
    Stream that is live in [st]. *)
Definition reuse_live (st : State) (l : list addr) : Prop :=
  ∀ d x a, d ∈ l → descs st !! d = Some x → max_buffers x > 0 →
           priv x = Some a → live st a.

(** Every descriptor of [l] can be read, and one that signals reuse carries
    the address of a live Stream that passes the compatibility check. *)
Definition request_ok (st : State) (l : list addr) : Prop :=
  ∀ d, d ∈ l →
    ∃ x, descs st !! d = Some x ∧
         (max_buffers x > 0 →
          ∃ a s, priv x = Some a ∧ heap st !! a = Some s ∧
                 isValidReuseStream s (mId (cam st)) x = true).

(** What the loop did for the descriptor at [d], whose candidate is the
    Stream at [a]: reused a compatible Stream of [st], or constructed a new
    one at an address that was free in [st]. *)
Definition fill_slot (st st' : State) (d a : addr) : Prop :=
  ∃ x, descs st !! d = Some x ∧
    if decide (max_buffers x > 0)
    then priv x = Some a ∧
         ∃ s, heap st !! a = Some s ∧
              isValidReuseStream s (mId (cam st)) x = true
    else heap st !! a = None ∧
         heap st' !! a = Some (Stream_new (mId (cam st)) d x).

(** The array left by a loop that jumps to [err_out]: the stored
    candidates, the null pointer that caused the jump, and the elements
    never written. *)
Definition fill_shape (l : list addr) (r : fill_result) : Prop :=
  match r with
  | Filled newStreams => length newStreams = length l
  | Aborted newStreams =>
      ∃ c m, newStreams = (stored <$> c) ++ Val None :: replicate m Indeterminate
             ∧ (length c + S m = length l)%nat
  end.

(** The descriptors the loop got past. *)
Definition processed (l : list addr) (r : fill_result) : list addr :=
  take (length (candidates r)) l.

(** The state [st'] and result [r] of the fill loop over [l], for a call
    entered in [st] whose first loop cleared the reuse marks of the Streams
    [cur]. *)
Record fill_post (cur : list addr) (st : State) (l : list addr)
    (r : fill_result) (st' : State) : Prop := mk_fill_post {
  fill_cam : cam st' = cam st;
  fill_result_shape : fill_shape l r;
  fill_slots : Forall2 (fill_slot st st') (processed l r) (candidates r);
  fill_heap_old : ∀ a s,
    heap st !! a = Some s →
    heap st' !! a =
    Some (on (candidates r) (set_mReuse true) a (on cur (set_mReuse false) a s));
  fill_heap_new : ∀ a,
    heap st !! a = None → a ∉ candidates r → heap st' !! a = None;
  fill_fresh_NoDup : NoDup (filter (λ a, heap st !! a = None) (candidates r));
  fill_descs : ∀ d x,
    descs st !! d = Some x →
    ∃ p, descs st' !! d = Some (set_priv p x) ∧
         (d ∉ processed l r → p = priv x) ∧
         (max_buffers x > 0 → p = priv x);
  fill_descs_dom : ∀ d, descs st !! d = None → descs st' !! d = None;
  fill_tags : ∀ i d a,
    l !! i = Some d → candidates r !! i = Some a →
    d ∉ drop (S i) (processed l r) →
    ∃ x, descs st' !! d = Some x ∧ priv x = Some a
}.

(** One successful iteration: from [st], the descriptor at [d] with content
    [x] yields the candidate [a] and the state [st_a]. *)
Definition fill_step (st : State) (d : addr) (x : camera3_stream_t)
    (a : addr) (st_a : State) : Prop :=
  cam st_a = cam st ∧
  descs st_a = alter (set_priv (Some a)) d (descs st) ∧
  if decide (max_buffers x > 0)
  then priv x = Some a ∧
       (∃ s, heap st !! a = Some s ∧
             isValidReuseStream s (mId (cam st)) x = true) ∧
       heap st_a = alter (set_mReuse true) a (heap st)
  else heap st !! a = None ∧
       heap st_a = <[a := Stream_new (mId (cam st)) d x]> (heap st).

Definition cons_result (a : addr) (r : fill_result) : fill_result :=
  match r with
  | Filled rest => Filled (a :: rest)
  | Aborted rest => Aborted (stored a :: rest)
  end.

(** The body of the fill loop for the descriptor at [d], up to and including
    the tagging of the descriptor: the Stream pointer obtained. *)
Definition fill_iteration (d : addr) : M ptr :=
  c ← get_cam;
  astream ← load_desc d;
  p ← (if decide (max_buffers astream > 0) then reuseStream d
       else a ← new_stream (Stream_new (mId c) d astream); mret (Some a));
  match p with
  | None => mret None
  | Some a => update_desc d (set_priv (Some a));; mret (Some a)
  end.

Definition app_result (c : list addr) (r : fill_result) : fill_result :=
  match r with
  | Filled rest => Filled (c ++ rest)
  | Aborted rest => Aborted ((stored <$> c) ++ rest)
  end.

(** The Camera after the commit at the end of a successful
    [configureStreams]. *)
Definition commit (c : Camera) (newStreams : list addr) : Camera :=
  mk_Camera (mId c) (mBusy c) (mCallbackOps c) (Some newStreams)
            (length newStreams) (mDevice_module c).

(** The state after the loop that clears the reuse marks of [cur]. *)
Definition cleared (cur : list addr) (st st1 : State) : Prop :=
  cam st1 = cam st ∧ descs st1 = descs st ∧
  ∀ a, heap st1 !! a = on cur (set_mReuse false) a <$> heap st !! a.

(** ** Preconditions and outcomes of a transaction *)

(** The committed array can be walked and its Streams are live. *)
Definition device_ok (st : State) : Prop :=
  (mNumStreams (cam st) ≤ length (default [] (mStreams (cam st))))%nat ∧
  Forall (live st) (current (cam st)).

(** Every live Stream is bound to a descriptor that can be read. *)
Definition heap_ok (st : State) : Prop :=
  map_Forall (λ _ s, is_Some (descs st !! mStream s)) (heap st).

Global Instance live_dec st a : Decision (live st a).
Proof. unfold live. apply _. Defined.

Global Instance device_ok_dec st : Decision (device_ok st).
Proof. unfold device_ok. apply _. Defined.

Global Instance heap_ok_dec st : Decision (heap_ok st).
Proof. unfold heap_ok. apply _. Defined.

(** [xs] are the descriptors the pointers [l] refer to. *)
Definition described (st : State) (l : list addr) (xs : list camera3_stream_t)
  : Prop :=
  Forall2 (λ d x, descs st !! d = Some x) l xs.

(** The committed Stream at [a] for the descriptor at [d] after a successful
    call entered in [st]: the very Stream named by a descriptor that
    signalled reuse, or a Stream constructed by this call for this device at
    an address that held no Stream before. *)
Definition committed_slot `{GrallocUsage} (st st' : State) (d a : addr) : Prop :=
  ∃ x, descs st !! d = Some x ∧
    if decide (max_buffers x > 0)
    then priv x = Some a ∧
         ∃ s, heap st !! a = Some s ∧
              heap st' !! a = Some (configured_stream (set_mReuse true s))
    else heap st !! a = None ∧
         heap st' !! a =
         Some (configured_stream (Stream_new (mId (cam st)) d x)).

(** The candidate at [a] for the descriptor at [d] after an aborted call
    entered in [st]: a reused Stream is kept, a new one is gone. *)
Definition rolled_back_slot (st st' : State) (d a : addr) : Prop :=
  ∃ x, descs st !! d = Some x ∧
    if decide (max_buffers x > 0)
    then priv x = Some a ∧
         ∃ s, heap st !! a = Some s ∧ heap st' !! a = Some (set_mReuse true s)
    else heap st !! a = None ∧ heap st' !! a = None.

(** The descriptor at [d] carries the address [a] in its [priv] field. *)
Definition tagged (st : State) (d a : addr) : Prop :=
  ∃ x, descs st !! d = Some x ∧ priv x = Some a.

(** The state a successful call for the descriptors [l] leaves, with the
    committed set [c]: every committed Stream is live, set up and compatible
    with its descriptor, every descriptor now signals reuse, and the types
    form a valid set. *)
Definition configured_for `{GrallocUsage} (st : State) (l c : list addr) : Prop :=
  mStreams (cam st) = Some c ∧ mNumStreams (cam st) = length c ∧
  heap_ok st ∧
  Forall2 (λ d a, ∃ x s, descs st !! d = Some x ∧ heap st !! a = Some s ∧
                         max_buffers x > 0 ∧
                         isValidReuseStream s (mId (cam st)) x = true ∧
                         configured_stream s = s) l c ∧
  ∃ xs, described st l xs ∧ valid_stream_set (stream_type <$> xs).

(** * Concrete states: the scenario of the specification

    "Device with no prior streams; call configureStreams with one fresh
    output-only descriptor; then call again passing that stream's handle
    marked as bidirectional." *)

(** The flag values of [hardware/gralloc.h] on Android. *)
Definition android_gralloc : GrallocUsage := {|
  GRALLOC_USAGE_SW_READ_OFTEN := 0x3;
  GRALLOC_USAGE_SW_WRITE_OFTEN := 0x30;
  GRALLOC_USAGE_HW_CAMERA_WRITE := 0x20000;
  GRALLOC_USAGE_HW_CAMERA_READ := 0x40000
|}.

(** A fresh output descriptor and a fresh input descriptor. *)
Definition out_desc : camera3_stream_t :=
  mk_camera3_stream CAMERA3_STREAM_OUTPUT 640 480 1 0 None.
Definition in_desc : camera3_stream_t :=
  mk_camera3_stream CAMERA3_STREAM_INPUT 640 480 1 0 None.

(** The output descriptor once a call has tagged it with the Stream at
    address 1, and the same with its type changed by the caller. *)
Definition out_desc_tagged : camera3_stream_t :=
  mk_camera3_stream CAMERA3_STREAM_OUTPUT 640 480 1 1 (Some 1%positive).
Definition bidir_desc_tagged : camera3_stream_t :=
  mk_camera3_stream CAMERA3_STREAM_BIDIRECTIONAL 640 480 1 1 (Some 1%positive).

(** The Stream the first call constructs for [out_desc] at descriptor
    address 1, as [setupStreams] leaves it. *)
Definition out_stream (reused : bool) : Stream :=
  mk_Stream reused 0 1 CAMERA3_STREAM_OUTPUT 640 480 1 0x20030 1.

Definition camera_configured : Camera :=
  mk_Camera 0 false None (Some [1%positive]) 1 None.

(** Camera 0 before any call, with one descriptor at address 1. *)
Definition st_fresh : State :=
  mk_State (Camera_new 0) ∅ {[ 1%positive := out_desc ]}.

(** After the first call, and after a second call with the same list. *)
Definition st_once : State :=
  mk_State camera_configured {[ 1%positive := out_stream false ]}
           {[ 1%positive := out_desc_tagged ]}.
Definition st_twice : State :=
  mk_State camera_configured {[ 1%positive := out_stream true ]}
           {[ 1%positive := out_desc_tagged ]}.

(** The caller then marks the descriptor bidirectional and adds a fresh
    output descriptor at address 2. *)
Definition st_changed : State :=
  mk_State camera_configured {[ 1%positive := out_stream true ]}
           (<[ 2%positive := out_desc ]> {[ 1%positive := bidir_desc_tagged ]}).

(** The state the third call, for the descriptors 2 and 1 in this order,
    leaves: descriptor 2 is tagged with address 2, where no Stream lives. *)
Definition st_aborted : State :=
  mk_State camera_configured {[ 1%positive := out_stream false ]}
           (<[ 2%positive := set_priv (Some 2%positive) out_desc ]>
              {[ 1%positive := bidir_desc_tagged ]}).

(** The caller instead keeps the descriptor and adds two fresh input
    descriptors at addresses 2 and 3. *)
Definition st_two_inputs : State :=
  mk_State camera_configured {[ 1%positive := out_stream true ]}
           (<[ 3%positive := in_desc ]>
              (<[ 2%positive := in_desc ]> {[ 1%positive := out_desc_tagged ]})).

(** ** Invariants of the device *)

(** A well-formed device: the committed array can be walked, its Streams
    are live and pairwise distinct, and every live Stream is bound to a
    readable descriptor. *)
Definition device_wf (st : State) : Prop :=
  device_ok st ∧ NoDup (current (cam st)) ∧ heap_ok st.

(** The device owns every live Stream: each one is in the committed set. *)
Definition owned (st : State) : Prop :=
  ∀ a, live st a → a ∈ current (cam st).

(** No two positions of the list signal reuse of the same Stream. *)
Definition distinct_reuse (st : State) (l : list addr) : Prop :=
  ∀ i j d d' x x' a,
    l !! i = Some d → l !! j = Some d' →
    descs st !! d = Some x → descs st !! d' = Some x' →
    max_buffers x > 0 → max_buffers x' > 0 →
    priv x = Some a → priv x' = Some a → i = j.

(** What a call may change in a descriptor: the [priv] tag, and
    [max_buffers], which can only become 1. *)
Definition same_request (x x' : camera3_stream_t) : Prop :=
  stream_type x' = stream_type x ∧ width x' = width x ∧
  height x' = height x ∧ format x' = format x ∧
  (max_buffers x' = max_buffers x ∨ max_buffers x' = 1).

Definition descs_frame (st st' : State) : Prop :=
  ∀ d, match descs st !! d with
       | Some x => ∃ x', descs st' !! d = Some x' ∧ same_request x x'
       | None => descs st' !! d = None
       end.

(** ** The lifecycle fields *)

(** The state with the fields that [open], [close] and [initialize] write
    (busy flag, callback handle, module handle) set to the given values. *)
Definition relabel (busy : bool) (callback_ops module : ptr) (st : State)
  : State :=
  with_cam (mk_Camera (mId (cam st)) busy callback_ops (mStreams (cam st))
                      (mNumStreams (cam st)) module) st.

(** [m'] does on the relabelled state what [m] does on the state, and
    carries the labels through. *)
Definition sim {A} (busy : bool) (callback_ops module : ptr) (m m' : M A)
  : Prop :=
  ∀ st, m' (relabel busy callback_ops module st)
        = prod_map id (relabel busy callback_ops module) <$> m st.

(** ** Further concrete states *)

(** A Stream whose [registerBuffers] accepts every buffer set. *)
Definition accepting_buffers : StreamBuffers := {|
  Stream_registerBuffers := λ _ _, mret 0
|}.

(** A buffer set for the descriptor at address [d]. *)
Definition buffers_for (d : addr) : camera3_stream_buffer_set_t :=
  mk_buffer_set (Some d) 1 [7%positive].

(** The state of the first call of the scenario between the fill loop and
    [setupStreams]. *)
Definition st_filled : State :=
  mk_State (Camera_new 0) {[ 1%positive := Stream_new 0 1 out_desc ]}
           {[ 1%positive := set_priv (Some 1%positive) out_desc ]}.

(** After the first call the caller adds a fresh output descriptor at
    address 2 and asks for that stream alone; the call replaces the
    committed Stream. *)
Definition st_next : State :=
  mk_State camera_configured {[ 1%positive := out_stream false ]}
           (<[ 2%positive := out_desc ]> {[ 1%positive := out_desc_tagged ]}).

Definition st_replaced : State :=
  mk_State (mk_Camera 0 false None (Some [2%positive]) 1 None)
           {[ 2%positive :=
                mk_Stream false 0 2 CAMERA3_STREAM_OUTPUT 640 480 1 0x20030 1 ]}
           (<[ 2%positive :=
                 mk_camera3_stream CAMERA3_STREAM_OUTPUT 640 480 1 1
                                   (Some 2%positive) ]>
              {[ 1%positive := out_desc_tagged ]}).

(** A device with an output Stream and an input Stream committed. *)
Definition st_in_out : State :=
  mk_State (mk_Camera 0 false None (Some [1%positive; 2%positive]) 2 None)
           (<[ 2%positive :=
                 mk_Stream false 0 2 CAMERA3_STREAM_INPUT 640 480 1 0x40003 1 ]>
              {[ 1%positive := out_stream false ]})
           (<[ 2%positive :=
                 mk_camera3_stream CAMERA3_STREAM_INPUT 640 480 1 1
                                   (Some 2%positive) ]>
              {[ 1%positive := out_desc_tagged ]}).
(** * Reasoning about methods *)

(** ** The monad *)

Lemma bind_Some {A B} (m : M A) (f : A → M B) st a st1 :
  m st = Some (a, st1) → (m ≫= f) st = f a st1.
Proof. intros Hm. unfold mbind, M_bind. by rewrite Hm. Qed.

Lemma bind_None {A B} (m : M A) (f : A → M B) st :
  m st = None → (m ≫= f) st = None.
Proof. intros Hm. unfold mbind, M_bind. by rewrite Hm. Qed.

Lemma bind_inv {A B} (m : M A) (f : A → M B) st r :
  (m ≫= f) st = Some r → ∃ a st1, m st = Some (a, st1) ∧ f a st1 = Some r.
Proof.
  unfold mbind, M_bind. destruct (m st) as [[a st1]|]; [|done].
  intros Hf. by exists a, st1.
Qed.

Lemma ret_inv {A} (a : A) st r : mret (M:=M) a st = Some r → r = (a, st).
Proof. unfold mret, M_ret. congruence. Qed.

(** Splits a hypothesis [(m ≫= f) st = Some r] into its two steps. *)
Ltac bind_step H a st1 Hm :=
  apply bind_inv in H; destruct H as (a & st1 & Hm & H).

(** Ends a hypothesis [mret a st = Some r]. *)
Ltac ret_step H := apply ret_inv in H; simplify_eq.

(** ** Loads, stores, allocation *)

Lemma get_cam_inv st c st1 : get_cam st = Some (c, st1) → c = cam st ∧ st1 = st.
Proof. unfold get_cam. intros [= <- <-]. done. Qed.

Lemma load_stream_inv a st s st1 :
  load_stream a st = Some (s, st1) → heap st !! a = Some s ∧ st1 = st.
Proof. unfold load_stream. destruct (heap st !! a); [|done]. by intros [= <- <-]. Qed.

Lemma load_stream_Some a st s :
  heap st !! a = Some s → load_stream a st = Some (s, st).
Proof. unfold load_stream. by intros ->. Qed.

Lemma load_desc_inv d st x st1 :
  load_desc d st = Some (x, st1) → descs st !! d = Some x ∧ st1 = st.
Proof. unfold load_desc. destruct (descs st !! d); [|done]. by intros [= <- <-]. Qed.

Lemma load_desc_Some d st x :
  descs st !! d = Some x → load_desc d st = Some (x, st).
Proof. unfold load_desc. by intros ->. Qed.

Lemma update_stream_inv a f st u st1 :
  update_stream a f st = Some (u, st1) →
  is_Some (heap st !! a) ∧ st1 = with_heap (alter f a (heap st)) st.
Proof.
  unfold update_stream. destruct (heap st !! a) eqn:E; [|done].
  intros [= <- <-]. eauto.
Qed.

Lemma update_stream_Some a f st s :
  heap st !! a = Some s →
  update_stream a f st = Some (tt, with_heap (alter f a (heap st)) st).
Proof. unfold update_stream. by intros ->. Qed.

Lemma update_desc_inv d f st u st1 :
  update_desc d f st = Some (u, st1) →
  is_Some (descs st !! d) ∧ st1 = with_descs (alter f d (descs st)) st.
Proof.
  unfold update_desc. destruct (descs st !! d) eqn:E; [|done].
  intros [= <- <-]. eauto.
Qed.

Lemma update_desc_Some d f st x :
  descs st !! d = Some x →
  update_desc d f st = Some (tt, with_descs (alter f d (descs st)) st).
Proof. unfold update_desc. by intros ->. Qed.

Lemma delete_stream_inv a st u st1 :
  delete_stream a st = Some (u, st1) →
  is_Some (heap st !! a) ∧ st1 = with_heap (delete a (heap st)) st.
Proof.
  unfold delete_stream. destruct (heap st !! a) eqn:E; [|done].
  intros [= <- <-]. eauto.
Qed.

Lemma new_stream_inv s st a st1 :
  new_stream s st = Some (a, st1) →
  heap st !! a = None ∧ st1 = with_heap (<[a := s]> (heap st)) st.
Proof.
  unfold new_stream. intros [= <- <-]. split; [|done].
  apply not_elem_of_dom, is_fresh.
Qed.

Lemma array_prefix_inv {A} (arr : list A) count st l st1 :
  array_prefix arr count st = Some (l, st1) →
  (count ≤ length arr)%nat ∧ l = take count arr ∧ st1 = st.
Proof.
  unfold array_prefix. case_decide; [|done]. intros Hr%ret_inv.
  by injection Hr as <- <-.
Qed.

Lemma array_prefix_Some {A} (arr : list A) count st :
  (count ≤ length arr)%nat →
  array_prefix arr count st = Some (take count arr, st).
Proof. intros Hle. unfold array_prefix. by rewrite decide_True. Qed.

Lemma for_each_app {A} (body : A → M unit) l1 l2 st :
  for_each body (l1 ++ l2) st =
  match for_each body l1 st with
  | Some (_, st1) => for_each body l2 st1
  | None => None
  end.
Proof.
  revert st. induction l1 as [|a l1 IH]; intros st; simpl; [done|].
  unfold mbind, M_bind. destruct (body a st) as [[[] st1]|]; [|done].
  apply IH.
Qed.

(** ** Changes applied along a list of addresses *)

Lemma on_nil {X} (f : X → X) a x : on [] f a x = x.
Proof. unfold on. rewrite decide_False; [done|]. apply not_elem_of_nil. Qed.

Lemma on_elem {X} l (f : X → X) a x : a ∈ l → on l f a x = f x.
Proof. intros Hin. unfold on. by rewrite decide_True. Qed.

Lemma on_not_elem {X} l (f : X → X) a x : a ∉ l → on l f a x = x.
Proof. intros Hin. unfold on. by rewrite decide_False. Qed.

Lemma on_cons {X} b l (f : X → X) a x :
  (∀ y, f (f y) = f y) →
  on l f a (on [b] f a x) = on (b :: l) f a x.
Proof.
  intros Hidem. unfold on.
  destruct (decide (a ∈ b :: l)) as [Hin|Hin].
  - apply elem_of_cons in Hin as [->|Hin].
    + rewrite (decide_True (P:=b ∈ [b])) by apply list_elem_of_singleton, eq_refl.
      by case_decide.
    + rewrite (decide_True (P:=a ∈ l)) by done. by case_decide.
  - apply not_elem_of_cons in Hin as [Hne Hin].
    rewrite (decide_False (P:=a ∈ l)) by done.
    rewrite decide_False; [done|]. by rewrite list_elem_of_singleton.
Qed.

Lemma lookup_alter_on {X} (f : X → X) b (m : gmap positive X) a :
  alter f b m !! a = on [b] f a <$> m !! a.
Proof.
  unfold on. rewrite lookup_alter. destruct (decide (b = a)) as [->|Hne].
  - rewrite decide_True; [done|]. by apply list_elem_of_singleton.
  - rewrite decide_False; [by destruct (m !! a)|].
    rewrite list_elem_of_singleton. congruence.
Qed.

Lemma filter_ext_elem {A} (P1 P2 : A → Prop)
    `{∀ x, Decision (P1 x)} `{∀ x, Decision (P2 x)} (l : list A) :
  (∀ x, x ∈ l → P1 x ↔ P2 x) → filter P1 l = filter P2 l.
Proof.
  induction l as [|x l IH]; intros Hext; [done|].
  rewrite !filter_cons.
  rewrite IH by (intros y Hy; apply Hext; by right).
  destruct (decide (P1 x)) as [Hp|Hp], (decide (P2 x)) as [Hq|Hq]; try done.
  - exfalso. apply Hq, Hext; [by left|done].
  - exfalso. apply Hp, Hext; [by left|done].
Qed.

Lemma Forall2_impl_elem {A B} (P Q : A → B → Prop) l k :
  Forall2 P l k → (∀ x y, x ∈ l → y ∈ k → P x y → Q x y) → Forall2 Q l k.
Proof.
  induction 1 as [|x y l k Hxy _ IH]; intros Himpl; constructor.
  - apply Himpl; [by left|by left|done].
  - apply IH. intros x' y' Hx' Hy'. apply Himpl; by right.
Qed.

Lemma snoc_ne_nil {A} (l : list A) x rest : l ++ x :: rest ≠ [].
Proof. by destruct l. Qed.

Lemma fmap_on_id {X} (o : option X) : id <$> o = o.
Proof. by destruct o. Qed.

Lemma entries_stored l : entries (stored <$> l) = l.
Proof. unfold entries. induction l as [|a l IH]; simpl; [done|]. by f_equal. Qed.

Lemma entries_app arr1 arr2 : entries (arr1 ++ arr2) = entries arr1 ++ entries arr2.
Proof. unfold entries. apply omap_app. Qed.

Lemma entries_replicate n : entries (replicate n Indeterminate) = [].
Proof. unfold entries. induction n as [|n IH]; [done|]. done. Qed.

(** ** The loop clearing the reuse marks *)

Lemma set_mReuse_idemp b c s : set_mReuse b (set_mReuse c s) = set_mReuse b s.
Proof. done. Qed.

Lemma clear_inv l st u st' :
  for_each (λ a, update_stream a (set_mReuse false)) l st = Some (u, st') →
  cam st' = cam st ∧ descs st' = descs st ∧ Forall (live st) l ∧
  ∀ a, heap st' !! a = on l (set_mReuse false) a <$> heap st !! a.
Proof.
  revert st. induction l as [|b l IH]; intros st Hrun; simpl in Hrun.
  - ret_step Hrun.
    repeat split; [constructor|]. intros a.
    destruct (heap st !! a); simpl; [|done]. by rewrite on_nil.
  - bind_step Hrun v st1 Hb.
    apply update_stream_inv in Hb as [Hlive ->].
    apply IH in Hrun as (Hc & Hd & Hl & Hh). simpl in *.
    repeat split; [done|done| |].
    + constructor; [done|].
      eapply Forall_impl; [exact Hl|]. intros a. unfold live. simpl.
      rewrite lookup_alter. case_decide; [|done].
      subst. by rewrite fmap_is_Some.
    + intros a. rewrite Hh, lookup_alter_on, <- option_fmap_compose.
      apply option_fmap_ext. intros s. simpl. by rewrite on_cons.
Qed.

Lemma clear_defined l st :
  Forall (live st) l →
  ∃ st', for_each (λ a, update_stream a (set_mReuse false)) l st = Some (tt, st').
Proof.
  revert st. induction l as [|b l IH]; intros st Hl; simpl.
  - by eexists.
  - inversion Hl as [|? ? [s Hs] Hl']; subst.
    rewrite (bind_Some _ _ _ tt _ (update_stream_Some _ _ _ _ Hs)).
    apply IH. eapply Forall_impl; [exact Hl'|]. intros a. unfold live. simpl.
    rewrite lookup_alter. case_decide; [|done]. subst. by rewrite fmap_is_Some.
Qed.

(** ** destroyStreams *)

Lemma sweep_nil a s : sweep [] a s = Some s.
Proof.
  unfold sweep. rewrite decide_False; [done|]. intros [Hin _].
  by apply not_elem_of_nil in Hin.
Qed.

Lemma sweep_cons_ne b l a s : a ≠ b → sweep (b :: l) a s = sweep l a s.
Proof.
  intros Hne. unfold sweep.
  destruct (decide (a ∈ l ∧ mReuse s = false)) as [[Hin Hf]|Hn].
  - rewrite decide_True; [done|]. split; [by right|done].
  - rewrite decide_False; [done|]. intros [Hin Hf]. apply Hn. split; [|done].
    by apply elem_of_cons in Hin as [?|?].
Qed.

Lemma sweep_cons_reused l a s : mReuse s = true → sweep (a :: l) a s = Some s.
Proof.
  intros Hre. unfold sweep. rewrite decide_False; [done|].
  intros [_ Hf]. congruence.
Qed.

Lemma sweep_reused l a s : mReuse s = true → sweep l a s = Some s.
Proof.
  intros Hre. unfold sweep. rewrite decide_False; [done|].
  intros [_ Hf]. congruence.
Qed.

Lemma sweep_cons_head l a s : mReuse s = false → sweep (a :: l) a s = None.
Proof. intros Hre. unfold sweep. rewrite decide_True; [done|]. split; [by left|done]. Qed.

Lemma sweep_not_elem l a s : a ∉ l → sweep l a s = Some s.
Proof. intros Hn. unfold sweep. rewrite decide_False; [done|]. by intros [? _]. Qed.

Lemma sweep_elem l a s : a ∈ l → mReuse s = false → sweep l a s = None.
Proof. intros Hin Hf. unfold sweep. by rewrite decide_True. Qed.

Lemma destroy_inv arr st u st' :
  for_each destroy_one arr st = Some (u, st') →
  cam st' = cam st ∧ descs st' = descs st ∧ Forall initialized arr ∧
  ∀ a, heap st' !! a = heap st !! a ≫= sweep (entries arr) a.
Proof.
  revert st. induction arr as [|sl arr IH]; intros st Hrun; simpl in Hrun.
  - ret_step Hrun.
    repeat split; [constructor|]. intros a.
    destruct (heap st !! a) as [s|]; simpl; [|done]. by rewrite sweep_nil.
  - bind_step Hrun v st1 Hb.
    destruct sl as [|[b|]]; simpl in Hb; [done| |].
    + bind_step Hb s st2 Hs. apply load_stream_inv in Hs as [Hs ->].
      assert (entries (Val (Some b) :: arr) = b :: entries arr) as -> by done.
      destruct (mReuse s) eqn:Hre; simpl in Hb.
      * ret_step Hb.
        apply IH in Hrun as (Hc & Hd & Hi & Hh).
        repeat split; [done|done|by constructor|].
        intros a. rewrite Hh. destruct (heap st !! a) as [s'|] eqn:Ha; simpl; [|done].
        destruct (decide (a = b)) as [->|Hne].
        -- simplify_eq. by rewrite sweep_cons_reused, sweep_reused.
        -- by rewrite sweep_cons_ne.
      * apply delete_stream_inv in Hb as [_ ->].
        apply IH in Hrun as (Hc & Hd & Hi & Hh). simpl in *.
        repeat split; [done|done|by constructor|].
        intros a. rewrite Hh. rewrite lookup_delete.
        case_decide as Hba.
        -- subst a. rewrite Hs. simpl. by rewrite sweep_cons_head.
        -- destruct (heap st !! a) as [s'|] eqn:Ha; simpl; [|done].
           rewrite sweep_cons_ne; [done|]. congruence.
    + ret_step Hb.
      apply IH in Hrun as (Hc & Hd & Hi & Hh).
      repeat split; [done|done|by constructor|done].
Qed.

Lemma destroy_defined arr st :
  Forall initialized arr →
  Forall (live st) (entries arr) →
  NoDup (filter (λ a, mReuse <$> heap st !! a = Some false) (entries arr)) →
  ∃ st', for_each destroy_one arr st = Some (tt, st').
Proof.
  revert st. induction arr as [|sl arr IH]; intros st Hi Hl Hnd; simpl.
  - by eexists.
  - inversion Hi as [|? ? Hsl Hi']; subst.
    destruct sl as [|[b|]]; [done| |].
    + unfold entries in Hl, Hnd. simpl in Hl, Hnd. fold (entries arr) in Hl, Hnd.
      inversion Hl as [|? ? [s Hs] Hl']; subst. simpl.
      rewrite (bind_Some _ _ _ tt
        (if mReuse s then st else with_heap (delete b (heap st)) st)).
      2:{ rewrite (bind_Some _ _ _ _ _ (load_stream_Some _ _ _ Hs)).
          destruct (mReuse s); simpl; [done|].
          unfold delete_stream. by rewrite Hs. }
      destruct (mReuse s) eqn:Hre.
      * apply IH; [done|done|].
        rewrite filter_cons_False in Hnd; [done|]. rewrite Hs. simpl. congruence.
      * rewrite filter_cons_True in Hnd by (rewrite Hs; simpl; congruence).
        apply NoDup_cons in Hnd as [Hb Hnd].
        assert (b ∉ entries arr) as Hbn.
        { intros Hin. apply Hb. apply list_elem_of_filter. split; [|done].
          rewrite Hs. simpl. congruence. }
        apply IH; [done| |].
        -- rewrite Forall_forall in Hl'. apply Forall_forall. intros a Ha.
           unfold live. simpl. rewrite lookup_delete_ne; [by apply Hl'|].
           intros ->. done.
        -- simpl. erewrite filter_ext_elem; [exact Hnd|].
           intros a Ha. simpl. rewrite lookup_delete_ne; [done|]. intros ->. done.
    + simpl. rewrite (bind_Some _ _ _ tt st) by done.
      unfold entries in Hl, Hnd. simpl in Hl, Hnd. by apply IH.
Qed.

(** ** isValidStreamSet *)

Lemma isInputType_includes s : isInputType s = includes_input (mType s).
Proof. done. Qed.

Lemma isOutputType_includes s : isOutputType s = includes_output (mType s).
Proof. done. Qed.

Lemma input_count_cons t ts :
  Z.of_nat (input_count (t :: ts)) =
  (if includes_input t then 1 else 0) + Z.of_nat (input_count ts).
Proof.
  unfold input_count. rewrite filter_cons.
  destruct (includes_input t); simpl length; lia.
Qed.

Lemma output_count_cons t ts :
  Z.of_nat (output_count (t :: ts)) =
  (if includes_output t then 1 else 0) + Z.of_nat (output_count ts).
Proof.
  unfold output_count. rewrite filter_cons.
  destruct (includes_output t); simpl length; lia.
Qed.

Lemma count_types_Some l ss inputs outputs st :
  objects st l ss →
  count_types l inputs outputs st =
  Some ((inputs + Z.of_nat (input_count (mType <$> ss)),
         outputs + Z.of_nat (output_count (mType <$> ss))), st).
Proof.
  intros Hobj. revert inputs outputs.
  induction Hobj as [|a s l ss Ha Hobj IH]; intros inputs outputs.
  - simpl. unfold mret, M_ret.
    do 3 f_equal; unfold input_count, output_count; simpl; lia.
  - rewrite fmap_cons. cbn [count_types].
    rewrite (bind_Some _ _ _ _ _ (load_stream_Some _ _ _ Ha)).
    rewrite IH, input_count_cons, output_count_cons.
    rewrite isInputType_includes, isOutputType_includes.
    do 3 f_equal.
    + destruct (includes_input (mType s)); lia.
    + destruct (includes_output (mType s)); lia.
Qed.

Lemma count_types_live l inputs outputs st r st' :
  count_types l inputs outputs st = Some (r, st') → ∃ ss, objects st l ss.
Proof.
  revert inputs outputs. induction l as [|a l IH]; intros inputs outputs Hrun.
  - exists []. constructor.
  - simpl in Hrun. bind_step Hrun s st1 Hs.
    apply load_stream_inv in Hs as [Hs ->].
    apply IH in Hrun as [ss Hss]. exists (s :: ss). by constructor.
Qed.

Lemma objects_length st l ss : objects st l ss → length ss = length l.
Proof. intros Hobj. symmetry. by eapply Forall2_length. Qed.

Lemma objects_unique st l ss1 ss2 : objects st l ss1 → objects st l ss2 → ss1 = ss2.
Proof.
  intros H1. revert ss2. induction H1 as [|a s l ss Ha H1 IH]; intros ss2 H2.
  - by inversion H2.
  - inversion H2; subst. f_equal; [congruence|by apply IH].
Qed.

Lemma objects_live st l ss : objects st l ss → Forall (live st) l.
Proof.
  induction 1 as [|a s l ss Ha _ IH]; constructor; [|done]. by exists s.
Qed.

Lemma live_objects st l : Forall (live st) l → ∃ ss, objects st l ss.
Proof.
  induction 1 as [|a l [s Hs] _ [ss IH]].
  - exists []. constructor.
  - exists (s :: ss). by constructor.
Qed.

Lemma objects_lookup st l ss a :
  objects st l ss → a ∈ l → ∃ s, heap st !! a = Some s ∧ s ∈ ss.
Proof.
  induction 1 as [|b s l ss Hb _ IH]; intros Hin.
  - by apply not_elem_of_nil in Hin.
  - apply elem_of_cons in Hin as [->|Hin].
    + exists s. split; [done|by left].
    + destruct (IH Hin) as (s' & Hs' & Hin'). exists s'. split; [done|by right].
Qed.

Lemma isValidStreamSet_Some arr count ss st :
  (count ≤ length arr)%nat →
  objects st (take count arr) ss →
  isValidStreamSet (Some arr) count st =
  Some (bool_decide (valid_stream_set (mType <$> ss)), st).
Proof.
  intros Hle Hobj. unfold isValidStreamSet.
  destruct (decide (count = 0%nat)) as [->|Hne].
  - simpl in Hobj. inversion Hobj; subst. done.
  - rewrite (bind_Some _ _ _ _ _ (array_prefix_Some arr count st Hle)).
    rewrite (bind_Some _ _ _ _ _ (count_types_Some _ _ 0 0 _ Hobj)).
    assert (mType <$> ss ≠ []) as Hnil.
    { intros Hnil%fmap_nil_inv. subst ss. apply objects_length in Hobj.
      rewrite length_take in Hobj. simpl in Hobj. lia. }
    unfold mret, M_ret.
    repeat case_decide.
    + rewrite bool_decide_eq_false_2; [done|]. intros (_ & _ & Ho). lia.
    + rewrite bool_decide_eq_false_2; [done|]. intros (_ & Hi & _). lia.
    + rewrite bool_decide_eq_true_2; [done|]. repeat split; [done|lia|lia].
Qed.

Lemma isValidStreamSet_inv arr count st valid st' :
  isValidStreamSet (Some arr) count st = Some (valid, st') →
  st' = st ∧
  ∃ ss, objects st (take count arr) ss ∧
        valid = bool_decide (valid_stream_set (mType <$> ss)) ∧
        (count ≤ length arr)%nat.
Proof.
  intros Hrun.
  assert (∃ ss, objects st (take count arr) ss ∧ (count ≤ length arr)%nat)
    as (ss & Hobj & Hle).
  { unfold isValidStreamSet in Hrun.
    destruct (decide (count = 0%nat)) as [->|Hne].
    - exists []. split; [constructor|lia].
    - bind_step Hrun visited st1 Hv.
      apply array_prefix_inv in Hv as (Hle & -> & ->).
      bind_step Hrun r st2 Hc. apply count_types_live in Hc as [ss Hss].
      by exists ss. }
  rewrite (isValidStreamSet_Some _ _ _ _ Hle Hobj) in Hrun.
  injection Hrun as <- <-. split; [done|]. by exists ss.
Qed.

(** ** setupStreams *)

Section Setup.
Context `{GrallocUsage}.

Lemma configured_stream_idemp s :
  configured_stream (configured_stream s) = configured_stream s.
Proof. done. Qed.

Lemma setup_usage s :
  (let usage := 0 in
   let usage :=
     if isOutputType s
     then Z.lor usage (Z.lor GRALLOC_USAGE_SW_WRITE_OFTEN GRALLOC_USAGE_HW_CAMERA_WRITE)
     else usage in
   if isInputType s
   then Z.lor usage (Z.lor GRALLOC_USAGE_SW_READ_OFTEN GRALLOC_USAGE_HW_CAMERA_READ)
   else usage) = spec_usage (mType s).
Proof.
  unfold isOutputType, isInputType, spec_usage.
  destruct (mType s); simpl; by rewrite ?Z.lor_0_l.
Qed.

Lemma setup_one_Some a st s x :
  heap st !! a = Some s →
  descs st !! mStream s = Some x →
  setup_one a st =
  Some (tt, mk_State (cam st) (alter configured_stream a (heap st))
                     (alter (set_max_buffers 1) (mStream s) (descs st))).
Proof.
  intros Hs Hx. unfold setup_one.
  rewrite (bind_Some _ _ _ _ _ (load_stream_Some _ _ _ Hs)).
  rewrite setup_usage. unfold setUsage, setMaxBuffers.
  rewrite (bind_Some _ _ _ _ _ (update_stream_Some _ _ _ _ Hs)).
  assert (heap (with_heap (alter (set_mUsage (spec_usage (mType s))) a (heap st)) st)
            !! a = Some (set_mUsage (spec_usage (mType s)) s)) as Hs1.
  { simpl. by rewrite lookup_alter_eq, Hs. }
  rewrite (bind_Some _ _ _ _ _ (load_stream_Some _ _ _ Hs1)).
  rewrite (bind_Some _ _ _ _ _ (update_stream_Some _ _ _ _ Hs1)).
  simpl mStream.
  erewrite update_desc_Some by (simpl; exact Hx).
  unfold with_descs, with_heap. simpl. do 3 f_equal.
  apply map_eq. intros b. destruct (decide (a = b)) as [<-|Hne].
  - rewrite !lookup_alter_eq. by rewrite Hs.
  - by rewrite !lookup_alter_ne.
Qed.

Lemma setup_one_inv a st u st' :
  setup_one a st = Some (u, st') →
  ∃ s, heap st !! a = Some s ∧ is_Some (descs st !! mStream s) ∧
       st' = mk_State (cam st) (alter configured_stream a (heap st))
                      (alter (set_max_buffers 1) (mStream s) (descs st)).
Proof.
  intros Hrun. pose proof Hrun as Hrun'. unfold setup_one in Hrun'.
  bind_step Hrun' s st1 Hs. apply load_stream_inv in Hs as [Hs ->].
  bind_step Hrun' v st1 Hu. apply update_stream_inv in Hu as [_ ->].
  unfold setMaxBuffers in Hrun'.
  bind_step Hrun' s1 st1 Hs1. apply load_stream_inv in Hs1 as [Hs1 ->].
  simpl in Hs1. rewrite lookup_alter_eq, Hs in Hs1. simpl in Hs1.
  injection Hs1 as <-.
  bind_step Hrun' v1 st1 Hu1. apply update_stream_inv in Hu1 as [_ ->].
  apply update_desc_inv in Hrun' as [[x Hx] _]. simpl in Hx.
  exists s. split; [done|]. split; [by exists x|].
  rewrite (setup_one_Some _ _ _ _ Hs Hx) in Hrun. by simplify_eq.
Qed.

Lemma objects_alter_back st (f : Stream → Stream) a hp l ssa :
  (∀ s, mStream (f s) = mStream s) →
  objects (mk_State (cam st) (alter f a (heap st)) hp) l ssa →
  ∃ ss, objects st l ss ∧ mStream <$> ss = mStream <$> ssa.
Proof.
  intros Hf. induction 1 as [|b sa l ssa Hb _ (ss & IH1 & IH2)].
  - exists []. split; [constructor|done].
  - simpl in Hb. rewrite lookup_alter in Hb.
    destruct (heap st !! b) as [s0|] eqn:Hb0.
    2:{ case_decide; simplify_eq. rewrite Hb0 in Hb. done. }
    exists (s0 :: ss). split; [by constructor|].
    rewrite !fmap_cons, IH2. f_equal.
    case_decide; simplify_eq; [|done].
    rewrite Hb0 in Hb. simpl in Hb. simplify_eq. by rewrite Hf.
Qed.

Lemma setup_inv l st u st' :
  for_each setup_one l st = Some (u, st') →
  cam st' = cam st ∧
  ∃ ss, objects st l ss ∧
        Forall (λ s, is_Some (descs st !! mStream s)) ss ∧
        (∀ a, heap st' !! a = on l configured_stream a <$> heap st !! a) ∧
        (∀ d, descs st' !! d =
              on (mStream <$> ss) (set_max_buffers 1) d <$> descs st !! d).
Proof.
  revert st. induction l as [|b l IH]; intros st Hrun; simpl in Hrun.
  - ret_step Hrun. split; [done|]. exists [].
    split; [constructor|]. split; [constructor|].
    split; intros a.
    + destruct (heap st !! a); simpl; [|done]. by rewrite on_nil.
    + destruct (descs st !! a); simpl; [|done]. by rewrite on_nil.
  - bind_step Hrun v st1 Hb.
    apply setup_one_inv in Hb as (s & Hs & Hx & ->).
    apply IH in Hrun as (Hc & ssa & Hobj & Hdl & Hh & Hd).
    split; [done|].
    destruct (objects_alter_back st configured_stream _ _ _ _
                (λ _, eq_refl) Hobj) as (ss & Hss & Hms).
    exists (s :: ss). split; [by constructor|]. split.
    + constructor; [done|].
      apply Forall_forall. intros s' Hs'.
      assert (mStream s' ∈ mStream <$> ssa) as Hin.
      { rewrite <- Hms. by apply list_elem_of_fmap_2. }
      apply list_elem_of_fmap in Hin as (sa & Hsa & Hin). rewrite Hsa.
      rewrite Forall_forall in Hdl. specialize (Hdl _ Hin). simpl in Hdl.
      rewrite lookup_alter in Hdl. case_decide; [|done].
      rewrite fmap_is_Some in Hdl. congruence.
    + split; intros a.
      * rewrite Hh. simpl. rewrite lookup_alter_on, <- option_fmap_compose.
        apply option_fmap_ext. intros s'. simpl. by rewrite on_cons.
      * rewrite Hd. simpl. rewrite lookup_alter_on, <- option_fmap_compose.
        apply option_fmap_ext. intros x'. simpl.
        rewrite on_cons by done. by rewrite <- Hms.
Qed.

Lemma setup_defined l ss st :
  objects st l ss →
  Forall (λ s, is_Some (descs st !! mStream s)) ss →
  ∃ st', for_each setup_one l st = Some (tt, st').
Proof.
  revert ss st.
  induction l as [|b l IH]; intros ss st Hobj Hd; simpl.
  - by eexists.
  - inversion Hobj as [|? s ? ss' Hs Hobj']; subst.
    inversion Hd as [|? ? [x Hx] Hd']; subst.
    rewrite (bind_Some _ _ _ _ _ (setup_one_Some _ _ _ _ Hs Hx)).
    assert (∃ ssa, objects (mk_State (cam st) (alter configured_stream b (heap st))
              (alter (set_max_buffers 1) (mStream s) (descs st))) l ssa ∧
              mStream <$> ssa = mStream <$> ss') as (ssa & Hssa & Hms).
    { clear -Hobj'. induction Hobj' as [|c sc l ss' Hc _ (ssa & IH1 & IH2)].
      - exists []. split; [constructor|done].
      - exists (on [b] configured_stream c sc :: ssa). split.
        + constructor; [|done]. simpl. by rewrite lookup_alter_on, Hc.
        + rewrite !fmap_cons, IH2. f_equal. unfold on. by case_decide. }
    apply (IH ssa); [done|].
    apply Forall_forall. intros sa Hsa. simpl.
    assert (mStream sa ∈ mStream <$> ss') as Hin.
    { rewrite <- Hms. by apply list_elem_of_fmap_2. }
    apply list_elem_of_fmap in Hin as (s' & -> & Hin).
    rewrite Forall_forall in Hd'. specialize (Hd' _ Hin).
    rewrite lookup_alter. case_decide; [|done]. by rewrite fmap_is_Some.
Qed.

End Setup.

(** ** reuseStream and the fill loop *)

Lemma isValidReuseStream_frame s id x b p :
  isValidReuseStream (set_mReuse b s) id (set_priv p x) = isValidReuseStream s id x.
Proof. done. Qed.

Lemma Stream_new_set_priv id d p x : Stream_new id d (set_priv p x) = Stream_new id d x.
Proof. done. Qed.

Lemma set_priv_set_priv p q x : set_priv p (set_priv q x) = set_priv p x.
Proof. done. Qed.

Lemma set_priv_id x : set_priv (priv x) x = x.
Proof. by destruct x. Qed.

Lemma reuseStream_inv d st p st1 :
  reuseStream d st = Some (p, st1) →
  ∃ x a s, descs st !! d = Some x ∧ priv x = Some a ∧ heap st !! a = Some s ∧
    if isValidReuseStream s (mId (cam st)) x
    then p = Some a ∧ st1 = with_heap (alter (set_mReuse true) a (heap st)) st
    else p = None ∧ st1 = st.
Proof.
  unfold reuseStream. intros Hrun.
  bind_step Hrun c st2 Hc. apply get_cam_inv in Hc as [-> ->].
  bind_step Hrun x st2 Hx. apply load_desc_inv in Hx as [Hx ->].
  destruct (priv x) as [a|] eqn:Hp; [|done].
  bind_step Hrun s st2 Hs. apply load_stream_inv in Hs as [Hs ->].
  exists x, a, s. repeat split; [done..|].
  destruct (isValidReuseStream s (mId (cam st)) x); simpl in Hrun.
  - bind_step Hrun v st2 Hu. apply update_stream_inv in Hu as [_ ->].
    by ret_step Hrun.
  - by ret_step Hrun.
Qed.

Lemma reuseStream_Some d st x a s :
  descs st !! d = Some x → priv x = Some a → heap st !! a = Some s →
  reuseStream d st =
  Some (if isValidReuseStream s (mId (cam st)) x
        then (Some a, with_heap (alter (set_mReuse true) a (heap st)) st)
        else (None, st)).
Proof.
  intros Hx Hp Hs. unfold reuseStream.
  rewrite (bind_Some _ _ _ (cam st) st) by done.
  rewrite (bind_Some _ _ _ _ _ (load_desc_Some _ _ _ Hx)). rewrite Hp.
  rewrite (bind_Some _ _ _ _ _ (load_stream_Some _ _ _ Hs)).
  destruct (isValidReuseStream s (mId (cam st)) x); simpl; [|done].
  by rewrite (bind_Some _ _ _ _ _ (update_stream_Some _ _ _ _ Hs)).
Qed.

Lemma reuseStream_ok d st x a s :
  descs st !! d = Some x → priv x = Some a → heap st !! a = Some s →
  isValidReuseStream s (mId (cam st)) x = true →
  reuseStream d st =
  Some (Some a, with_heap (alter (set_mReuse true) a (heap st)) st).
Proof. intros Hx Hp Hs Hv. by rewrite (reuseStream_Some _ _ _ _ _ Hx Hp Hs), Hv. Qed.

Lemma reuseStream_mismatch d st x a s :
  descs st !! d = Some x → priv x = Some a → heap st !! a = Some s →
  isValidReuseStream s (mId (cam st)) x = false →
  reuseStream d st = Some (None, st).
Proof. intros Hx Hp Hs Hv. by rewrite (reuseStream_Some _ _ _ _ _ Hx Hp Hs), Hv. Qed.

Lemma candidates_cons_result a r : candidates (cons_result a r) = a :: candidates r.
Proof. by destruct r. Qed.

Lemma processed_cons_result d l a r :
  processed (d :: l) (cons_result a r) = d :: processed l r.
Proof. unfold processed. by rewrite candidates_cons_result. Qed.

Lemma processed_subseteq l r d : d ∈ processed l r → d ∈ l.
Proof. unfold processed. apply subseteq_take. Qed.

Lemma on_cons_ne {X} b l (f : X → X) a x : a ≠ b → on (b :: l) f a x = on l f a x.
Proof.
  intros Hne. unfold on. destruct (decide (a ∈ l)) as [Hin|Hin].
  - rewrite decide_True; [done|]. by right.
  - rewrite decide_False; [done|]. by apply not_elem_of_cons.
Qed.

(** The loop over no descriptor, and the loop that fails at once. *)
Lemma fill_post_refl st l r :
  candidates r = [] → fill_shape l r → fill_post [] st l r st.
Proof.
  intros Hc Hshape. split; unfold processed; rewrite ?Hc; simpl.
  - done.
  - done.
  - rewrite take_0. constructor.
  - intros a s Hs. by rewrite !on_nil.
  - done.
  - constructor.
  - intros d x Hx. exists (priv x). by rewrite set_priv_id.
  - done.
  - intros i d a _ Ha. by rewrite lookup_nil in Ha.
Qed.

(** The state after one iteration agrees with the state before it on
    everything the remaining iterations depend on. *)

Lemma step_cam st d x a0 st_a
    (Hx : descs st !! d = Some x) (Hstep : fill_step st d x a0 st_a) :
  cam st_a = cam st.
Proof. by destruct Hstep. Qed.

Lemma step_descs st d x a0 st_a
    (Hx : descs st !! d = Some x) (Hstep : fill_step st d x a0 st_a) d' :
  descs st_a !! d' = on [d] (set_priv (Some a0)) d' <$> descs st !! d'.
Proof. destruct Hstep as (_ & -> & _). apply lookup_alter_on. Qed.

Lemma step_heap_old st d x a0 st_a
    (Hx : descs st !! d = Some x) (Hstep : fill_step st d x a0 st_a) a s :
  heap st !! a = Some s →
  heap st_a !! a =
  Some (if decide (max_buffers x > 0) then on [a0] (set_mReuse true) a s else s).
Proof.
  intros Hs. destruct Hstep as (_ & _ & Hcase). case_decide.
  - destruct Hcase as (_ & _ & ->). by rewrite lookup_alter_on, Hs.
  - destruct Hcase as (Hfree & ->). rewrite lookup_insert_ne; [done|]. congruence.
Qed.

Lemma step_heap_None st d x a0 st_a
    (Hx : descs st !! d = Some x) (Hstep : fill_step st d x a0 st_a) a :
  heap st_a !! a = None → heap st !! a = None.
Proof.
  destruct Hstep as (_ & _ & Hcase). case_decide.
  - destruct Hcase as (_ & _ & ->). rewrite lookup_alter_on.
    by destruct (heap st !! a).
  - destruct Hcase as (Hfree & ->). rewrite lookup_insert.
    by case_decide.
Qed.

Lemma step_heap_new st d x a0 st_a
    (Hx : descs st !! d = Some x) (Hstep : fill_step st d x a0 st_a) a :
  heap st !! a = None → a ≠ a0 → heap st_a !! a = None.
Proof.
  intros Ha Hne. destruct Hstep as (_ & _ & Hcase). case_decide.
  - destruct Hcase as (_ & _ & ->). by rewrite lookup_alter_on, Ha.
  - destruct Hcase as (_ & ->). by rewrite lookup_insert_ne.
Qed.

Lemma step_heap_a0 st d x a0 st_a
    (Hx : descs st !! d = Some x) (Hstep : fill_step st d x a0 st_a) :
  ¬ max_buffers x > 0 →
  heap st !! a0 = None ∧
  heap st_a !! a0 = Some (Stream_new (mId (cam st)) d x).
Proof.
  intros Hfresh. destruct Hstep as (_ & _ & Hcase).
  rewrite decide_False in Hcase by done.
  destruct Hcase as (Hfree & ->). by rewrite lookup_insert_eq.
Qed.

Lemma step_reuse st d x a0 st_a
    (Hx : descs st !! d = Some x) (Hstep : fill_step st d x a0 st_a) :
  max_buffers x > 0 →
  priv x = Some a0 ∧
  ∃ s, heap st !! a0 = Some s ∧ isValidReuseStream s (mId (cam st)) x = true.
Proof.
  intros Hre. destruct Hstep as (_ & _ & Hcase).
  rewrite decide_True in Hcase by done. by destruct Hcase as (? & ? & _).
Qed.

(** A descriptor seen after the step, traced back to the state before. *)
Lemma step_desc_back st d x a0 st_a
    (Hx : descs st !! d = Some x) (Hstep : fill_step st d x a0 st_a) d' x_a :
  descs st_a !! d' = Some x_a →
  ∃ x', descs st !! d' = Some x' ∧ max_buffers x_a = max_buffers x' ∧
        stream_type x_a = stream_type x' ∧ width x_a = width x' ∧
        height x_a = height x' ∧ format x_a = format x' ∧
        (max_buffers x' > 0 → priv x_a = priv x').
Proof.
  rewrite (step_descs _ _ _ _ _ Hx Hstep).
  destruct (descs st !! d') as [x'|] eqn:Hx'; [|done].
  simpl. intros [= <-]. exists x'. split; [done|].
  unfold on. case_decide as Hin; [|done]. simpl.
  repeat split. intros Hre.
  apply list_elem_of_singleton in Hin. subst d'. simplify_eq.
  by destruct (step_reuse _ _ _ _ _ Hx Hstep Hre) as [-> _].
Qed.

Lemma step_reuse_live st d x a0 st_a
    (Hx : descs st !! d = Some x) (Hstep : fill_step st d x a0 st_a) l :
  reuse_live st l → reuse_live st_a l.
Proof.
  intros Hlive d' x_a a Hin Hxa Hre Hp.
  destruct (step_desc_back _ _ _ _ _ Hx Hstep _ _ Hxa)
    as (x' & Hx' & Hmax & _ & _ & _ & _ & Hpriv).
  rewrite Hmax in Hre. rewrite (Hpriv Hre) in Hp.
  destruct (Hlive _ _ _ Hin Hx' Hre Hp) as [s Hs].
  unfold live. rewrite (step_heap_old _ _ _ _ _ Hx Hstep _ _ Hs). eauto.
Qed.

Lemma step_request_ok st d x a0 st_a
    (Hx : descs st !! d = Some x) (Hstep : fill_step st d x a0 st_a) l :
  request_ok st l → request_ok st_a l.
Proof.
  intros Hok d' Hin. destruct (Hok d' Hin) as (x' & Hx' & Hre).
  pose proof (step_descs _ _ _ _ _ Hx Hstep d') as Hd. rewrite Hx' in Hd. simpl in Hd.
  eexists. split; [exact Hd|].
  assert (max_buffers (on [d] (set_priv (Some a0)) d' x') = max_buffers x') as Hmax.
  { unfold on. by case_decide. }
  rewrite Hmax. intros Hpos. destruct (Hre Hpos) as (a & s & Hp & Hs & Hv).
  exists a. eexists. split; [|split; [apply (step_heap_old _ _ _ _ _ Hx Hstep _ _ Hs)|]].
  - unfold on. case_decide as Hin'; [|done]. simpl.
    apply list_elem_of_singleton in Hin'. subst d'. simplify_eq.
    by destruct (step_reuse _ _ _ _ _ Hx Hstep Hpos) as [<- _].
  - rewrite (step_cam _ _ _ _ _ Hx Hstep). unfold on.
    repeat case_decide; by rewrite ?isValidReuseStream_frame.
Qed.



(** A candidate of the remaining iterations is never the Stream that a
    fresh descriptor has just been given. *)
Lemma step_fresh_not_later st d x a0 st_a l r st' :
  descs st !! d = Some x →
  fill_step st d x a0 st_a →
  ¬ max_buffers x > 0 →
  reuse_live st l →
  Forall2 (fill_slot st_a st') (processed l r) (candidates r) →
  a0 ∉ candidates r.
Proof.
  intros Hx Hstep Hfresh Hlive Hslots Hin.
  destruct (step_heap_a0 _ _ _ _ _ Hx Hstep Hfresh) as [Hfree Hnew].
  apply list_elem_of_lookup in Hin as [i Hi].
  destruct (Forall2_lookup_r _ _ _ _ _ Hslots Hi) as (d' & Hd' & xa & Hxa & Hcase).
  case_decide as Hre.
  - destruct Hcase as (Hp & _).
    destruct (step_desc_back _ _ _ _ _ Hx Hstep _ _ Hxa)
      as (x' & Hx' & Hmax & _ & _ & _ & _ & Hpriv).
    rewrite Hmax in Hre. rewrite (Hpriv Hre) in Hp.
    assert (d' ∈ l) as Hdl.
    { eapply processed_subseteq, list_elem_of_lookup_2, Hd'. }
    destruct (Hlive _ _ _ Hdl Hx' Hre Hp) as [s Hs]. congruence.
  - destruct Hcase as (Hnone & _). congruence.
Qed.

Lemma fill_slot_back st d x a0 st_a st' l d' a :
  descs st !! d = Some x →
  fill_step st d x a0 st_a →
  reuse_live st l → d' ∈ l →
  fill_slot st_a st' d' a → fill_slot st st' d' a.
Proof.
  intros Hx Hstep Hlive Hdl (xa & Hxa & Hcase).
  destruct (step_desc_back _ _ _ _ _ Hx Hstep _ _ Hxa)
    as (x' & Hx' & Hmax & Hty & Hw & Hh & Hf & Hpriv).
  exists x'. split; [done|]. rewrite Hmax in Hcase.
  rewrite (step_cam _ _ _ _ _ Hx Hstep) in Hcase.
  case_decide as Hre.
  - destruct Hcase as (Hp & sa & Hsa & Hv). rewrite (Hpriv Hre) in Hp.
    split; [done|].
    destruct (Hlive _ _ _ Hdl Hx' Hre Hp) as [s Hs]. exists s. split; [done|].
    rewrite (step_heap_old _ _ _ _ _ Hx Hstep _ _ Hs) in Hsa.
    injection Hsa as <-. rewrite <- Hv.
    unfold isValidReuseStream. rewrite Hty, Hw, Hh, Hf.
    unfold on. by repeat case_decide.
  - destruct Hcase as (Hnone & Hnew). split.
    + by apply (step_heap_None _ _ _ _ _ Hx Hstep).
    + rewrite Hnew. f_equal. unfold Stream_new. by rewrite Hty, Hw, Hh, Hf.
Qed.

Lemma fill_post_cons st d x a0 st_a l r st' :
  descs st !! d = Some x →
  fill_step st d x a0 st_a →
  reuse_live st (d :: l) →
  fill_post [] st_a l r st' →
  fill_post [] st (d :: l) (cons_result a0 r) st'.
Proof.
  intros Hx Hstep Hlive [Hcam Hshape Hslots Hold0 Hnew Hnd Hdescs Hdom Htags].
  assert (∀ a s, heap st_a !! a = Some s →
                 heap st' !! a = Some (on (candidates r) (set_mReuse true) a s))
    as Hold.
  { intros a s Hs. rewrite (Hold0 _ _ Hs). by rewrite (on_nil (set_mReuse false)). }
  assert (reuse_live st l) as Hlive'.
  { intros d' x' a Hin. apply Hlive. by right. }
  assert (¬ max_buffers x > 0 → a0 ∉ candidates r) as Hlater.
  { intros Hfresh. by eapply step_fresh_not_later. }
  split; rewrite ?candidates_cons_result, ?processed_cons_result.
  - by rewrite Hcam, (step_cam _ _ _ _ _ Hx Hstep).
  - destruct r as [c|arr]; simpl in *; [by f_equal|].
    destruct Hshape as (c & m & -> & Hlen).
    exists (a0 :: c), m. split; [done|]. simpl. lia.
  - constructor.
    + exists x. split; [done|]. case_decide as Hre.
      * by apply (step_reuse _ _ _ _ _ Hx Hstep).
      * destruct (step_heap_a0 _ _ _ _ _ Hx Hstep Hre) as [Hfree Ha0].
        split; [done|]. rewrite (Hold _ _ Ha0).
        by rewrite on_not_elem by auto.
    + eapply Forall2_impl_elem; [exact Hslots|].
      intros d' a Hd' _. eapply fill_slot_back; [done..|].
      by eapply processed_subseteq.
  - intros a s Hs. rewrite (Hold _ _ (step_heap_old _ _ _ _ _ Hx Hstep _ _ Hs)).
    rewrite (on_nil (set_mReuse false)). f_equal. case_decide as Hre.
    + by rewrite on_cons.
    + destruct (step_heap_a0 _ _ _ _ _ Hx Hstep Hre) as [Hfree _].
      rewrite on_cons_ne; [done|]. congruence.
  - intros a Ha [Hne Hin]%not_elem_of_cons.
    apply Hnew; [|done]. by apply (step_heap_new _ _ _ _ _ Hx Hstep).
  - destruct (decide (max_buffers x > 0)) as [Hre|Hfresh].
    + destruct (step_reuse _ _ _ _ _ Hx Hstep Hre) as (_ & s & Hs & _).
      rewrite filter_cons_False by congruence.
      erewrite filter_ext_elem; [exact Hnd|].
      intros a _. simpl. split; intros Ha.
      * destruct (heap st_a !! a) as [sa|] eqn:Hsa; [|done].
        exfalso. by rewrite (step_heap_new _ _ _ _ _ Hx Hstep _ Ha) in Hsa
          by (intros ->; congruence).
      * by apply (step_heap_None _ _ _ _ _ Hx Hstep).
    + destruct (step_heap_a0 _ _ _ _ _ Hx Hstep Hfresh) as [Hfree Ha0].
      rewrite filter_cons_True by done.
      apply NoDup_cons. split.
      * rewrite list_elem_of_filter. intros [_ Hin]. by apply Hlater.
      * erewrite filter_ext_elem; [exact Hnd|].
        intros a Hin. simpl. split; intros Ha.
        -- apply (step_heap_new _ _ _ _ _ Hx Hstep _ Ha). intros ->. by apply Hlater.
        -- by apply (step_heap_None _ _ _ _ _ Hx Hstep).
  - intros d' x' Hx'.
    pose proof (step_descs _ _ _ _ _ Hx Hstep d') as Hd'. rewrite Hx' in Hd'.
    simpl in Hd'. destruct (Hdescs _ _ Hd') as (p & Hp & Hout & Hre).
    exists p. split; [|split].
    + rewrite Hp. f_equal. unfold on. by case_decide.
    + intros [Hne Hin]%not_elem_of_cons. rewrite (Hout Hin).
      rewrite on_not_elem; [done|]. by rewrite list_elem_of_singleton.
    + intros Hpos. rewrite Hre by (unfold on; by case_decide).
      unfold on. case_decide as Hin; [|done]. simpl.
      apply list_elem_of_singleton in Hin. subst d'. simplify_eq.
      by destruct (step_reuse _ _ _ _ _ Hx Hstep Hpos) as [-> _].
  - intros d' Hd'. apply Hdom.
    by rewrite (step_descs _ _ _ _ _ Hx Hstep), Hd'.
  - intros [|i] d' a Hd' Ha Hlast; simpl in *.
    + simplify_eq.
      pose proof (step_descs _ _ _ _ _ Hx Hstep d') as Hd'. rewrite Hx in Hd'.
      simpl in Hd'. destruct (Hdescs _ _ Hd') as (p & Hp & Hout & _).
      eexists. split; [exact Hp|]. simpl. rewrite Hout by done.
      rewrite on_elem; [done|]. by apply list_elem_of_singleton.
    + by eapply Htags.
Qed.

(** The loop, one iteration at a time. *)
Lemma fill_cons_eq d l st :
  fillStreams (d :: l) st =
  match fill_iteration d st with
  | Some (Some a, st_a) => (fillStreams l ≫= λ r, mret (cons_result a r)) st_a
  | Some (None, st1) =>
      Some (Aborted (Val None :: replicate (length l) Indeterminate), st1)
  | None => None
  end.
Proof.
  cbn [fillStreams]. unfold fill_iteration, mbind, M_bind, get_cam, mret, M_ret.
  destruct (load_desc d st) as [[x st0]|]; [|done].
  destruct (decide (max_buffers x > 0)).
  - destruct (reuseStream d st0) as [[[a|] st1]|]; [|done..].
    destruct (update_desc d (set_priv (Some a)) st1) as [[[] st_a]|]; [|done].
    destruct (fillStreams l st_a) as [[[c|arr] st2]|]; done.
  - destruct (new_stream (Stream_new (mId (cam st)) d x) st0) as [[a st1]|]; [|done].
    destruct (update_desc d (set_priv (Some a)) st1) as [[[] st_a]|]; [|done].
    destruct (fillStreams l st_a) as [[[c|arr] st2]|]; done.
Qed.

Lemma fill_iteration_inv d st p st1 :
  fill_iteration d st = Some (p, st1) →
  ∃ x, descs st !! d = Some x ∧
    match p with
    | Some a => fill_step st d x a st1
    | None =>
        st1 = st ∧ max_buffers x > 0 ∧
        ∃ a s, priv x = Some a ∧ heap st !! a = Some s ∧
               isValidReuseStream s (mId (cam st)) x = false
    end.
Proof.
  unfold fill_iteration. intros Hrun.
  bind_step Hrun c st2 Hc. apply get_cam_inv in Hc as [-> ->].
  bind_step Hrun x st2 Hx. apply load_desc_inv in Hx as [Hx ->].
  exists x. split; [done|].
  bind_step Hrun q st2 Hq.
  destruct (decide (max_buffers x > 0)) as [Hre|Hfresh].
  - apply reuseStream_inv in Hq as (x' & a & s & Hx' & Hp & Hs & Hcase).
    simplify_eq.
    destruct (isValidReuseStream s (mId (cam st)) x) eqn:Hv.
    + destruct Hcase as [-> ->].
      bind_step Hrun v st3 Hu. apply update_desc_inv in Hu as [_ ->].
      ret_step Hrun. unfold fill_step. simpl. repeat split.
      rewrite decide_True by done. eauto 10.
    + destruct Hcase as [-> ->]. ret_step Hrun. eauto 10.
  - bind_step Hq a st3 Hn. apply new_stream_inv in Hn as [Hfree ->].
    ret_step Hq.
    bind_step Hrun v st3 Hu. apply update_desc_inv in Hu as [_ ->].
    ret_step Hrun. unfold fill_step. simpl. repeat split.
    by rewrite decide_False by done.
Qed.

Lemma fill_iteration_ok d st x :
  descs st !! d = Some x →
  (max_buffers x > 0 →
   ∃ a s, priv x = Some a ∧ heap st !! a = Some s ∧
          isValidReuseStream s (mId (cam st)) x = true) →
  ∃ a st_a, fill_iteration d st = Some (Some a, st_a).
Proof.
  intros Hx Hok. unfold fill_iteration.
  rewrite (bind_Some _ _ _ (cam st) st) by done.
  rewrite (bind_Some _ _ _ _ _ (load_desc_Some _ _ _ Hx)).
  destruct (decide (max_buffers x > 0)) as [Hre|Hfresh].
  - destruct (Hok Hre) as (a & s & Hp & Hs & Hv).
    rewrite (bind_Some _ _ _ _ _ (reuseStream_ok _ _ _ _ _ Hx Hp Hs Hv)).
    erewrite (bind_Some (update_desc _ _)) by (by eapply update_desc_Some).
    by eexists _, _.
  - erewrite (bind_Some (new_stream _ ≫= _)).
    2:{ by erewrite (bind_Some (new_stream _)) by done. }
    cbv beta iota.
    erewrite (bind_Some (update_desc _ _)) by (by eapply update_desc_Some).
    by eexists _, _.
Qed.

Lemma fill_iteration_mismatch d st x a s :
  descs st !! d = Some x → max_buffers x > 0 → priv x = Some a →
  heap st !! a = Some s → isValidReuseStream s (mId (cam st)) x = false →
  fill_iteration d st = Some (None, st).
Proof.
  intros Hx Hre Hp Hs Hv. unfold fill_iteration.
  rewrite (bind_Some _ _ _ (cam st) st) by done.
  rewrite (bind_Some _ _ _ _ _ (load_desc_Some _ _ _ Hx)).
  rewrite decide_True by done.
  by rewrite (bind_Some _ _ _ _ _ (reuseStream_mismatch _ _ _ _ _ Hx Hp Hs Hv)).
Qed.

(** What the fill loop leaves behind, from a run with a defined result. *)
Lemma fill_inv l st r st' :
  fillStreams l st = Some (r, st') →
  reuse_live st l →
  fill_post [] st l r st'.
Proof.
  revert st r. induction l as [|d l IH]; intros st r Hrun Hlive.
  - simpl in Hrun. ret_step Hrun. by apply fill_post_refl.
  - rewrite fill_cons_eq in Hrun.
    destruct (fill_iteration d st) as [[[a|] st_a]|] eqn:Hit; [| |done].
    + apply fill_iteration_inv in Hit as (x & Hx & Hstep).
      bind_step Hrun r' st2 Hrest. ret_step Hrun.
      eapply fill_post_cons; [done..|].
      apply IH; [done|].
      apply (step_reuse_live _ _ _ _ _ Hx Hstep).
      intros d' x' a' Hin. apply Hlive. by right.
    + simplify_eq. apply fill_iteration_inv in Hit as (x & Hx & -> & _).
      apply fill_post_refl; [by rewrite <- (entries_replicate (length l))|].
      exists [], (length l). by split.
Qed.

(** The loop stores every candidate when every descriptor is acceptable. *)
Lemma fill_defined l st :
  request_ok st l →
  ∃ newStreams st', fillStreams l st = Some (Filled newStreams, st').
Proof.
  revert st. induction l as [|d l IH]; intros st Hok.
  - by eexists _, _.
  - destruct (Hok d) as (x & Hx & Hre); [by left|].
    destruct (fill_iteration_ok _ _ _ Hx Hre) as (a & st_a & Hit).
    rewrite fill_cons_eq, Hit.
    apply fill_iteration_inv in Hit as (x' & Hx' & Hstep). simplify_eq.
    destruct (IH st_a) as (c & st' & Hrest).
    { apply (step_request_ok _ _ _ _ _ Hx Hstep).
      intros d' Hin. apply Hok. by right. }
    rewrite (bind_Some _ _ _ _ _ Hrest). by eexists _, _.
Qed.

Lemma request_ok_reuse_live st l : request_ok st l → reuse_live st l.
Proof.
  intros Hok d x a Hin Hx Hre Hp.
  destruct (Hok d Hin) as (x' & Hx' & Hcase). simplify_eq.
  destruct (Hcase Hre) as (a' & s & Hp' & Hs & _). simplify_eq. by exists s.
Qed.

Lemma fill_app l1 l2 st :
  fillStreams (l1 ++ l2) st =
  match fillStreams l1 st with
  | Some (Filled c1, st1) => (fillStreams l2 ≫= λ r, mret (app_result c1 r)) st1
  | Some (Aborted arr, st1) =>
      Some (Aborted (arr ++ replicate (length l2) Indeterminate), st1)
  | None => None
  end.
Proof.
  revert st. induction l1 as [|d l1 IH]; intros st.
  - simpl. unfold mbind, M_bind.
    destruct (fillStreams l2 st) as [[[c|arr] st1]|]; done.
  - rewrite <- app_comm_cons, !fill_cons_eq.
    destruct (fill_iteration d st) as [[[a|] st_a]|]; [| |done].
    + unfold mbind, M_bind. rewrite IH.
      destruct (fillStreams l1 st_a) as [[[c1|arr] st1]|]; simpl; [| |done].
      * unfold mbind, M_bind.
        destruct (fillStreams l2 st1) as [[[c2|arr2] st2]|]; done.
      * done.
    + by rewrite length_app, replicate_add.
Qed.

Lemma request_ok_nil st : request_ok st [].
Proof. intros d Hin. by apply not_elem_of_nil in Hin. Qed.

Lemma request_ok_cons st d l x :
  descs st !! d = Some x →
  (max_buffers x > 0 →
   ∃ a s, priv x = Some a ∧ heap st !! a = Some s ∧
          isValidReuseStream s (mId (cam st)) x = true) →
  request_ok st l → request_ok st (d :: l).
Proof.
  intros Hx Hre Hok d' [->|Hin]%elem_of_cons; [|by apply Hok].
  by exists x.
Qed.

Lemma reuse_live_nil st : reuse_live st [].
Proof. intros d x a Hin. by apply not_elem_of_nil in Hin. Qed.

Lemma reuse_live_cons st d l x :
  descs st !! d = Some x →
  (max_buffers x > 0 → ∃ a, priv x = Some a ∧ live st a) →
  reuse_live st l → reuse_live st (d :: l).
Proof.
  intros Hx Hre Hlive d' x' a' [->|Hin]%elem_of_cons Hx' Hpos Hp.
  - simplify_eq. destruct (Hre Hpos) as (a & Hp' & Ha). congruence.
  - by eapply Hlive.
Qed.

(** ** configureStreams, step by step *)

Lemma fill_length l st r st' :
  fillStreams l st = Some (r, st') → length (slots_of r) = length l.
Proof.
  revert st r. induction l as [|d l IH]; intros st r Hrun.
  - simpl in Hrun. by ret_step Hrun.
  - rewrite fill_cons_eq in Hrun.
    destruct (fill_iteration d st) as [[[a|] st_a]|]; [| |done].
    + bind_step Hrun r' st2 Hrest. ret_step Hrun.
      apply IH in Hrest. destruct r'; simpl in *; by f_equal.
    + simplify_eq. simpl. by rewrite length_replicate.
Qed.

Lemma current_stored c :
  take (mNumStreams c) (stored <$> default [] (mStreams c)) = stored <$> current c.
Proof. unfold current. by rewrite fmap_take. Qed.

Section ConfigureSteps.
Context `{GrallocUsage}.

Lemma err_out_eq arr st :
  err_out arr (length arr) st =
  (for_each destroy_one arr ≫= λ _, mret (- EINVAL)) st.
Proof.
  unfold err_out, destroyStreams.
  unfold mbind at 1 3. unfold M_bind at 1 3.
  rewrite (bind_Some _ _ _ _ _ (array_prefix_Some arr _ st (le_n _))).
  by rewrite firstn_all.
Qed.

Lemma destroy_current_eq c st :
  (mNumStreams c ≤ length (default [] (mStreams c)))%nat →
  destroyStreams (fmap (M:=list) stored <$> mStreams c) (mNumStreams c) st =
  for_each destroy_one (stored <$> current c) st.
Proof.
  intros Hle. unfold destroyStreams, current.
  destruct (mStreams c) as [arr|]; simpl in *.
  - rewrite (bind_Some _ _ _ (take (mNumStreams c) (stored <$> arr)) st).
    + by rewrite fmap_take.
    + apply array_prefix_Some. by rewrite length_fmap.
  - by rewrite take_nil.
Qed.

(** A call with a non-empty list, split at the fill loop. *)
Lemma configure_eq cfg st st1 r st2 :
  streams cfg ≠ [] →
  (mNumStreams (cam st) ≤ length (default [] (mStreams (cam st))))%nat →
  for_each (λ a, update_stream a (set_mReuse false)) (current (cam st)) st
    = Some (tt, st1) →
  fillStreams (streams cfg) st1 = Some (r, st2) →
  configureStreams (Some cfg) st =
  match r with
  | Aborted arr => (for_each destroy_one arr ≫= λ _, mret (- EINVAL)) st2
  | Filled c =>
      match isValidStreamSet (Some c) (length c) st2 with
      | Some (true, st3) =>
          (for_each setup_one c;;
           for_each destroy_one (stored <$> current (cam st));;
           put_cam (commit (cam st) c);;
           mret 0) st3
      | Some (false, st3) =>
          (for_each destroy_one (stored <$> c) ≫= λ _, mret (- EINVAL)) st3
      | None => None
      end
  end.
Proof.
  intros Hne Hle Hclear Hfill. unfold configureStreams.
  rewrite decide_False by (unfold num_streams; by destruct (streams cfg)).
  rewrite (bind_Some _ _ _ (cam st) st) by done.
  rewrite (bind_Some _ _ _ _ _ (array_prefix_Some _ _ st Hle)).
  fold (current (cam st)).
  rewrite (bind_Some _ _ _ _ _ Hclear).
  rewrite (bind_Some _ _ _ _ _ Hfill).
  pose proof (fill_length _ _ _ _ Hfill) as Hlen. unfold num_streams.
  destruct r as [c|arr]; simpl in Hlen.
  - rewrite length_fmap in Hlen. rewrite <- Hlen.
    unfold mbind, M_bind, setupStreams, mret, M_ret, put_cam.
    destruct (isValidStreamSet (Some c) (length c) st2) as [[[] st3]|]; [| |done].
    + cbn [negb]. cbv beta iota. unfold mbind, M_bind.
      rewrite (array_prefix_Some c (length c) st3 (le_n _)), firstn_all.
      destruct (for_each setup_one c st3) as [[[] st4]|]; [|done].
      rewrite destroy_current_eq by done.
      destruct (for_each destroy_one (stored <$> current (cam st)) st4)
        as [[[] st5]|]; done.
    + cbn [negb]. cbv beta iota.
      rewrite <- (length_fmap stored c). by rewrite err_out_eq.
  - rewrite <- Hlen. by rewrite err_out_eq.
Qed.

(** A call with a defined result, split into its steps. *)
Lemma configure_inv cfg st z st' :
  configureStreams (Some cfg) st = Some (z, st') →
  streams cfg ≠ [] →
  (mNumStreams (cam st) ≤ length (default [] (mStreams (cam st))))%nat ∧
  ∃ st1 r st2,
    for_each (λ a, update_stream a (set_mReuse false)) (current (cam st)) st
      = Some (tt, st1) ∧
    fillStreams (streams cfg) st1 = Some (r, st2).
Proof.
  intros Hrun Hne. unfold configureStreams in Hrun.
  rewrite decide_False in Hrun by (unfold num_streams; by destruct (streams cfg)).
  bind_step Hrun c st0 Hc. apply get_cam_inv in Hc as [-> ->].
  bind_step Hrun cur st0 Hcur. apply array_prefix_inv in Hcur as (Hle & -> & ->).
  bind_step Hrun v st1 Hclear. destruct v.
  bind_step Hrun r st2 Hfill.
  split; [done|]. by exists st1, r, st2.
Qed.

End ConfigureSteps.

(** ** The two loops before validation *)

Lemma clear_cleared cur st u st1 :
  for_each (λ a, update_stream a (set_mReuse false)) cur st = Some (u, st1) →
  cleared cur st st1 ∧ Forall (live st) cur.
Proof. intros (Hc & Hd & Hl & Hh)%clear_inv. by repeat split. Qed.

Lemma cleared_None cur st st1 a :
  cleared cur st st1 → heap st1 !! a = None ↔ heap st !! a = None.
Proof.
  intros (_ & _ & Hh). rewrite Hh. by destruct (heap st !! a).
Qed.

Lemma isValidReuseStream_unmark cur a s id x :
  isValidReuseStream (on cur (set_mReuse false) a s) id x = isValidReuseStream s id x.
Proof. unfold on. by case_decide. Qed.

Lemma reuse_live_cleared cur st st1 l :
  cleared cur st st1 → reuse_live st l → reuse_live st1 l.
Proof.
  intros (Hc & Hd & Hh) Hlive d x a Hin Hx Hre Hp. rewrite Hd in Hx.
  destruct (Hlive _ _ _ Hin Hx Hre Hp) as [s Hs].
  unfold live. rewrite Hh, Hs. eauto.
Qed.

Lemma request_ok_cleared cur st st1 l :
  cleared cur st st1 → request_ok st l → request_ok st1 l.
Proof.
  intros (Hc & Hd & Hh) Hok d Hin. destruct (Hok d Hin) as (x & Hx & Hre).
  exists x. rewrite Hd. split; [done|]. intros Hpos.
  destruct (Hre Hpos) as (a & s & Hp & Hs & Hv).
  exists a, (on cur (set_mReuse false) a s). split; [done|].
  split; [by rewrite Hh, Hs|].
  by rewrite Hc, isValidReuseStream_unmark.
Qed.

Lemma fill_post_cleared cur st st1 l r st2 :
  cleared cur st st1 →
  fill_post [] st1 l r st2 → fill_post cur st l r st2.
Proof.
  intros Hcl [Hcam Hshape Hslots Hold Hnew Hnd Hdescs Hdom Htags].
  pose proof Hcl as (Hc & Hd & Hh).
  split.
  - by rewrite Hcam.
  - done.
  - eapply Forall2_impl; [exact Hslots|].
    intros d a (x & Hx & Hcase). exists x. rewrite <- Hd. split; [done|].
    rewrite Hc in Hcase. case_decide.
    + destruct Hcase as (Hp & s1 & Hs1 & Hv). split; [done|].
      rewrite Hh in Hs1. destruct (heap st !! a) as [s|]; [|done].
      simpl in Hs1. injection Hs1 as <-. exists s. split; [done|].
      by rewrite isValidReuseStream_unmark in Hv.
    + destruct Hcase as (Hnone & Hnew'). split; [|done].
      by apply (cleared_None _ _ _ _ Hcl).
  - intros a s Hs. rewrite (Hold a (on cur (set_mReuse false) a s)).
    + by rewrite (on_nil (set_mReuse false)).
    + by rewrite Hh, Hs.
  - intros a Ha Hin. apply Hnew; [|done]. by apply (cleared_None _ _ _ _ Hcl).
  - erewrite list_filter_iff; [exact Hnd|].
    intros a. simpl. symmetry. apply (cleared_None _ _ _ _ Hcl).
  - intros d x Hx. apply Hdescs. by rewrite Hd.
  - intros d Hx. apply Hdom. by rewrite Hd.
  - done.
Qed.

(** Where a call stands when its fill loop has ended. *)
Lemma prefix_inv cur st st1 l r st2 :
  for_each (λ a, update_stream a (set_mReuse false)) cur st = Some (tt, st1) →
  fillStreams l st1 = Some (r, st2) →
  reuse_live st l →
  fill_post cur st l r st2 ∧ Forall (live st) cur.
Proof.
  intros [Hcl Hlive]%clear_cleared Hfill Hre. split; [|done].
  eapply fill_post_cleared; [done|].
  apply fill_inv; [done|]. by eapply reuse_live_cleared.
Qed.

Lemma prefix_defined cur st l :
  Forall (live st) cur →
  request_ok st l →
  ∃ st1 c st2,
    for_each (λ a, update_stream a (set_mReuse false)) cur st = Some (tt, st1) ∧
    fillStreams l st1 = Some (Filled c, st2).
Proof.
  intros Hlive Hok. destruct (clear_defined _ _ Hlive) as [st1 Hclear].
  pose proof (clear_cleared _ _ _ _ Hclear) as [Hcl _].
  destruct (fill_defined l st1) as (c & st2 & Hfill).
  { by eapply request_ok_cleared. }
  by exists st1, c, st2.
Qed.

(** ** The candidates of a completed fill loop *)

Lemma processed_Filled l c :
  length c = length l → processed l (Filled c) = l.
Proof. intros Hlen. unfold processed. simpl. rewrite Hlen. apply firstn_all. Qed.

Lemma set_true_unmark cur a s :
  set_mReuse true (on cur (set_mReuse false) a s) = set_mReuse true s.
Proof. unfold on. by case_decide. Qed.

Lemma mark_unmark cur l a s :
  a ∈ l →
  on l (set_mReuse true) a (on cur (set_mReuse false) a s) = set_mReuse true s.
Proof. intros Hin. by rewrite on_elem, set_true_unmark. Qed.

(** The Stream a candidate refers to when the fill loop has ended. *)
Lemma candidate_stream cur st l r st2 i d a :
  fill_post cur st l r st2 →
  processed l r !! i = Some d → candidates r !! i = Some a →
  ∃ x, descs st !! d = Some x ∧
    if decide (max_buffers x > 0)
    then priv x = Some a ∧
         ∃ s, heap st !! a = Some s ∧
              isValidReuseStream s (mId (cam st)) x = true ∧
              heap st2 !! a = Some (set_mReuse true s)
    else heap st !! a = None ∧
         heap st2 !! a = Some (Stream_new (mId (cam st)) d x).
Proof.
  intros Hpost Hd Ha.
  destruct (Forall2_lookup_lr _ _ _ _ _ _ (fill_slots _ _ _ _ _ Hpost) Hd Ha)
    as (x & Hx & Hcase).
  exists x. split; [done|]. case_decide; [|done].
  destruct Hcase as (Hp & s & Hs & Hv). split; [done|].
  exists s. repeat split; [done..|].
  rewrite (fill_heap_old _ _ _ _ _ Hpost _ _ Hs).
  rewrite mark_unmark; [done|]. by eapply list_elem_of_lookup_2.
Qed.

Lemma candidates_live cur st l r st2 :
  fill_post cur st l r st2 → Forall (live st2) (candidates r).
Proof.
  intros Hpost. apply Forall_forall. intros a [i Ha]%list_elem_of_lookup.
  destruct (Forall2_lookup_r _ _ _ _ _ (fill_slots _ _ _ _ _ Hpost) Ha)
    as (d & Hd & _).
  destruct (candidate_stream _ _ _ _ _ _ _ _ Hpost Hd Ha) as (x & _ & Hcase).
  unfold live. case_decide.
  - destruct Hcase as (_ & s & _ & _ & ->). eauto.
  - destruct Hcase as (_ & ->). eauto.
Qed.

(** A Stream that was live at entry is a candidate only by reuse; one that
    was not is a candidate only by construction. *)
Lemma candidate_old_reused cur st l r st2 a s :
  fill_post cur st l r st2 →
  heap st !! a = Some s → a ∈ candidates r →
  heap st2 !! a = Some (set_mReuse true s).
Proof.
  intros Hpost Hs Hin. rewrite (fill_heap_old _ _ _ _ _ Hpost _ _ Hs).
  by rewrite mark_unmark.
Qed.

Lemma candidate_new_fresh cur st l r st2 a :
  fill_post cur st l r st2 →
  heap st !! a = None → a ∈ candidates r →
  ∃ s, heap st2 !! a = Some s ∧ mReuse s = false.
Proof.
  intros Hpost Hnone [i Ha]%list_elem_of_lookup.
  destruct (Forall2_lookup_r _ _ _ _ _ (fill_slots _ _ _ _ _ Hpost) Ha)
    as (d & Hd & _).
  destruct (candidate_stream _ _ _ _ _ _ _ _ Hpost Hd Ha) as (x & _ & Hcase).
  case_decide.
  - destruct Hcase as (_ & s & Hs & _). congruence.
  - destruct Hcase as (_ & ->). by eexists.
Qed.

(** ** The abort path *)

Lemma entries_slots_of r : entries (slots_of r) = candidates r.
Proof. destruct r; simpl; [apply entries_stored|done]. Qed.

Lemma abort_post cur st l r st2 u st' :
  fill_post cur st l r st2 →
  for_each destroy_one (slots_of r) st2 = Some (u, st') →
  cam st' = cam st ∧ descs st' = descs st2 ∧
  (∀ a s, heap st !! a = Some s →
          heap st' !! a =
          Some (on (candidates r) (set_mReuse true) a
                   (on cur (set_mReuse false) a s))) ∧
  (∀ a, heap st !! a = None → heap st' !! a = None) ∧
  Forall2 (rolled_back_slot st st') (processed l r) (candidates r).
Proof.
  intros Hpost (Hc & Hd & _ & Hh)%destroy_inv.
  rewrite entries_slots_of in Hh.
  assert (∀ a s, heap st !! a = Some s →
    heap st' !! a = Some (on (candidates r) (set_mReuse true) a
                             (on cur (set_mReuse false) a s))) as Hold.
  { intros a s Hs. rewrite Hh, (fill_heap_old _ _ _ _ _ Hpost _ _ Hs). simpl.
    destruct (decide (a ∈ candidates r)) as [Hin|Hin].
    - rewrite mark_unmark by done. by rewrite sweep_reused.
    - by rewrite sweep_not_elem. }
  assert (∀ a, heap st !! a = None → heap st' !! a = None) as Hnone.
  { intros a Ha. rewrite Hh.
    destruct (decide (a ∈ candidates r)) as [Hin|Hin].
    - destruct (candidate_new_fresh _ _ _ _ _ _ Hpost Ha Hin) as (s & -> & Hre).
      simpl. by rewrite sweep_elem.
    - by rewrite (fill_heap_new _ _ _ _ _ Hpost _ Ha Hin). }
  repeat split; [by rewrite Hc, (fill_cam _ _ _ _ _ Hpost)|done..|].
  eapply Forall2_impl_elem; [exact (fill_slots _ _ _ _ _ Hpost)|].
  intros d a _ Hin (x & Hx & Hcase). exists x. split; [done|].
  case_decide.
  - destruct Hcase as (Hp & s & Hs & _). split; [done|]. exists s.
    split; [done|]. rewrite (Hold _ _ Hs). by rewrite mark_unmark.
  - destruct Hcase as (Ha & _). split; [done|]. by apply Hnone.
Qed.

Lemma abort_defined cur st l r st2 :
  fill_post cur st l r st2 →
  Forall initialized (slots_of r) →
  ∃ st', for_each destroy_one (slots_of r) st2 = Some (tt, st').
Proof.
  intros Hpost Hinit. apply destroy_defined; [done|..];
    rewrite entries_slots_of.
  - by eapply candidates_live.
  - erewrite filter_ext_elem; [exact (fill_fresh_NoDup _ _ _ _ _ Hpost)|].
    intros a Hin. simpl. destruct (heap st !! a) as [s|] eqn:Hs.
    + rewrite (candidate_old_reused _ _ _ _ _ _ _ Hpost Hs Hin). simpl.
      split; congruence.
    + destruct (candidate_new_fresh _ _ _ _ _ _ Hpost Hs Hin) as (s & -> & Hre).
      simpl. by rewrite Hre.
Qed.

Lemma initialized_stored c : Forall initialized (stored <$> c).
Proof. apply Forall_fmap, Forall_forall. by intros a _. Qed.

(** ** The commit path *)

Lemma isValidReuseStream_true s id x :
  isValidReuseStream s id x = true →
  mOwnerId s = id ∧ mType s = stream_type x ∧ mWidth s = width x ∧
  mHeight s = height x ∧ mFormat s = format x.
Proof.
  unfold isValidReuseStream. rewrite !andb_true_iff, !bool_decide_eq_true.
  tauto.
Qed.

Lemma isValidReuseStream_new id d x : isValidReuseStream (Stream_new id d x) id x = true.
Proof.
  unfold isValidReuseStream, Stream_new. simpl.
  by rewrite !bool_decide_eq_true_2.
Qed.

Lemma objects_elem st l ss s :
  objects st l ss → s ∈ ss → ∃ a, a ∈ l ∧ heap st !! a = Some s.
Proof.
  induction 1 as [|b s' l ss Hb _ IH]; intros Hin.
  - by apply not_elem_of_nil in Hin.
  - apply elem_of_cons in Hin as [->|Hin].
    + exists b. split; [by left|done].
    + destruct (IH Hin) as (a & Ha & Hs). exists a. split; [by right|done].
Qed.

(** The types of the candidates are the types of their descriptors. *)
Lemma candidate_types cur st l c st2 xs ss :
  fill_post cur st l (Filled c) st2 →
  described st l xs → objects st2 c ss →
  mType <$> ss = stream_type <$> xs.
Proof.
  intros Hpost Hxs Hss.
  pose proof (fill_result_shape _ _ _ _ _ Hpost) as Hlen. simpl in Hlen.
  apply list_eq. intros i. rewrite !list_lookup_fmap.
  destruct (c !! i) as [a|] eqn:Ha.
  - destruct (Forall2_lookup_l _ _ _ _ _ Hss Ha) as (s & Hs & Has).
    assert (is_Some (l !! i)) as [d Hd].
    { apply lookup_lt_is_Some. rewrite <- Hlen. by eapply lookup_lt_Some. }
    destruct (Forall2_lookup_l _ _ _ _ _ Hxs Hd) as (x & Hx & Hdx).
    rewrite Hs, Hx. simpl. f_equal.
    assert (processed l (Filled c) !! i = Some d) as Hpd.
    { by rewrite processed_Filled. }
    destruct (candidate_stream _ _ _ _ _ _ _ _ Hpost Hpd Ha) as (x' & Hx' & Hcase).
    simplify_eq. case_decide.
    + destruct Hcase as (_ & s0 & _ & Hv & Hs2). simplify_eq.
      by destruct (isValidReuseStream_true _ _ _ Hv) as (_ & ? & _).
    + destruct Hcase as (_ & Hs2). by simplify_eq.
  - assert (ss !! i = None) as ->.
    { apply lookup_ge_None. rewrite (objects_length _ _ _ Hss).
      by apply lookup_ge_None. }
    assert (xs !! i = None) as ->; [|done].
    apply lookup_ge_None. rewrite <- (Forall2_length _ _ _ Hxs), <- Hlen.
    by apply lookup_ge_None.
Qed.

Lemma heap_ok_fill cur st l r st2 :
  fill_post cur st l r st2 → heap_ok st → heap_ok st2.
Proof.
  intros Hpost Hok a s2 Hs2.
  assert (∀ d, is_Some (descs st !! d) → is_Some (descs st2 !! d)) as Hdom.
  { intros d [x Hx]. destruct (fill_descs _ _ _ _ _ Hpost _ _ Hx) as (p & -> & _).
    eauto. }
  destruct (heap st !! a) as [s|] eqn:Hs.
  - rewrite (fill_heap_old _ _ _ _ _ Hpost _ _ Hs) in Hs2. simplify_eq.
    apply Hdom. replace (mStream _) with (mStream s); [by eapply Hok|].
    unfold on. by repeat case_decide.
  - destruct (decide (a ∈ candidates r)) as [Hin|Hin].
    2:{ rewrite (fill_heap_new _ _ _ _ _ Hpost _ Hs Hin) in Hs2. done. }
    apply list_elem_of_lookup in Hin as [i Ha].
    destruct (Forall2_lookup_r _ _ _ _ _ (fill_slots _ _ _ _ _ Hpost) Ha)
      as (d & Hd & _).
    destruct (candidate_stream _ _ _ _ _ _ _ _ Hpost Hd Ha) as (x & Hx & Hcase).
    case_decide.
    + destruct Hcase as (_ & s & Hs' & _). congruence.
    + destruct Hcase as (_ & Hnew). simplify_eq. simpl. apply Hdom. eauto.
Qed.

Section Commit.
Context `{GrallocUsage}.

Lemma mReuse_configured s : mReuse (configured_stream s) = mReuse s.
Proof. done. Qed.

Lemma commit_defined cur st l c st2 :
  fill_post cur st l (Filled c) st2 →
  Forall (live st) cur →
  heap_ok st →
  NoDup (filter (λ a, a ∉ c) cur) →
  ∃ st3 st4,
    for_each setup_one c st2 = Some (tt, st3) ∧
    for_each destroy_one (stored <$> cur) st3 = Some (tt, st4).
Proof.
  intros Hpost Hlive Hok Hnd.
  destruct (live_objects _ _ (candidates_live _ _ _ _ _ Hpost)) as [ss Hss].
  simpl in Hss.
  destruct (setup_defined c ss st2) as [st3 Hsetup]; [done| |].
  { apply Forall_forall. intros s [a [_ Hs]]%(objects_elem _ _ _ _ Hss).
    by eapply heap_ok_fill. }
  exists st3.
  pose proof (setup_inv _ _ _ _ Hsetup) as (_ & _ & _ & _ & Hh3 & _).
  destruct (destroy_defined (stored <$> cur) st3) as [st4 Hdestroy];
    [apply initialized_stored|..]; rewrite ?entries_stored.
  - eapply Forall_impl; [exact Hlive|]. intros a [s Hs]. unfold live.
    rewrite Hh3, (fill_heap_old _ _ _ _ _ Hpost _ _ Hs). eauto.
  - erewrite filter_ext_elem; [exact Hnd|].
    intros a Hin. simpl. rewrite Forall_forall in Hlive.
    destruct (Hlive _ Hin) as [s Hs].
    rewrite Hh3, (fill_heap_old _ _ _ _ _ Hpost _ _ Hs). simpl.
    destruct (decide (a ∈ c)) as [Hc|Hc].
    + rewrite !(on_elem c) by done. simpl. split; [congruence|done].
    + rewrite !(on_not_elem c) by done. rewrite on_elem by done. done.
  - by exists st4.
Qed.

Lemma commit_post cur st l c st2 st3 st4 :
  fill_post cur st l (Filled c) st2 →
  Forall (live st) cur →
  for_each setup_one c st2 = Some (tt, st3) →
  for_each destroy_one (stored <$> cur) st3 = Some (tt, st4) →
  cam st4 = cam st ∧
  Forall2 (committed_slot st st4) l c ∧
  (∀ a s, heap st !! a = Some s → a ∉ c →
          heap st4 !! a = if decide (a ∈ cur) then None else Some s) ∧
  (∀ a, heap st !! a = None → a ∉ c → heap st4 !! a = None) ∧
  ∃ ss, objects st2 c ss ∧
        ∀ d, descs st4 !! d =
             on (mStream <$> ss) (set_max_buffers 1) d <$> descs st2 !! d.
Proof.
  intros Hpost Hlive (Hc3 & ss & Hss & _ & Hh3 & Hd3)%setup_inv
         (Hc4 & Hd4 & _ & Hh4)%destroy_inv.
  rewrite entries_stored in Hh4.
  pose proof (fill_result_shape _ _ _ _ _ Hpost) as Hlen. simpl in Hlen.
  split; [by rewrite Hc4, Hc3, (fill_cam _ _ _ _ _ Hpost)|].
  split; [|split; [|split]].
  - apply Forall2_same_length_lookup_2; [done|].
    intros i d a Hd Ha.
    assert (processed l (Filled c) !! i = Some d) as Hpd.
    { by rewrite processed_Filled. }
    destruct (candidate_stream _ _ _ _ _ _ _ _ Hpost Hpd Ha) as (x & Hx & Hcase).
    assert (a ∈ c) as Hin by (by eapply list_elem_of_lookup_2).
    exists x. split; [done|]. case_decide.
    + destruct Hcase as (Hp & s & Hs & _ & Hs2). split; [done|].
      exists s. split; [done|].
      rewrite Hh4, Hh3, Hs2. simpl. rewrite on_elem by done.
      by rewrite sweep_reused.
    + destruct Hcase as (Hnone & Hs2). split; [done|].
      rewrite Hh4, Hh3, Hs2. simpl. rewrite on_elem by done.
      rewrite sweep_not_elem; [done|].
      intros Hcur. rewrite Forall_forall in Hlive.
      destruct (Hlive _ Hcur) as [s Hs]. congruence.
  - intros a s Hs Hin.
    rewrite Hh4, Hh3, (fill_heap_old _ _ _ _ _ Hpost _ _ Hs). simpl.
    rewrite !(on_not_elem c) by done.
    case_decide as Hcur.
    + rewrite on_elem by done. by rewrite sweep_elem.
    + rewrite on_not_elem by done. by rewrite sweep_not_elem.
  - intros a Hnone Hin.
    by rewrite Hh4, Hh3, (fill_heap_new _ _ _ _ _ Hpost _ Hnone Hin).
  - exists ss. split; [done|]. intros d. by rewrite Hd4, Hd3.
Qed.

End Commit.

(** ** Outcomes of a call whose descriptors are all acceptable *)

Section Outcomes.
Context `{GrallocUsage}.

Lemma validated_prefix st l xs :
  device_ok st → request_ok st l → described st l xs →
  ∃ st1 c st2,
    for_each (λ a, update_stream a (set_mReuse false)) (current (cam st)) st
      = Some (tt, st1) ∧
    fillStreams l st1 = Some (Filled c, st2) ∧
    fill_post (current (cam st)) st l (Filled c) st2 ∧
    isValidStreamSet (Some c) (length c) st2 =
    Some (bool_decide (valid_stream_set (stream_type <$> xs)), st2).
Proof.
  intros [Hle Hlive] Hok Hxs.
  destruct (prefix_defined _ _ _ Hlive Hok) as (st1 & c & st2 & Hclear & Hfill).
  destruct (prefix_inv _ _ _ _ _ _ Hclear Hfill (request_ok_reuse_live _ _ Hok))
    as [Hpost _].
  exists st1, c, st2. do 3 (split; [done|]).
  destruct (live_objects _ _ (candidates_live _ _ _ _ _ Hpost)) as [ss Hss].
  simpl in Hss.
  rewrite (isValidStreamSet_Some c (length c) ss st2);
    [|done|by rewrite firstn_all].
  by rewrite (candidate_types _ _ _ _ _ _ _ Hpost Hxs Hss).
Qed.

(** The call commits. *)
Lemma configure_commits st cfg st1 c st2 :
  streams cfg ≠ [] →
  device_ok st → heap_ok st →
  for_each (λ a, update_stream a (set_mReuse false)) (current (cam st)) st
    = Some (tt, st1) →
  fillStreams (streams cfg) st1 = Some (Filled c, st2) →
  fill_post (current (cam st)) st (streams cfg) (Filled c) st2 →
  isValidStreamSet (Some c) (length c) st2 = Some (true, st2) →
  NoDup (filter (λ a, a ∉ c) (current (cam st))) →
  ∃ st3 st4,
    for_each setup_one c st2 = Some (tt, st3) ∧
    for_each destroy_one (stored <$> current (cam st)) st3 = Some (tt, st4) ∧
    configureStreams (Some cfg) st = Some (0, with_cam (commit (cam st) c) st4).
Proof.
  intros Hne [Hle Hlive] Hok Hclear Hfill Hpost Hvalid Hnd.
  destruct (commit_defined _ _ _ _ _ Hpost Hlive Hok Hnd)
    as (st3 & st4 & Hsetup & Hdestroy).
  exists st3, st4. do 2 (split; [done|]).
  rewrite (configure_eq _ _ _ _ _ Hne Hle Hclear Hfill), Hvalid.
  rewrite (bind_Some _ _ _ _ _ Hsetup), (bind_Some _ _ _ _ _ Hdestroy).
  done.
Qed.

(** The call rolls back. *)
Lemma configure_aborts st cfg st1 r st2 :
  streams cfg ≠ [] →
  device_ok st →
  for_each (λ a, update_stream a (set_mReuse false)) (current (cam st)) st
    = Some (tt, st1) →
  fillStreams (streams cfg) st1 = Some (r, st2) →
  fill_post (current (cam st)) st (streams cfg) r st2 →
  match r with
  | Filled c => isValidStreamSet (Some c) (length c) st2 = Some (false, st2)
  | Aborted arr => Forall initialized arr
  end →
  ∃ st',
    for_each destroy_one (slots_of r) st2 = Some (tt, st') ∧
    configureStreams (Some cfg) st = Some (- EINVAL, st').
Proof.
  intros Hne [Hle Hlive] Hclear Hfill Hpost Hcase.
  destruct (abort_defined _ _ _ _ _ Hpost) as [st' Hdestroy].
  { destruct r; [apply initialized_stored|done]. }
  exists st'. split; [done|].
  rewrite (configure_eq _ _ _ _ _ Hne Hle Hclear Hfill).
  destruct r as [c|arr]; simpl in *.
  - by rewrite Hcase, (bind_Some _ _ _ _ _ Hdestroy).
  - by rewrite (bind_Some _ _ _ _ _ Hdestroy).
Qed.

End Outcomes.

(** * The properties of the specification *)

Section Components.
Context `{GrallocUsage}.

(** ** Device lifecycle *)

(** C8: [open] returns -EBUSY and changes nothing when the device is already
    open, and otherwise sets the busy flag (and stores the module handle)
    and returns 0; [close] returns -EINVAL and changes nothing when the
    device is not open, and otherwise clears the busy flag and returns 0.
    Hence a second consecutive [open] returns -EBUSY and a second
    consecutive [close] returns -EINVAL, whatever the state before. *)
Theorem open_close_status (st : State) (module module' : ptr) :
  open module st =
    Some (if mBusy (cam st)
          then ((- EBUSY, None), st)
          else ((0, Some (DeviceOf (mId (cam st)))),
                with_cam (mk_Camera (mId (cam st)) true (mCallbackOps (cam st))
                                    (mStreams (cam st)) (mNumStreams (cam st))
                                    module) st)) ∧
  close st =
    Some (if mBusy (cam st)
          then (0, with_cam (mk_Camera (mId (cam st)) false
                                       (mCallbackOps (cam st))
                                       (mStreams (cam st))
                                       (mNumStreams (cam st))
                                       (mDevice_module (cam st))) st)
          else (- EINVAL, st)) ∧
  (∃ st', (open module;; open module') st = Some ((- EBUSY, None), st')
          ∧ mBusy (cam st') = true) ∧
  (∃ st', (close;; close) st = Some (- EINVAL, st')
          ∧ mBusy (cam st') = false).
Proof.
  unfold open, close, get_cam, put_cam, mbind, M_bind, mret, M_ret.
  destruct (mBusy (cam st)) eqn:Hbusy; simpl; rewrite ?Hbusy; simpl.
  - repeat split; [|eexists; split; [reflexivity|done]].
    eexists; split; [reflexivity|done].
  - repeat split; [eexists; split; [reflexivity|done]|].
    eexists; split; [reflexivity|done].
Qed.

(** C10: [open], [close] and [initialize] never modify the committed stream
    set ([mStreams], [mNumStreams]) nor any Stream or descriptor; [close]
    destroys no Stream, so the configuration is still there after a [close]
    followed by an [open]. *)
Theorem lifecycle_keeps_streams (st : State) (module callback_ops : ptr) :
  let same st' :=
    mStreams (cam st') = mStreams (cam st) ∧
    mNumStreams (cam st') = mNumStreams (cam st) ∧
    heap st' = heap st ∧ descs st' = descs st in
  (∃ r st', open module st = Some (r, st') ∧ same st') ∧
  (∃ r st', close st = Some (r, st') ∧ same st') ∧
  (∃ r st', initialize callback_ops st = Some (r, st') ∧ same st') ∧
  (∃ r st', (close;; open module) st = Some (r, st') ∧ same st').
Proof.
  simpl.
  unfold open, close, initialize, get_cam, put_cam, mbind, M_bind, mret, M_ret.
  repeat split; destruct (mBusy (cam st)) eqn:Hbusy; simpl; rewrite ?Hbusy;
    simpl; by eexists _, _.
Qed.

(** ** configureStreams: rejected arguments *)

(** C7: for a null descriptor list and for a list with zero streams,
    [configureStreams] returns -EINVAL at once and the whole state (the
    Camera with its committed stream set, every Stream with its reuse flag,
    every descriptor) is what it was. *)
Theorem configureStreams_null_or_empty (st : State) :
  configureStreams None st = Some (- EINVAL, st) ∧
  configureStreams (Some (mk_config [])) st = Some (- EINVAL, st).
Proof. done. Qed.

(** ** The validator *)

(** C4: on an array whose first [count] pointers refer to the Streams [ss],
    [isValidStreamSet] returns true if and only if the set is non-empty, at
    most one Stream has a type that includes input and at least one has a type
    that includes output, a bidirectional Stream counting on both sides; it
    looks at nothing else and returns the state it was given.  On a null
    array it returns false. *)
Theorem isValidStreamSet_spec (st : State) (arr : list addr) (count : nat)
    (ss : list Stream) :
  (count ≤ length arr)%nat →
  objects st (take count arr) ss →
  (∃ valid, isValidStreamSet (Some arr) count st = Some (valid, st) ∧
            (valid = true ↔ valid_stream_set (mType <$> ss))) ∧
  isValidStreamSet None count st = Some (false, st) ∧
  input_count [CAMERA3_STREAM_BIDIRECTIONAL] = 1%nat ∧
  output_count [CAMERA3_STREAM_BIDIRECTIONAL] = 1%nat.
Proof.
  intros Hle Hobj. split; [|done].
  eexists. split; [by apply isValidStreamSet_Some|].
  apply bool_decide_eq_true.
Qed.

(** ** The configurator *)

(** C5: on a candidate set whose Streams are live (as validation has
    checked), [setupStreams] has a defined result, the only one its type
    allows, and leaves every Stream of the set with the usage the
    specification words give for its type and with a buffer count of 1,
    its type unchanged. *)
Theorem setupStreams_assigns (st : State) (newStreams : list addr)
    (ss : list Stream) :
  objects st newStreams ss →
  Forall (λ s, is_Some (descs st !! mStream s)) ss →
  ∃ st',
    setupStreams newStreams (length newStreams) st = Some (tt, st') ∧
    cam st' = cam st ∧
    ∀ a s, a ∈ newStreams → heap st !! a = Some s →
      ∃ s', heap st' !! a = Some s' ∧
            mUsage s' = spec_usage (mType s) ∧
            mMaxBuffers s' = 1 ∧
            mType s' = mType s.
Proof.
  intros Hobj Hd.
  destruct (setup_defined _ _ _ Hobj Hd) as [st' Hrun].
  exists st'. unfold setupStreams.
  rewrite (bind_Some _ _ _ _ _ (array_prefix_Some _ _ st (le_n _))), firstn_all.
  split; [done|].
  apply setup_inv in Hrun as (Hc & _ & _ & _ & Hh & _).
  split; [done|]. intros a s Hin Hs.
  exists (configured_stream s). split; [|done].
  rewrite Hh, Hs. simpl. by rewrite on_elem.
Qed.

End Components.

Section Transactions.
Context `{GrallocUsage}.

Lemma mark_unmark_flag c cur a s :
  ∃ b, on c (set_mReuse true) a (on cur (set_mReuse false) a s) = set_mReuse b s.
Proof.
  unfold on. repeat case_decide; simpl; eauto.
  exists (mReuse s). by destruct s.
Qed.

(** ** configureStreams: commit *)


(** ** configureStreams: rollback on an invalid set *)

(** C2: on a device whose committed array can be walked and holds live
    Streams: for a list of acceptable descriptors whose types make a set
    with no output-capable stream or with two or more input-capable ones,
    [configureStreams] returns -EINVAL and [mStreams] and [mNumStreams] are
    what they were.  Every candidate constructed by the call is freed (no
    address holds a Stream that held none before), and every Stream that
    existed before the call, reused or not, is still there with all its
    fields but the reuse mark, which is set on the reused ones. *)
Theorem configureStreams_invalid_set (st : State)
    (cfg : camera3_stream_configuration_t) (xs : list camera3_stream_t) :
  device_ok st →
  request_ok st (streams cfg) →
  described st (streams cfg) xs →
  (output_count (stream_type <$> xs) = 0 ∨
   2 ≤ input_count (stream_type <$> xs))%nat →
  ∃ newStreams st',
    configureStreams (Some cfg) st = Some (- EINVAL, st') ∧
    mStreams (cam st') = mStreams (cam st) ∧
    mNumStreams (cam st') = mNumStreams (cam st) ∧
    Forall2 (rolled_back_slot st st') (streams cfg) newStreams ∧
    (∀ a, heap st !! a = None → heap st' !! a = None) ∧
    (∀ a s, heap st !! a = Some s → ∃ b, heap st' !! a = Some (set_mReuse b s)).
Proof.
  intros Hdev Hok Hxs Hbad.
  destruct (decide (streams cfg = [])) as [Hnil|Hne].
  { exists [], st. destruct cfg as [l]. simpl in Hnil. subst l.
    do 3 (split; [done|]). split; [constructor|]. split; [done|].
    intros a s Hs. exists (mReuse s). rewrite Hs. by destruct s. }
  destruct (validated_prefix _ _ _ Hdev Hok Hxs)
    as (st1 & c & st2 & Hclear & Hfill & Hpost & Hval).
  rewrite bool_decide_eq_false_2 in Hval.
  2:{ intros (_ & Hin & Hout). lia. }
  destruct (configure_aborts _ _ _ _ _ Hne Hdev Hclear Hfill Hpost Hval)
    as (st' & Hdestroy & Hrun).
  destruct (abort_post _ _ _ _ _ _ _ Hpost Hdestroy)
    as (Hcam & _ & Hold & Hnew & Hslots).
  exists c, st'. split; [done|]. rewrite Hcam.
  do 2 (split; [done|]). split; [|split; [done|]].
  - rewrite processed_Filled in Hslots; [done|].
    apply (fill_result_shape _ _ _ _ _ Hpost).
  - intros a s Hs. rewrite (Hold _ _ Hs). simpl.
    destruct (mark_unmark_flag c (current (cam st)) a s) as [b ->]. eauto.
Qed.

(** ** configureStreams: a reused Stream that does not match *)

Lemma isValidReuseStream_marks c cur a s id x :
  isValidReuseStream
    (on c (set_mReuse true) a (on cur (set_mReuse false) a s)) id x =
  isValidReuseStream s id x.
Proof. unfold on. by repeat case_decide. Qed.

Lemma candidates_abort c0 n :
  candidates (Aborted ((stored <$> c0) ++ Val None :: replicate n Indeterminate))
  = c0.
Proof.
  simpl. rewrite entries_app, entries_stored.
  change (Val None :: replicate n Indeterminate)
    with ([Val None] ++ replicate n Indeterminate).
  rewrite entries_app, entries_replicate. simpl. by rewrite app_nil_r.
Qed.

Lemma processed_abort l0 d rest c0 n :
  length c0 = length l0 →
  processed (l0 ++ d :: rest)
    (Aborted ((stored <$> c0) ++ Val None :: replicate n Indeterminate)) = l0.
Proof.
  intros Hlen. unfold processed. rewrite candidates_abort, Hlen.
  by rewrite take_app_length.
Qed.

(** A loop that stops after [l0] has left what the loop over [l0] leaves. *)
Lemma fill_post_abort_ext cur st l0 c0 st2 d rest :
  fill_post cur st l0 (Filled c0) st2 →
  fill_post cur st (l0 ++ d :: rest)
    (Aborted ((stored <$> c0) ++
              Val None :: replicate (length rest) Indeterminate)) st2.
Proof.
  intros [Hcam Hshape Hslots Hold Hnew Hnd Hdescs Hdom Htags].
  simpl in Hshape.
  pose proof (candidates_abort c0 (length rest)) as Hc.
  pose proof (processed_abort l0 d rest c0 (length rest) Hshape) as Hp.
  rewrite processed_Filled in Hslots, Hdescs, Htags by done.
  simpl in Hold, Hnew, Hnd, Htags.
  split; rewrite ?Hc, ?Hp; try done.
  - exists c0, (length rest). split; [done|].
    rewrite length_app. simpl. lia.
  - intros i d' a Hd' Ha. apply Htags; [|done].
    rewrite lookup_app_l in Hd'; [done|].
    rewrite <- Hshape. by eapply lookup_lt_Some.
Qed.

(** The fill loop of a call whose descriptors before [d] are acceptable and
    whose descriptor at [d] names a Stream that fails the compatibility
    check. *)
Lemma mismatch_fill st l0 d rest x a s :
  device_ok st →
  request_ok st l0 →
  descs st !! d = Some x → max_buffers x > 0 → priv x = Some a →
  heap st !! a = Some s →
  isValidReuseStream s (mId (cam st)) x = false →
  ∃ st1 c0 st2,
    for_each (λ a, update_stream a (set_mReuse false)) (current (cam st)) st
      = Some (tt, st1) ∧
    fillStreams (l0 ++ d :: rest) st1 =
      Some (Aborted ((stored <$> c0) ++
                     Val None :: replicate (length rest) Indeterminate), st2) ∧
    fill_post (current (cam st)) st (l0 ++ d :: rest)
      (Aborted ((stored <$> c0) ++
                Val None :: replicate (length rest) Indeterminate)) st2 ∧
    length c0 = length l0.
Proof.
  intros [Hle Hlive] Hok Hx Hre Hp Hs Hv.
  destruct (prefix_defined _ _ _ Hlive Hok) as (st1 & c0 & st2 & Hclear & Hfill0).
  destruct (prefix_inv _ _ _ _ _ _ Hclear Hfill0 (request_ok_reuse_live _ _ Hok))
    as [Hpost0 _].
  assert (fillStreams (l0 ++ d :: rest) st1 =
      Some (Aborted ((stored <$> c0) ++
                     Val None :: replicate (length rest) Indeterminate), st2))
    as Hfill.
  { rewrite fill_app, Hfill0.
    destruct (fill_descs _ _ _ _ _ Hpost0 _ _ Hx) as (p & Hx2 & _ & Hpx).
    rewrite (Hpx Hre), set_priv_id in Hx2.
    pose proof (fill_heap_old _ _ _ _ _ Hpost0 _ _ Hs) as Hs2. simpl in Hs2.
    assert (fillStreams (d :: rest) st2 =
      Some (Aborted (Val None :: replicate (length rest) Indeterminate), st2))
      as Hlast.
    { rewrite fill_cons_eq.
      erewrite fill_iteration_mismatch; [done..|].
      by rewrite (fill_cam _ _ _ _ _ Hpost0), isValidReuseStream_marks. }
    by rewrite (bind_Some _ _ _ _ _ Hlast). }
  exists st1, c0, st2. do 2 (split; [done|]).
  pose proof (fill_result_shape _ _ _ _ _ Hpost0) as Hlen. simpl in Hlen.
  split; [|done]. by apply fill_post_abort_ext.
Qed.

(** X15: the slip at [err_out]: when descriptors follow the one that fails
    the check, [destroyStreams] walks the whole of [newStreams] and reads
    the elements the loop never wrote; the call has no defined result. *)
Lemma configureStreams_mismatch_before_end st l0 d rest x a s :
  device_ok st →
  request_ok st l0 →
  descs st !! d = Some x → max_buffers x > 0 → priv x = Some a →
  heap st !! a = Some s →
  isValidReuseStream s (mId (cam st)) x = false →
  rest ≠ [] →
  configureStreams (Some (mk_config (l0 ++ d :: rest))) st = None.
Proof.
  intros Hdev Hok Hx Hre Hp Hs Hv Hrest.
  destruct (mismatch_fill _ _ _ rest _ _ _ Hdev Hok Hx Hre Hp Hs Hv)
    as (st1 & c0 & st2 & Hclear & Hfill & _ & _).
  destruct Hdev as [Hle _].
  rewrite (configure_eq (mk_config _) _ _ _ _ (snoc_ne_nil _ _ _)
             Hle Hclear Hfill).
  apply bind_None.
  destruct (for_each destroy_one _ st2) as [[[] st']|] eqn:Hdestroy; [|done].
  apply destroy_inv in Hdestroy as (_ & _ & Hinit & _).
  apply Forall_app in Hinit as [_ Hinit]. apply Forall_cons in Hinit as [_ Hinit].
  destruct rest as [|d' rest]; [done|]. simpl in Hinit.
  by apply Forall_cons in Hinit as [Hbad _].
Qed.

(** C3, as the code has it: when the last descriptor of the list signals
    reuse of a live Stream whose recorded owning device id or type differs
    from what the call expects, and the descriptors before it are
    acceptable, [configureStreams] returns -EINVAL, the Camera object (with
    [mStreams] and [mNumStreams]) is what it was, every Stream that existed
    is still there with at most its reuse mark changed, no new Stream
    remains, and of the descriptors only the [priv] tags of those before the
    failing one may have changed. *)
Theorem configureStreams_reuse_mismatch (st : State) (l0 : list addr)
    (d : addr) (x : camera3_stream_t) (a : addr) (s : Stream) :
  device_ok st →
  request_ok st l0 →
  descs st !! d = Some x → max_buffers x > 0 → priv x = Some a →
  heap st !! a = Some s →
  mOwnerId s ≠ mId (cam st) ∨ mType s ≠ stream_type x →
  ∃ st',
    configureStreams (Some (mk_config (l0 ++ [d]))) st = Some (- EINVAL, st') ∧
    cam st' = cam st ∧
    (∀ a, heap st !! a = None → heap st' !! a = None) ∧
    (∀ a s, heap st !! a = Some s → ∃ b, heap st' !! a = Some (set_mReuse b s)) ∧
    (∀ d' x', descs st !! d' = Some x' →
       ∃ p, descs st' !! d' = Some (set_priv p x') ∧ (d' ∉ l0 → p = priv x')) ∧
    (∀ d', descs st !! d' = None → descs st' !! d' = None).
Proof.
  intros Hdev Hok Hx Hre Hp Hs Hdiff.
  assert (isValidReuseStream s (mId (cam st)) x = false) as Hv.
  { apply not_true_is_false. intros Hv%isValidReuseStream_true. tauto. }
  destruct (mismatch_fill _ _ _ [] _ _ _ Hdev Hok Hx Hre Hp Hs Hv)
    as (st1 & c0 & st2 & Hclear & Hfill & Hpost & Hlen).
  destruct (configure_aborts st (mk_config (l0 ++ [d])) _ _ _
              (snoc_ne_nil _ _ _) Hdev Hclear Hfill Hpost)
    as (st' & Hdestroy & Hrun).
  { apply Forall_app. split; [apply initialized_stored|]. by repeat constructor. }
  destruct (abort_post _ _ _ _ _ _ _ Hpost Hdestroy)
    as (Hcam & Hdescs & Hold & Hnew & _).
  exists st'. do 3 (split; [done|]). split; [|split].
  - intros a' s' Hs'. rewrite (Hold _ _ Hs'). 
    destruct (mark_unmark_flag
      (candidates (Aborted ((stored <$> c0) ++ [Val None])))
      (current (cam st)) a' s') as [b Hb].
    simpl in Hb. simpl. rewrite Hb. eauto.
  - intros d' x' Hx'. rewrite Hdescs.
    destruct (fill_descs _ _ _ _ _ Hpost _ _ Hx') as (p & Hp' & Hout & _).
    exists p. split; [done|]. intros Hin. apply Hout.
    by rewrite (processed_abort _ _ _ _ _ Hlen).
  - intros d' Hd'. rewrite Hdescs. by apply (fill_descs_dom _ _ _ _ _ Hpost).
Qed.

(** ** configureStreams: what an abort leaves in the descriptors *)

(** C9: when a call on a non-empty list, whose reuse descriptors name
    Streams that are live at entry, ends with -EINVAL, the Camera object
    is what it was, and the descriptors are exactly as the fill loop left
    them: nothing restores them.  A descriptor the loop got past carries
    the address of its candidate (the last candidate, if the descriptor
    occurs more than once); where that candidate was constructed by the
    call, the address holds no Stream any more. *)
Theorem configureStreams_abort_keeps_tags (st : State)
    (cfg : camera3_stream_configuration_t) (st' : State) :
  configureStreams (Some cfg) st = Some (- EINVAL, st') →
  streams cfg ≠ [] →
  reuse_live st (streams cfg) →
  cam st' = cam st ∧
  ∃ st1 r st2,
    for_each (λ a, update_stream a (set_mReuse false)) (current (cam st)) st
      = Some (tt, st1) ∧
    fillStreams (streams cfg) st1 = Some (r, st2) ∧
    descs st' = descs st2 ∧
    Forall2 (rolled_back_slot st st')
            (processed (streams cfg) r) (candidates r) ∧
    ∀ i d a,
      streams cfg !! i = Some d → candidates r !! i = Some a →
      d ∉ drop (S i) (processed (streams cfg) r) →
      ∃ x', descs st' !! d = Some x' ∧ priv x' = Some a.
Proof.
  intros Hrun Hne Hlive.
  destruct (configure_inv _ _ _ _ Hrun Hne) as (Hle & st1 & r & st2 & Hclear & Hfill).
  destruct (prefix_inv _ _ _ _ _ _ Hclear Hfill Hlive) as [Hpost _].
  rewrite (configure_eq _ _ _ _ _ Hne Hle Hclear Hfill) in Hrun.
  assert (∃ u, for_each destroy_one (slots_of r) st2 = Some (u, st'))
    as [u Hdestroy].
  { destruct r as [c|arr]; simpl.
    - destruct (isValidStreamSet (Some c) (length c) st2)
        as [[[] st3]|] eqn:Hval; [| |done].
      + bind_step Hrun v1 st4 H1. bind_step Hrun v2 st5 H2.
        bind_step Hrun v3 st6 H3. by ret_step Hrun.
      + apply isValidStreamSet_inv in Hval as [-> _].
        bind_step Hrun v st4 Hd. ret_step Hrun. eauto.
    - bind_step Hrun v st4 Hd. ret_step Hrun. eauto. }
  destruct (abort_post _ _ _ _ _ _ _ Hpost Hdestroy)
    as (Hcam & Hdescs & _ & _ & Hslots).
  split; [done|]. exists st1, r, st2. do 4 (split; [done|]).
  intros i d a Hd Ha Hlast. rewrite Hdescs.
  by apply (fill_tags _ _ _ _ _ Hpost i).
Qed.

End Transactions.

Section Twice.
Context `{GrallocUsage}.

Lemma described_transport st st' l xs :
  described st l xs →
  (∀ d x, descs st !! d = Some x →
          ∃ x', descs st' !! d = Some x' ∧ stream_type x' = stream_type x) →
  ∃ xs', described st' l xs' ∧ stream_type <$> xs' = stream_type <$> xs.
Proof.
  intros Hxs Hstep. induction Hxs as [|d x l xs Hd _ (xs' & IH1 & IH2)].
  - exists []. split; [constructor|done].
  - destruct (Hstep _ _ Hd) as (x' & Hd' & Hty).
    exists (x' :: xs'). split; [by constructor|].
    by rewrite !fmap_cons, Hty, IH2.
Qed.

Lemma isValidReuseStream_configured s dev x f p :
  (f = id ∨ f = set_max_buffers 1) →
  isValidReuseStream (configured_stream s) dev (f (set_priv p x)) =
  isValidReuseStream s dev x.
Proof. by intros [->| ->]. Qed.

Lemma on_cases {X} l (f : X → X) a : on l f a = id ∨ on l f a = f.
Proof. unfold on. case_decide; eauto. Qed.

(** The state after a commit. *)
Lemma configure_commit_state st cfg xs :
  streams cfg ≠ [] →
  device_ok st → NoDup (current (cam st)) → heap_ok st →
  request_ok st (streams cfg) →
  described st (streams cfg) xs →
  valid_stream_set (stream_type <$> xs) →
  ∃ c st',
    configureStreams (Some cfg) st = Some (0, st') ∧
    configured_for st' (streams cfg) c ∧
    ∀ i d a, streams cfg !! i = Some d → c !! i = Some a →
             d ∉ drop (S i) (streams cfg) → tagged st' d a.
Proof.
  intros Hne Hdev Hnd Hheap Hok Hxs Hvalid.
  destruct (validated_prefix _ _ _ Hdev Hok Hxs)
    as (st1 & c & st2 & Hclear & Hfill & Hpost & Hval).
  rewrite bool_decide_eq_true_2 in Hval by done.
  destruct (configure_commits _ _ _ _ _ Hne Hdev Hheap Hclear Hfill Hpost Hval)
    as (st3 & st4 & Hsetup & Hdestroy & Hrun).
  { by apply NoDup_filter. }
  destruct Hdev as [_ Hlive].
  destruct (commit_post _ _ _ _ _ _ _ Hpost Hlive Hsetup Hdestroy)
    as (Hcam & Hslots & Hold & Hnew & ss2 & Hss2 & Hd4).
  pose proof (fill_result_shape _ _ _ _ _ Hpost) as Hlen. simpl in Hlen.
  assert (∀ d x, descs st !! d = Some x →
    ∃ p f, descs st4 !! d = Some (f (set_priv p x)) ∧
           descs st2 !! d = Some (set_priv p x) ∧
           f = on (mStream <$> ss2) (set_max_buffers 1) d) as Hdesc.
  { intros d x Hx. destruct (fill_descs _ _ _ _ _ Hpost _ _ Hx) as (p & Hp & _).
    exists p, (on (mStream <$> ss2) (set_max_buffers 1) d).
    by rewrite Hd4, Hp. }
  exists c, (with_cam (commit (cam st) c) st4). split; [done|]. split.
  - split; [done|]. split; [done|]. split; [|split].
    + (* every live Stream is bound to a readable descriptor *)
      intros a s' Hs'. simpl in *.
      assert (∀ d, is_Some (descs st !! d) → is_Some (descs st4 !! d)) as Hdom.
      { intros d [x Hx]. destruct (Hdesc _ _ Hx) as (p & f & -> & _). eauto. }
      destruct (decide (a ∈ c)) as [Hin|Hin].
      * apply list_elem_of_lookup in Hin as [i Ha].
        destruct (Forall2_lookup_r _ _ _ _ _ Hslots Ha) as (d & Hd & x & Hx & Hcase).
        case_decide.
        -- destruct Hcase as (_ & s & Hs & Hs4). simplify_eq. simpl.
           apply Hdom. by eapply Hheap.
        -- destruct Hcase as (_ & Hs4). simplify_eq. simpl. apply Hdom. eauto.
      * destruct (heap st !! a) as [s|] eqn:Hs.
        -- rewrite (Hold _ _ Hs Hin) in Hs'. case_decide; simplify_eq.
           apply Hdom. by eapply Hheap.
        -- rewrite (Hnew _ Hs Hin) in Hs'. done.
    + apply Forall2_same_length_lookup_2; [done|].
      intros i d a Hd Ha. simpl.
      assert (processed (streams cfg) (Filled c) !! i = Some d) as Hpd.
      { by rewrite processed_Filled. }
      destruct (candidate_stream _ _ _ _ _ _ _ _ Hpost Hpd Ha) as (x & Hx & Hcase).
      destruct (Forall2_lookup_lr _ _ _ _ _ _ Hslots Hd Ha) as (x' & Hx' & Hcase').
      simplify_eq.
      destruct (Hdesc _ _ Hx) as (p & f & Hx4 & Hx2 & Hf).
      assert (a ∈ c) as Hin by (by eapply list_elem_of_lookup_2).
      destruct (objects_lookup _ _ _ _ Hss2 Hin) as (s2 & Hs2 & Hs2in).
      case_decide as Hre.
      * destruct Hcase as (Hp & s & Hs & Hv & _).
        destruct Hcase' as (_ & s' & Hs' & Hs4). simplify_eq.
        eexists _, _. split; [exact Hx4|]. split; [exact Hs4|].
        split; [|split; [|done]].
        -- destruct (on_cases (mStream <$> ss2) (set_max_buffers 1) d)
             as [-> | ->]; simpl; [done|lia].
        -- by rewrite isValidReuseStream_configured by apply on_cases.
      * destruct Hcase as (_ & Hnew2). destruct Hcase' as (_ & Hs4).
        eexists _, _. split; [exact Hx4|]. split; [exact Hs4|].
        split; [|split; [|done]].
        -- rewrite Hf. rewrite on_elem; [simpl; lia|].
           rewrite Hs2 in Hnew2. injection Hnew2 as ->.
           by apply (list_elem_of_fmap_2' mStream) with (Stream_new (mId (cam st)) d x).
        -- rewrite isValidReuseStream_configured by (rewrite Hf; apply on_cases).
           apply isValidReuseStream_new.
    + destruct (described_transport st (with_cam (commit (cam st) c) st4)
                  _ _ Hxs) as (xs' & Hxs' & Hty).
      { intros d x Hx. destruct (Hdesc _ _ Hx) as (p & f & Hx4 & _ & Hf).
        eexists. split; [exact Hx4|]. rewrite Hf.
        by destruct (on_cases (mStream <$> ss2) (set_max_buffers 1) d)
          as [-> | ->]. }
      exists xs'. split; [done|]. by rewrite Hty.
  - intros i d a Hd Ha Hlast.
    destruct (fill_tags _ _ _ _ _ Hpost i d a Hd Ha) as (x2 & Hx2 & Hp).
    { by rewrite processed_Filled. }
    exists (on (mStream <$> ss2) (set_max_buffers 1) d x2). simpl.
    split; [by rewrite Hd4, Hx2|].
    by destruct (on_cases (mStream <$> ss2) (set_max_buffers 1) d) as [-> | ->].
Qed.


Lemma current_committed c0 c :
  mStreams c0 = Some c → mNumStreams c0 = length c → current c0 = c.
Proof. intros Hms Hn. unfold current. rewrite Hms, Hn. apply firstn_all. Qed.


(** When no descriptor occurs twice in the list, every descriptor carries
    the address of its committed Stream after a successful call. *)
Lemma configureStreams_tags st cfg xs c st1 :
  streams cfg ≠ [] →
  device_ok st → NoDup (current (cam st)) → heap_ok st →
  request_ok st (streams cfg) →
  described st (streams cfg) xs →
  valid_stream_set (stream_type <$> xs) →
  NoDup (streams cfg) →
  configureStreams (Some cfg) st = Some (0, st1) →
  mStreams (cam st1) = Some c →
  Forall2 (tagged st1) (streams cfg) c.
Proof.
  intros Hne Hdev Hnd Hheap Hok Hxs Hvalid Hdistinct Hrun Hms.
  destruct (configure_commit_state _ _ _ Hne Hdev Hnd Hheap Hok Hxs Hvalid)
    as (c' & st1' & Hrun' & (Hms' & _ & _ & Hall & _) & Htags).
  rewrite Hrun in Hrun'. simplify_eq.
  apply Forall2_same_length_lookup_2; [by eapply Forall2_length|].
  intros i d a Hd Ha. apply (Htags i); [done..|].
  intros [j Hj]%list_elem_of_lookup. rewrite lookup_drop in Hj.
  pose proof (NoDup_lookup _ _ _ _ Hdistinct Hd Hj). lia.
Qed.

(** ** configureStreams: the same list again *)


End Twice.

(** * The scenario, run *)

Section Scenario.
Local Existing Instance android_gralloc.

Example scenario_first_call :
  configureStreams (Some (mk_config [1%positive])) st_fresh = Some (0, st_once).
Proof. vm_compute. reflexivity. Qed.

Example scenario_second_call :
  configureStreams (Some (mk_config [1%positive])) st_once = Some (0, st_twice).
Proof. vm_compute. reflexivity. Qed.

Example scenario_third_call :
  configureStreams (Some (mk_config [2%positive; 1%positive])) st_changed
  = Some (- EINVAL, st_aborted).
Proof. vm_compute. reflexivity. Qed.

(** With the failing descriptor first, [err_out] reads [newStreams[1]],
    which the loop never wrote. *)
Example scenario_mismatch_first :
  configureStreams (Some (mk_config [1%positive; 2%positive])) st_changed = None.
Proof. vm_compute. reflexivity. Qed.

End Scenario.

(** * The theorems at the states of the scenario *)

(** Closes a decidable goal by evaluation. *)
Ltac by_evaluation := refine (bool_decide_unpack _ _); vm_compute; exact I.

Section Instances.
Local Existing Instance android_gralloc.



Lemma st_two_inputs_request_ok :
  request_ok st_two_inputs [1%positive; 2%positive; 3%positive].
Proof.
  apply (request_ok_cons _ _ _ out_desc_tagged); [reflexivity| |].
  { intros _. exists 1%positive, (out_stream true). by repeat split. }
  apply (request_ok_cons _ _ _ in_desc); [reflexivity| |].
  { intros Hpos. vm_compute in Hpos. discriminate Hpos. }
  apply (request_ok_cons _ _ _ in_desc); [reflexivity| |apply request_ok_nil].
  intros Hpos. vm_compute in Hpos. discriminate Hpos.
Defined.

(** C2 at a call that reuses the output stream and adds two inputs. *)
Lemma configureStreams_invalid_set_witness :
  device_ok st_two_inputs ∧
  request_ok st_two_inputs [1%positive; 2%positive; 3%positive] ∧
  (2 ≤ input_count (stream_type <$> [out_desc_tagged; in_desc; in_desc]))%nat ∧
  ∃ newStreams st',
    configureStreams (Some (mk_config [1%positive; 2%positive; 3%positive]))
      st_two_inputs = Some (- EINVAL, st') ∧
    mStreams (cam st') = mStreams (cam st_two_inputs) ∧
    mNumStreams (cam st') = mNumStreams (cam st_two_inputs) ∧
    Forall2 (rolled_back_slot st_two_inputs st')
            [1%positive; 2%positive; 3%positive] newStreams ∧
    (∀ a, heap st_two_inputs !! a = None → heap st' !! a = None) ∧
    (∀ a s, heap st_two_inputs !! a = Some s →
            ∃ b, heap st' !! a = Some (set_mReuse b s)).
Proof.
  split; [by_evaluation|]. split; [exact st_two_inputs_request_ok|].
  split; [vm_compute; apply le_n|].
  apply (configureStreams_invalid_set st_two_inputs
           (mk_config [1%positive; 2%positive; 3%positive])
           [out_desc_tagged; in_desc; in_desc]).
  - by_evaluation.
  - exact st_two_inputs_request_ok.
  - repeat constructor.
  - right. vm_compute. apply le_n.
Defined.

Lemma st_changed_request_ok : request_ok st_changed [2%positive].
Proof.
  apply (request_ok_cons _ _ _ out_desc); [reflexivity| |apply request_ok_nil].
  intros Hpos. vm_compute in Hpos. discriminate Hpos.
Defined.

(** C3, amended, at the third call of the scenario. *)
Lemma configureStreams_reuse_mismatch_witness :
  device_ok st_changed ∧ request_ok st_changed [2%positive] ∧
  descs st_changed !! 1%positive = Some bidir_desc_tagged ∧
  max_buffers bidir_desc_tagged > 0 ∧
  priv bidir_desc_tagged = Some 1%positive ∧
  heap st_changed !! 1%positive = Some (out_stream true) ∧
  mType (out_stream true) ≠ stream_type bidir_desc_tagged ∧
  ∃ st',
    configureStreams (Some (mk_config ([2%positive] ++ [1%positive]))) st_changed
      = Some (- EINVAL, st') ∧
    cam st' = cam st_changed ∧
    (∀ a, heap st_changed !! a = None → heap st' !! a = None) ∧
    (∀ a s, heap st_changed !! a = Some s →
            ∃ b, heap st' !! a = Some (set_mReuse b s)) ∧
    (∀ d' x', descs st_changed !! d' = Some x' →
       ∃ p, descs st' !! d' = Some (set_priv p x') ∧
            (d' ∉ [2%positive] → p = priv x')) ∧
    (∀ d', descs st_changed !! d' = None → descs st' !! d' = None).
Proof.
  split; [by_evaluation|]. split; [exact st_changed_request_ok|].
  do 4 (split; [reflexivity|]). split; [discriminate|].
  apply (configureStreams_reuse_mismatch st_changed [2%positive] 1%positive
           bidir_desc_tagged 1%positive (out_stream true)).
  - by_evaluation.
  - exact st_changed_request_ok.
  - reflexivity.
  - reflexivity.
  - reflexivity.
  - reflexivity.
  - right. discriminate.
Defined.

(** C4 at the committed set of the scenario. *)
Lemma isValidStreamSet_spec_witness :
  objects st_once (take 1 [1%positive]) [out_stream false] ∧
  (∃ valid, isValidStreamSet (Some [1%positive]) 1 st_once = Some (valid, st_once) ∧
            (valid = true ↔ valid_stream_set (mType <$> [out_stream false]))) ∧
  isValidStreamSet None 1 st_once = Some (false, st_once) ∧
  input_count [CAMERA3_STREAM_BIDIRECTIONAL] = 1%nat ∧
  output_count [CAMERA3_STREAM_BIDIRECTIONAL] = 1%nat.
Proof.
  split; [repeat constructor|].
  apply (isValidStreamSet_spec st_once [1%positive] 1 [out_stream false]).
  - apply le_n.
  - repeat constructor.
Defined.

(** C5 at the committed set of the scenario. *)
Lemma setupStreams_assigns_witness :
  objects st_once [1%positive] [out_stream false] ∧
  ∃ st',
    setupStreams [1%positive] 1 st_once = Some (tt, st') ∧
    cam st' = cam st_once ∧
    ∀ a s, a ∈ [1%positive] → heap st_once !! a = Some s →
      ∃ s', heap st' !! a = Some s' ∧
            mUsage s' = spec_usage (mType s) ∧
            mMaxBuffers s' = 1 ∧
            mType s' = mType s.
Proof.
  split; [repeat constructor|].
  apply (setupStreams_assigns st_once [1%positive] [out_stream false]).
  - repeat constructor.
  - repeat constructor. by_evaluation.
Defined.


Lemma st_changed_reuse_live : reuse_live st_changed [2%positive; 1%positive].
Proof.
  apply (reuse_live_cons _ _ _ out_desc); [reflexivity| |].
  { intros Hpos. vm_compute in Hpos. discriminate Hpos. }
  apply (reuse_live_cons _ _ _ bidir_desc_tagged);
    [reflexivity| |apply reuse_live_nil].
  intros _. exists 1%positive. split; [reflexivity|]. by exists (out_stream true).
Defined.

(** C9 at the third call of the scenario. *)
Lemma configureStreams_abort_keeps_tags_witness :
  configureStreams (Some (mk_config [2%positive; 1%positive])) st_changed
    = Some (- EINVAL, st_aborted) ∧
  reuse_live st_changed [2%positive; 1%positive] ∧
  cam st_aborted = cam st_changed ∧
  ∃ st1 r st2,
    for_each (λ a, update_stream a (set_mReuse false))
             (current (cam st_changed)) st_changed = Some (tt, st1) ∧
    fillStreams [2%positive; 1%positive] st1 = Some (r, st2) ∧
    descs st_aborted = descs st2 ∧
    Forall2 (rolled_back_slot st_changed st_aborted)
            (processed [2%positive; 1%positive] r) (candidates r) ∧
    ∀ i d a,
      [2%positive; 1%positive] !! i = Some d → candidates r !! i = Some a →
      d ∉ drop (S i) (processed [2%positive; 1%positive] r) →
      ∃ x', descs st_aborted !! d = Some x' ∧ priv x' = Some a.
Proof.
  split; [vm_compute; reflexivity|]. split; [exact st_changed_reuse_live|].
  apply (configureStreams_abort_keeps_tags st_changed
           (mk_config [2%positive; 1%positive]) st_aborted).
  - vm_compute. reflexivity.
  - discriminate.
  - exact st_changed_reuse_live.
Defined.

(** C3 as stated fails at the third call of the scenario: the list contains
    a descriptor that signals reuse of a Stream of another type, the call
    returns -EINVAL, and it has changed the state: the descriptor at
    address 2, acceptable by itself, now carries the address of a Stream
    that was constructed and freed, and the committed Stream at address 1
    has lost its reuse mark. *)
Lemma configureStreams_reuse_mismatch_mutates :
  (1%positive ∈ [2%positive; 1%positive] ∧
   descs st_changed !! 1%positive = Some bidir_desc_tagged ∧
   max_buffers bidir_desc_tagged > 0 ∧
   priv bidir_desc_tagged = Some 1%positive ∧
   heap st_changed !! 1%positive = Some (out_stream true) ∧
   mType (out_stream true) ≠ stream_type bidir_desc_tagged) ∧
  configureStreams (Some (mk_config [2%positive; 1%positive])) st_changed
    = Some (- EINVAL, st_aborted) ∧
  st_aborted ≠ st_changed ∧
  priv <$> descs st_changed !! 2%positive = Some None ∧
  priv <$> descs st_aborted !! 2%positive = Some (Some 2%positive) ∧
  heap st_aborted !! 2%positive = None ∧
  mReuse <$> heap st_changed !! 1%positive = Some true ∧
  mReuse <$> heap st_aborted !! 1%positive = Some false.
Proof.
  split.
  - split; [by_evaluation|]. do 4 (split; [reflexivity|]). discriminate.
  - split; [vm_compute; reflexivity|].
    split; [|by repeat split].
    intros Heq. apply (f_equal (λ st, priv <$> descs st !! 2%positive)) in Heq.
    vm_compute in Heq. discriminate Heq.
Qed.

End Instances.

(** * Further properties of the transaction *)

Lemma configure_empty `{GrallocUsage} cfg st :
  streams cfg = [] → configureStreams (Some cfg) st = Some (- EINVAL, st).
Proof. destruct cfg as [l]. simpl. by intros ->. Qed.

Lemma configure_success_nonempty `{GrallocUsage} cfg st st' :
  configureStreams (Some cfg) st = Some (0, st') → streams cfg ≠ [].
Proof. intros Hrun Hnil. by rewrite (configure_empty _ _ Hnil) in Hrun. Qed.

Lemma NoDup_filter_lookup {A} (P : A → Prop) `{∀ x, Decision (P x)}
    (l : list A) i j x :
  NoDup (filter P l) → l !! i = Some x → l !! j = Some x → P x → i = j.
Proof.
  revert i j. induction l as [|y l IH]; intros i j Hnd Hi Hj Hx; [done|].
  rewrite filter_cons in Hnd.
  assert (NoDup (filter P l) ∧ (P y → y ∉ filter P l)) as [Hnd' Hy].
  { destruct (decide (P y)).
    - apply NoDup_cons in Hnd as [? ?]. by split.
    - by split. }
  assert (∀ k, l !! k = Some y → P y → False) as Hno.
  { intros k Hk Hp. apply (Hy Hp). apply list_elem_of_filter.
    split; [done|]. by eapply list_elem_of_lookup_2. }
  destruct i as [|i], j as [|j]; simpl in *; simplify_eq; [done| | |].
  - exfalso. by eapply Hno.
  - exfalso. by eapply Hno.
  - f_equal. by eapply IH.
Qed.

Lemma last_occurrence {A} `{EqDecision A} (l : list A) x :
  x ∈ l → ∃ i, l !! i = Some x ∧ x ∉ drop (S i) l.
Proof.
  induction l as [|y l IH]; intros Hin; [by apply not_elem_of_nil in Hin|].
  destruct (decide (x ∈ l)) as [Hl|Hl].
  - destruct (IH Hl) as (i & Hi & Hlast). by exists (S i).
  - apply elem_of_cons in Hin as [->|?]; [|done]. by exists 0%nat.
Qed.

Section Outcome.
Context `{GrallocUsage}.

(** Every call on a non-empty list with a defined result, taken apart. *)
Lemma configure_steps st cfg z st' :
  configureStreams (Some cfg) st = Some (z, st') →
  streams cfg ≠ [] →
  ∃ st1 r st2,
    for_each (λ a, update_stream a (set_mReuse false)) (current (cam st)) st
      = Some (tt, st1) ∧
    fillStreams (streams cfg) st1 = Some (r, st2) ∧
    ((z = - EINVAL ∧
      ∃ u, for_each destroy_one (slots_of r) st2 = Some (u, st')) ∨
     (z = 0 ∧
      ∃ c st3 st4,
        r = Filled c ∧
        isValidStreamSet (Some c) (length c) st2 = Some (true, st2) ∧
        for_each setup_one c st2 = Some (tt, st3) ∧
        for_each destroy_one (stored <$> current (cam st)) st3 = Some (tt, st4) ∧
        st' = with_cam (commit (cam st) c) st4)).
Proof.
  intros Hrun Hne.
  destruct (configure_inv _ _ _ _ Hrun Hne)
    as (Hle & st1 & r & st2 & Hclear & Hfill).
  rewrite (configure_eq _ _ _ _ _ Hne Hle Hclear Hfill) in Hrun.
  exists st1, r, st2. do 2 (split; [done|]).
  destruct r as [c|arr].
  - destruct (isValidStreamSet (Some c) (length c) st2)
      as [[[] st3]|] eqn:Hval; [| |done].
    + pose proof (isValidStreamSet_inv _ _ _ _ _ Hval) as [-> _].
      bind_step Hrun v1 st4 H1. bind_step Hrun v2 st5 H2.
      bind_step Hrun v3 st6 H3. ret_step Hrun.
      unfold put_cam in H3. injection H3 as _ <-.
      destruct v1, v2. right. split; [done|].
      by exists c, st4, st5.
    + apply isValidStreamSet_inv in Hval as [-> _].
      bind_step Hrun v st4 Hd. ret_step Hrun. left. eauto.
  - bind_step Hrun v st4 Hd. ret_step Hrun. left. eauto.
Qed.

Lemma configure_outcome st cfg z st' :
  configureStreams (Some cfg) st = Some (z, st') →
  streams cfg ≠ [] →
  reuse_live st (streams cfg) →
  ∃ st1 r st2,
    for_each (λ a, update_stream a (set_mReuse false)) (current (cam st)) st
      = Some (tt, st1) ∧
    fillStreams (streams cfg) st1 = Some (r, st2) ∧
    fill_post (current (cam st)) st (streams cfg) r st2 ∧
    device_ok st ∧
    ((z = - EINVAL ∧
      ∃ u, for_each destroy_one (slots_of r) st2 = Some (u, st')) ∨
     (z = 0 ∧
      ∃ c st3 st4,
        r = Filled c ∧
        isValidStreamSet (Some c) (length c) st2 = Some (true, st2) ∧
        for_each setup_one c st2 = Some (tt, st3) ∧
        for_each destroy_one (stored <$> current (cam st)) st3 = Some (tt, st4) ∧
        st' = with_cam (commit (cam st) c) st4)).
Proof.
  intros Hrun Hne Hlive.
  destruct (configure_inv _ _ _ _ Hrun Hne) as (Hle & _).
  destruct (configure_steps _ _ _ _ Hrun Hne)
    as (st1 & r & st2 & Hclear & Hfill & Hcases).
  destruct (prefix_inv _ _ _ _ _ _ Hclear Hfill Hlive) as [Hpost Hcur].
  exists st1, r, st2. by do 4 (split; [done|]).
Qed.

(** After a commit every candidate is live and is the Stream the fill loop
    left, set up. *)
Lemma commit_candidates cur st l c st2 st3 st4 :
  fill_post cur st l (Filled c) st2 →
  Forall (live st) cur →
  for_each setup_one c st2 = Some (tt, st3) →
  for_each destroy_one (stored <$> cur) st3 = Some (tt, st4) →
  ∀ a, a ∈ c →
    ∃ s2, heap st2 !! a = Some s2 ∧ heap st4 !! a = Some (configured_stream s2).
Proof.
  intros Hpost Hlive (_ & _ & _ & _ & Hh3 & _)%setup_inv
         (_ & _ & _ & Hh4)%destroy_inv a Hin.
  rewrite entries_stored in Hh4.
  pose proof (candidates_live _ _ _ _ _ Hpost) as Hcl. simpl in Hcl.
  rewrite Forall_forall in Hcl. destruct (Hcl _ Hin) as [s2 Hs2].
  exists s2. split; [done|]. rewrite Hh4, Hh3, Hs2. simpl.
  rewrite on_elem by done.
  destruct (heap st !! a) as [s|] eqn:Hs.
  - rewrite (candidate_old_reused _ _ _ _ _ _ _ Hpost Hs Hin) in Hs2.
    injection Hs2 as <-. by rewrite sweep_reused.
  - rewrite sweep_not_elem; [done|]. intros Hcur.
    rewrite Forall_forall in Hlive. destruct (Hlive _ Hcur) as [s' Hs'].
    congruence.
Qed.

Lemma heap_ok_setup st c st3 :
  heap_ok st → for_each setup_one c st = Some (tt, st3) → heap_ok st3.
Proof.
  intros Hok (_ & ss & _ & _ & Hh & Hd)%setup_inv a s3 Hs3.
  rewrite Hh in Hs3. destruct (heap st !! a) as [s|] eqn:Hs; [|done].
  simpl in Hs3. injection Hs3 as <-.
  replace (mStream _) with (mStream s) by (unfold on; by case_decide).
  rewrite Hd. apply fmap_is_Some. by eapply Hok.
Qed.

Lemma heap_ok_destroy st arr u st' :
  heap_ok st → for_each destroy_one arr st = Some (u, st') → heap_ok st'.
Proof.
  intros Hok (_ & Hd & _ & Hh)%destroy_inv a s' Hs'.
  rewrite Hh in Hs'. destruct (heap st !! a) as [s|] eqn:Hs; [|done].
  simpl in Hs'. unfold sweep in Hs'. case_decide; [done|].
  injection Hs' as <-. rewrite Hd. by eapply Hok.
Qed.

(** The candidates of a completed fill loop are pairwise distinct when no
    two descriptors reuse the same Stream. *)
Lemma candidates_NoDup cur st l c st2 :
  fill_post cur st l (Filled c) st2 →
  distinct_reuse st l → NoDup c.
Proof.
  intros Hpost Hdist. apply NoDup_alt. intros i j a Hi Hj.
  pose proof (fill_result_shape _ _ _ _ _ Hpost) as Hlen. simpl in Hlen.
  assert (∀ k, is_Some (c !! k) → is_Some (processed l (Filled c) !! k)) as Hpd.
  { intros k Hk. rewrite processed_Filled by done.
    apply lookup_lt_is_Some. rewrite <- Hlen. by apply lookup_lt_is_Some. }
  destruct (Hpd i) as [d Hd]; [eauto|]. destruct (Hpd j) as [d' Hd']; [eauto|].
  destruct (candidate_stream _ _ _ _ _ _ _ _ Hpost Hd Hi) as (x & Hx & Hcase).
  destruct (candidate_stream _ _ _ _ _ _ _ _ Hpost Hd' Hj) as (x' & Hx' & Hcase').
  rewrite processed_Filled in Hd, Hd' by done.
  destruct (decide (max_buffers x > 0)) as [Hre|Hfresh],
           (decide (max_buffers x' > 0)) as [Hre'|Hfresh'].
  - destruct Hcase as (Hp & _), Hcase' as (Hp' & _).
    by eapply (Hdist i j d d' x x' a).
  - destruct Hcase as (_ & s & Hs & _), Hcase' as (Hnone & _). congruence.
  - destruct Hcase as (Hnone & _), Hcase' as (_ & s & Hs & _). congruence.
  - destruct Hcase as (Hnone & _).
    eapply (NoDup_filter_lookup _ c i j a (fill_fresh_NoDup _ _ _ _ _ Hpost));
      done.
Qed.

End Outcome.

(** * destroyStreams *)

(** [destroyStreams] never brings a Stream back: an address that holds no
    Stream stays that way, and a listed one makes the loop read a dead
    object. *)
Lemma destroy_dangling arr st a :
  stored a ∈ arr → heap st !! a = None → for_each destroy_one arr st = None.
Proof.
  revert st. induction arr as [|sl arr IH]; intros st Hin Hnone.
  - by apply not_elem_of_nil in Hin.
  - simpl. apply elem_of_cons in Hin as [<-|Hin].
    + apply bind_None. simpl. apply bind_None. unfold load_stream.
      by rewrite Hnone.
    + destruct (destroy_one sl st) as [[u st1]|] eqn:Hone;
        [|by apply bind_None].
      rewrite (bind_Some _ _ _ _ _ Hone). apply IH; [done|].
      assert (for_each destroy_one [sl] st = Some (tt, st1)) as Hsingle.
      { simpl. rewrite (bind_Some _ _ _ _ _ Hone). by destruct u. }
      apply destroy_inv in Hsingle as (_ & _ & _ & Hh).
      by rewrite Hh, Hnone.
Qed.

(** X1: a call of [destroyStreams] on a non-null array that has a defined
    result leaves the Camera and every descriptor as they were; it frees
    exactly the Streams whose address is among the first [count] elements
    and whose reuse mark is clear, and leaves every other Stream as it
    was, marked ones included; the elements it visited had been written. *)
Theorem destroyStreams_effect (arr : list slot) (count : nat) (st st' : State)
    (u : unit) :
  destroyStreams (Some arr) count st = Some (u, st') →
  (count ≤ length arr)%nat ∧
  Forall initialized (take count arr) ∧
  cam st' = cam st ∧ descs st' = descs st ∧
  ∀ a, heap st' !! a =
       match heap st !! a with
       | Some s =>
           if decide (a ∈ entries (take count arr) ∧ mReuse s = false)
           then None else Some s
       | None => None
       end.
Proof.
  unfold destroyStreams. intros Hrun.
  bind_step Hrun visited st1 Hv.
  apply array_prefix_inv in Hv as (Hle & -> & ->).
  apply destroy_inv in Hrun as (Hc & Hd & Hi & Hh).
  do 4 (split; [done|]). intros a. rewrite Hh.
  by destruct (heap st !! a).
Qed.

(** X2: [destroyStreams] has a defined result when the array has at least
    [count] elements, each of the first [count] was written, every Stream
    they name is live, and no Stream with a clear reuse mark is named
    twice. *)
Theorem destroyStreams_defined (arr : list slot) (count : nat) (st : State) :
  (count ≤ length arr)%nat →
  Forall initialized (take count arr) →
  Forall (live st) (entries (take count arr)) →
  NoDup (filter (λ a, mReuse <$> heap st !! a = Some false)
                (entries (take count arr))) →
  ∃ st', destroyStreams (Some arr) count st = Some (tt, st').
Proof.
  intros Hle Hi Hl Hnd. unfold destroyStreams.
  rewrite (bind_Some _ _ _ _ _ (array_prefix_Some arr count st Hle)).
  by apply destroy_defined.
Qed.

(** X3: when a Stream with a clear reuse mark is named by two of the
    elements [destroyStreams] visits, the call has no defined result: the
    Stream is deleted at the first and read again at the second. *)
Theorem destroyStreams_double_delete (arr : list slot) (count : nat)
    (st : State) (i j : nat) (a : addr) (s : Stream) :
  arr !! i = Some (stored a) → arr !! j = Some (stored a) →
  (i < j < count)%nat →
  heap st !! a = Some s → mReuse s = false →
  destroyStreams (Some arr) count st = None.
Proof.
  intros Hi Hj [Hij Hjc] Hs Hre.
  destruct (destroyStreams (Some arr) count st) as [[u st']|] eqn:Hrun; [|done].
  exfalso. unfold destroyStreams in Hrun.
  bind_step Hrun visited st1 Hv.
  apply array_prefix_inv in Hv as (Hle & -> & ->).
  assert (take count arr !! i = Some (stored a)) as Hi'.
  { rewrite lookup_take_lt by lia. done. }
  assert (take count arr !! j = Some (stored a)) as Hj'.
  { rewrite lookup_take_lt by lia. done. }
  rewrite <- (take_drop_middle _ _ _ Hi') in Hrun.
  rewrite for_each_app in Hrun.
  bind_step Hrun v1 st1 Hpre. simpl in Hrun.
  bind_step Hrun v2 st2 Hmid.
  assert (stored a ∈ drop (S i) (take count arr)) as Hin.
  { apply list_elem_of_lookup. exists (j - S i)%nat.
    rewrite lookup_drop. by replace (S i + (j - S i))%nat with j by lia. }
  assert (heap st2 !! a = None) as Hdead.
  { apply destroy_inv in Hpre as (_ & _ & _ & Hh).
    specialize (Hh a). rewrite Hs in Hh. simpl in Hh.
    simpl in Hmid. bind_step Hmid s1 st3 Hload.
    apply load_stream_inv in Hload as [Hs1 ->].
    unfold sweep in Hh. case_decide; [congruence|].
    rewrite Hh in Hs1. injection Hs1 as <-. rewrite Hre in Hmid. simpl in Hmid.
    apply delete_stream_inv in Hmid as [_ ->]. simpl.
    by rewrite lookup_delete_eq. }
  by rewrite (destroy_dangling _ _ _ Hin Hdead) in Hrun.
Qed.

(** * The transaction: what every call leaves *)

Lemma same_request_refl x : same_request x x.
Proof. unfold same_request. by repeat split; [..|left]. Qed.

Lemma same_request_trans x y z :
  same_request x y → same_request y z → same_request x z.
Proof.
  intros (Ht & Hw & Hh & Hf & Hm) (Ht' & Hw' & Hh' & Hf' & Hm').
  unfold same_request. repeat split; [congruence..|].
  destruct Hm' as [-> | ->]; [done|by right].
Qed.

Lemma descs_frame_refl st st' : descs st' = descs st → descs_frame st st'.
Proof.
  intros Hd d. rewrite Hd. destruct (descs st !! d) as [x|]; [|done].
  exists x. split; [done|apply same_request_refl].
Qed.

Lemma descs_frame_trans st1 st2 st3 :
  descs_frame st1 st2 → descs_frame st2 st3 → descs_frame st1 st3.
Proof.
  intros H12 H23 d. specialize (H12 d). specialize (H23 d).
  destruct (descs st1 !! d) as [x|].
  - destruct H12 as (y & Hy & Hxy). rewrite Hy in H23.
    destruct H23 as (z & Hz & Hyz). exists z. split; [done|].
    by eapply same_request_trans.
  - by rewrite H12 in H23.
Qed.

Lemma descs_frame_fmap st st' :
  (∀ d, ∃ g, (∀ x, same_request x (g x)) ∧
             descs st' !! d = g <$> descs st !! d) →
  descs_frame st st'.
Proof.
  intros Hg d. destruct (Hg d) as (g & Hsame & ->).
  destruct (descs st !! d) as [x|]; simpl; [|done]. eauto.
Qed.

Lemma same_request_set_priv p x : same_request x (set_priv p x).
Proof. unfold same_request. simpl. by repeat split; [..|left]. Qed.

Lemma same_request_set_max_buffers x : same_request x (set_max_buffers 1 x).
Proof. unfold same_request. simpl. by repeat split; [..|right]. Qed.

(** The fill loop writes nothing but [priv] fields, whatever the
    descriptors hold. *)
Lemma fill_frame l st r st' :
  fillStreams l st = Some (r, st') → cam st' = cam st ∧ descs_frame st st'.
Proof.
  revert st r. induction l as [|d l IH]; intros st r Hrun.
  - simpl in Hrun. ret_step Hrun. split; [done|by apply descs_frame_refl].
  - rewrite fill_cons_eq in Hrun.
    destruct (fill_iteration d st) as [[[a|] st_a]|] eqn:Hit; [| |done].
    + apply fill_iteration_inv in Hit as (x & Hx & Hc & Hd & _).
      bind_step Hrun r' st2 Hrest. ret_step Hrun.
      apply IH in Hrest as [Hc' Hf]. split; [congruence|].
      eapply descs_frame_trans; [|exact Hf].
      apply descs_frame_fmap. intros d'. rewrite Hd, lookup_alter.
      case_decide as Hdd.
      * subst d'. exists (set_priv (Some a)).
        split; [intros x'; apply same_request_set_priv|done].
      * exists id. split; [apply same_request_refl|by rewrite fmap_on_id].
    + simplify_eq. apply fill_iteration_inv in Hit as (x & Hx & -> & _).
      split; [done|by apply descs_frame_refl].
Qed.

Section Transaction.
Context `{GrallocUsage}.

(** X4: whatever the argument and the state, a call of [configureStreams]
    with a defined result returns 0 or -EINVAL; it never changes the
    device id, the busy flag, the callback handle or the module handle,
    and with -EINVAL it leaves the whole Camera object as it was; it
    neither adds nor removes a descriptor, never writes the type, width,
    height or format of one, and leaves each [max_buffers] as it was or
    sets it to 1. *)
Theorem configureStreams_frame
    (stream_config : option camera3_stream_configuration_t)
    (st st' : State) (z : Z) :
  configureStreams stream_config st = Some (z, st') →
  (z = 0 ∨ z = - EINVAL) ∧
  mId (cam st') = mId (cam st) ∧ mBusy (cam st') = mBusy (cam st) ∧
  mCallbackOps (cam st') = mCallbackOps (cam st) ∧
  mDevice_module (cam st') = mDevice_module (cam st) ∧
  (z = - EINVAL → cam st' = cam st) ∧
  descs_frame st st'.
Proof.
  intros Hrun.
  assert (z = - EINVAL → st' = st →
          (z = 0 ∨ z = - EINVAL) ∧
          mId (cam st') = mId (cam st) ∧ mBusy (cam st') = mBusy (cam st) ∧
          mCallbackOps (cam st') = mCallbackOps (cam st) ∧
          mDevice_module (cam st') = mDevice_module (cam st) ∧
          (z = - EINVAL → cam st' = cam st) ∧
          descs_frame st st') as Hsame.
  { intros -> ->. split; [by right|]. do 5 (split; [done|]).
    by apply descs_frame_refl. }
  destruct stream_config as [cfg|]; [|simpl in Hrun; ret_step Hrun; by apply Hsame].
  destruct (decide (streams cfg = [])) as [Hnil|Hne].
  { rewrite (configure_empty _ _ Hnil) in Hrun. simplify_eq. by apply Hsame. }
  destruct (configure_steps _ _ _ _ Hrun Hne)
    as (st1 & r & st2 & Hclear & Hfill & Hcases).
  apply clear_inv in Hclear as (Hc1 & Hd1 & _).
  apply fill_frame in Hfill as (Hc2 & Hf2).
  assert (descs_frame st st2) as Hf.
  { eapply descs_frame_trans; [by apply descs_frame_refl|done]. }
  destruct Hcases as [(-> & u & Hd)|(-> & c & st3 & st4 & -> & _ & Hs & Hd & ->)].
  - apply destroy_inv in Hd as (Hc & Hd & _).
    assert (cam st' = cam st) as Hcam by congruence.
    split; [by right|]. rewrite Hcam. do 5 (split; [done|]).
    eapply descs_frame_trans; [exact Hf|by apply descs_frame_refl].
  - split; [by left|]. simpl. do 4 (split; [done|]).
    split; [done|].
    apply setup_inv in Hs as (_ & ss & _ & _ & _ & Hd3).
    apply destroy_inv in Hd as (_ & Hd4 & _).
    eapply descs_frame_trans; [exact Hf|].
    apply descs_frame_fmap. intros d. simpl. rewrite Hd4, Hd3.
    destruct (on_cases (mStream <$> ss) (set_max_buffers 1) d) as [-> | ->].
    + exists id. split; [apply same_request_refl|done].
    + exists (set_max_buffers 1).
      split; [intros x'; apply same_request_set_max_buffers|done].
Qed.

(** X5: a call that returns 0 installs an array [c] with one element per
    descriptor and changes no other field of the Camera; every Stream of
    [c] is live afterwards; every Stream of the previous committed set
    that is not in [c] has been freed; a Stream in neither set is left as
    it was, and no Stream exists afterwards at an address outside [c]
    that held none before. *)
Theorem configureStreams_supersedes (st st' : State)
    (cfg : camera3_stream_configuration_t) :
  configureStreams (Some cfg) st = Some (0, st') →
  reuse_live st (streams cfg) →
  ∃ c, cam st' = commit (cam st) c ∧
       length c = length (streams cfg) ∧
       Forall (live st') c ∧
       (∀ a, a ∈ current (cam st) → a ∉ c → heap st' !! a = None) ∧
       (∀ a, a ∉ current (cam st) → a ∉ c → heap st' !! a = heap st !! a).
Proof.
  intros Hrun Hlive.
  pose proof (configure_success_nonempty _ _ _ Hrun) as Hne.
  destruct (configure_outcome _ _ _ _ Hrun Hne Hlive)
    as (st1 & r & st2 & _ & _ & Hpost & [Hle Hcur] &
        [[Hz _]|(_ & c & st3 & st4 & -> & Hval & Hsetup & Hdestroy & ->)]);
    [done|].
  destruct (commit_post _ _ _ _ _ _ _ Hpost Hcur Hsetup Hdestroy)
    as (_ & _ & Hold & Hnew & _).
  exists c. split; [done|].
  split; [exact (fill_result_shape _ _ _ _ _ Hpost)|].
  split; [|split].
  - apply Forall_forall. intros a Hin.
    destruct (commit_candidates _ _ _ _ _ _ _ Hpost Hcur Hsetup Hdestroy _ Hin)
      as (s2 & _ & Hs4).
    unfold live. simpl. rewrite Hs4. eauto.
  - intros a Hin Hnc. rewrite Forall_forall in Hcur.
    destruct (Hcur _ Hin) as [s Hs]. simpl.
    rewrite (Hold _ _ Hs Hnc). by rewrite decide_True.
  - intros a Hnin Hnc. simpl. destruct (heap st !! a) as [s|] eqn:Hs.
    + rewrite (Hold _ _ Hs Hnc). by rewrite decide_False.
    + by apply Hnew.
Qed.

(** X6: the committed set a successful call installs passes the aggregate
    check: [isValidStreamSet] on [mStreams], [mNumStreams] returns true in
    the state the call leaves, after [setupStreams] and the destruction of
    the superseded Streams. *)
Theorem configureStreams_installs_valid_set (st st' : State)
    (cfg : camera3_stream_configuration_t) :
  configureStreams (Some cfg) st = Some (0, st') →
  reuse_live st (streams cfg) →
  isValidStreamSet (mStreams (cam st')) (mNumStreams (cam st')) st'
    = Some (true, st').
Proof.
  intros Hrun Hlive.
  pose proof (configure_success_nonempty _ _ _ Hrun) as Hne.
  destruct (configure_outcome _ _ _ _ Hrun Hne Hlive)
    as (st1 & r & st2 & _ & _ & Hpost & [Hle Hcur] &
        [[Hz _]|(_ & c & st3 & st4 & -> & Hval & Hsetup & Hdestroy & ->)]);
    [done|].
  apply isValidStreamSet_inv in Hval as (_ & ss & Hobj & Hv & _).
  rewrite firstn_all in Hobj.
  change (mStreams (cam (with_cam (commit (cam st) c) st4))) with (Some c).
  change (mNumStreams (cam (with_cam (commit (cam st) c) st4)))
    with (length c).
  rewrite (isValidStreamSet_Some _ _ (configured_stream <$> ss)).
  - rewrite <- list_fmap_compose.
    rewrite (list_fmap_ext _ mType ss) by done. by rewrite <- Hv.
  - done.
  - rewrite firstn_all. apply Forall2_fmap_r.
    eapply Forall2_impl_elem; [exact Hobj|].
    intros a s Hin _ Hs. simpl.
    destruct (commit_candidates _ _ _ _ _ _ _ Hpost Hcur Hsetup Hdestroy _ Hin)
      as (s2 & Hs2 & Hs4).
    simpl in Hs. rewrite Hs2 in Hs. by injection Hs as <-.
Qed.

(** X7: no leak.  If before the call every live Stream belongs to the
    committed set, the same holds after it, with either status: a Stream
    constructed by an aborted call and a Stream superseded by a successful
    one are both freed. *)
Theorem configureStreams_keeps_ownership (st st' : State)
    (cfg : camera3_stream_configuration_t) (z : Z) :
  owned st →
  reuse_live st (streams cfg) →
  configureStreams (Some cfg) st = Some (z, st') →
  owned st'.
Proof.
  intros Hown Hlive Hrun.
  destruct (decide (streams cfg = [])) as [Hnil|Hne].
  { rewrite (configure_empty _ _ Hnil) in Hrun. by simplify_eq. }
  destruct (configure_outcome _ _ _ _ Hrun Hne Hlive)
    as (st1 & r & st2 & _ & _ & Hpost & [Hle Hcur] &
        [(_ & u & Hd)|(_ & c & st3 & st4 & -> & Hval & Hsetup & Hdestroy & ->)]).
  - destruct (abort_post _ _ _ _ _ _ _ Hpost Hd) as (Hc & _ & _ & Hnew & _).
    intros a [s' Hs']. rewrite Hc. apply Hown.
    destruct (heap st !! a) as [s|] eqn:Hs; [by exists s|].
    rewrite (Hnew _ Hs) in Hs'. done.
  - destruct (commit_post _ _ _ _ _ _ _ Hpost Hcur Hsetup Hdestroy)
      as (_ & _ & Hold & Hnew & _).
    intros a [s' Hs']. simpl in *.
    rewrite (current_committed _ c) by done.
    destruct (decide (a ∈ c)) as [|Hnc]; [done|]. exfalso.
    destruct (heap st !! a) as [s|] eqn:Hs.
    + rewrite (Hold _ _ Hs Hnc) in Hs'.
      rewrite decide_True in Hs'; [done|]. apply Hown. by exists s.
    + rewrite (Hnew _ Hs Hnc) in Hs'. done.
Qed.

(** X8: the well-formedness that the transaction relies on is an
    invariant.  If the committed array can be walked, its Streams are live
    and pairwise distinct and every live Stream is bound to a readable
    descriptor, and no two descriptors of the list signal reuse of the
    same Stream, then the same holds of the device after the call, with
    either status. *)
Theorem configureStreams_keeps_wf (st st' : State)
    (cfg : camera3_stream_configuration_t) (z : Z) :
  device_wf st →
  reuse_live st (streams cfg) →
  distinct_reuse st (streams cfg) →
  configureStreams (Some cfg) st = Some (z, st') →
  device_wf st'.
Proof.
  intros (Hok & Hnd & Hheap) Hlive Hdist Hrun.
  destruct (decide (streams cfg = [])) as [Hnil|Hne].
  { rewrite (configure_empty _ _ Hnil) in Hrun. by simplify_eq. }
  destruct (configure_outcome _ _ _ _ Hrun Hne Hlive)
    as (st1 & r & st2 & _ & _ & Hpost & [Hle Hcur] &
        [(_ & u & Hd)|(_ & c & st3 & st4 & -> & Hval & Hsetup & Hdestroy & ->)]).
  - destruct (abort_post _ _ _ _ _ _ _ Hpost Hd) as (Hc & _ & Hold & _ & _).
    split; [|split].
    + unfold device_ok. rewrite Hc. split; [done|].
      apply Forall_forall. intros a Hin. rewrite Forall_forall in Hcur.
      destruct (Hcur _ Hin) as [s Hs]. unfold live.
      rewrite (Hold _ _ Hs). eauto.
    + by rewrite Hc.
    + eapply heap_ok_destroy; [|exact Hd]. by eapply heap_ok_fill.
  - split; [|split].
    + unfold device_ok. simpl. split; [done|].
      rewrite (current_committed _ c) by done.
      apply Forall_forall. intros a Hin.
      destruct (commit_candidates _ _ _ _ _ _ _ Hpost Hcur Hsetup Hdestroy
                  _ Hin) as (s2 & _ & Hs4).
      unfold live. simpl. rewrite Hs4. eauto.
    + simpl. rewrite (current_committed _ c) by done.
      by eapply candidates_NoDup.
    + assert (heap_ok st4) as Hok4.
      { eapply heap_ok_destroy; [|exact Hdestroy].
        eapply heap_ok_setup; [|exact Hsetup]. by eapply heap_ok_fill. }
      exact Hok4.
Qed.

(** X16: after a call that returned 0, every descriptor of the list holds
    a positive [max_buffers]: at the next call each of them signals reuse.
    For a descriptor that came in fresh the value is the 1 that
    [setupStreams] assigns through the Stream constructed for it. *)
Theorem configureStreams_marks_descriptors (st st' : State)
    (cfg : camera3_stream_configuration_t) (d : addr) :
  configureStreams (Some cfg) st = Some (0, st') →
  reuse_live st (streams cfg) →
  d ∈ streams cfg →
  ∃ x x', descs st !! d = Some x ∧ descs st' !! d = Some x' ∧
          max_buffers x' > 0 ∧
          (¬ max_buffers x > 0 → max_buffers x' = 1).
Proof.
  intros Hrun Hlive [i Hi]%list_elem_of_lookup.
  pose proof (configure_success_nonempty _ _ _ Hrun) as Hne.
  destruct (configure_outcome _ _ _ _ Hrun Hne Hlive)
    as (st1 & r & st2 & _ & _ & Hpost & [Hle Hcur] &
        [[Hz _]|(_ & c & st3 & st4 & -> & Hval & Hsetup & Hdestroy & ->)]);
    [done|].
  pose proof (fill_result_shape _ _ _ _ _ Hpost) as Hlen. simpl in Hlen.
  destruct (lookup_lt_is_Some_2 c i) as [a Ha].
  { rewrite Hlen. by eapply lookup_lt_Some. }
  destruct (candidate_stream _ _ _ _ _ i d a Hpost) as (x & Hx & Hcase);
    [by rewrite processed_Filled|done|].
  destruct (fill_descs _ _ _ _ _ Hpost _ _ Hx) as (p & Hx2 & _).
  destruct (commit_post _ _ _ _ _ _ _ Hpost Hcur Hsetup Hdestroy)
    as (_ & _ & _ & _ & ss & Hss & Hd4).
  exists x, (on (mStream <$> ss) (set_max_buffers 1) d (set_priv p x)).
  split; [done|]. split; [simpl; by rewrite Hd4, Hx2|].
  destruct (decide (max_buffers x > 0)) as [Hre|Hfresh].
  - split; [|done].
    destruct (on_cases (mStream <$> ss) (set_max_buffers 1) d) as [-> | ->];
      simpl; [done|lia].
  - destruct Hcase as (_ & Hs2).
    destruct (objects_lookup _ _ _ a Hss) as (s & Hs & Hin);
      [by eapply list_elem_of_lookup_2|].
    rewrite Hs2 in Hs. injection Hs as <-.
    rewrite on_elem; [by split|].
    apply list_elem_of_fmap. by exists (Stream_new (mId (cam st)) d x).
Qed.


End Transaction.

(** * registerStreamBuffers *)

Section Buffers.
Context `{GrallocUsage} `{StreamBuffers}.

Lemma registerStreamBuffers_live bs d x a s st :
  stream bs = Some d → descs st !! d = Some x → priv x = Some a →
  heap st !! a = Some s →
  registerStreamBuffers (Some bs) st = Stream_registerBuffers a bs st.
Proof.
  intros Hbs Hx Hp Hs. unfold registerStreamBuffers. rewrite Hbs.
  rewrite (bind_Some _ _ _ _ _ (load_desc_Some _ _ _ Hx)). rewrite Hp.
  by rewrite (bind_Some _ _ _ _ _ (load_stream_Some _ _ _ Hs)).
Qed.

Lemma registerStreamBuffers_dangling bs d x a st :
  stream bs = Some d → descs st !! d = Some x → priv x = Some a →
  heap st !! a = None →
  registerStreamBuffers (Some bs) st = None.
Proof.
  intros Hbs Hx Hp Hs. unfold registerStreamBuffers. rewrite Hbs.
  rewrite (bind_Some _ _ _ _ _ (load_desc_Some _ _ _ Hx)). rewrite Hp.
  apply bind_None. unfold load_stream. by rewrite Hs.
Qed.

(** X9: [registerStreamBuffers] checks the buffer set and its descriptor
    pointer for null, returning -EINVAL with nothing changed, but not the
    descriptor's [priv] field: for a descriptor that no call has tagged it
    calls [registerBuffers] through a null pointer and has no defined
    result. *)
Theorem registerStreamBuffers_untagged (bs : camera3_stream_buffer_set_t)
    (d : addr) (x : camera3_stream_t) (st : State) :
  stream bs = Some d → descs st !! d = Some x → priv x = None →
  registerStreamBuffers (Some bs) st = None ∧
  registerStreamBuffers None st = Some (- EINVAL, st) ∧
  registerStreamBuffers
    (Some (mk_buffer_set None (num_buffers bs) (buffers bs))) st
  = Some (- EINVAL, st).
Proof.
  intros Hbs Hx Hp. split; [|done].
  unfold registerStreamBuffers. rewrite Hbs.
  rewrite (bind_Some _ _ _ _ _ (load_desc_Some _ _ _ Hx)). by rewrite Hp.
Qed.

(** X10: after a call of [configureStreams] that returned 0, a buffer set
    for a descriptor of the list is handed to the committed Stream of that
    descriptor: with [i] the last index at which the descriptor occurs,
    [registerStreamBuffers] is [registerBuffers] of the live Stream
    [mStreams[i]]. *)
Theorem registerStreamBuffers_after_commit (st st' : State)
    (cfg : camera3_stream_configuration_t)
    (bs : camera3_stream_buffer_set_t) (d : addr) :
  configureStreams (Some cfg) st = Some (0, st') →
  reuse_live st (streams cfg) →
  d ∈ streams cfg →
  stream bs = Some d →
  ∃ i c a,
    streams cfg !! i = Some d ∧ (d ∉ drop (S i) (streams cfg)) ∧
    mStreams (cam st') = Some c ∧ c !! i = Some a ∧
    live st' a ∧
    registerStreamBuffers (Some bs) st' = Stream_registerBuffers a bs st'.
Proof.
  intros Hrun Hlive Hin Hbs.
  pose proof (configure_success_nonempty _ _ _ Hrun) as Hne.
  destruct (configure_outcome _ _ _ _ Hrun Hne Hlive)
    as (st1 & r & st2 & _ & _ & Hpost & [Hle Hcur] &
        [[Hz _]|(_ & c & st3 & st4 & -> & Hval & Hsetup & Hdestroy & ->)]);
    [done|].
  destruct (last_occurrence _ _ Hin) as (i & Hi & Hlast).
  pose proof (fill_result_shape _ _ _ _ _ Hpost) as Hlen. simpl in Hlen.
  destruct (lookup_lt_is_Some_2 c i) as [a Ha].
  { rewrite Hlen. by eapply lookup_lt_Some. }
  destruct (fill_tags _ _ _ _ _ Hpost i d a Hi Ha) as (x & Hx & Hp).
  { by rewrite processed_Filled. }
  destruct (commit_post _ _ _ _ _ _ _ Hpost Hcur Hsetup Hdestroy)
    as (_ & _ & _ & _ & ss & _ & Hd4).
  destruct (commit_candidates _ _ _ _ _ _ _ Hpost Hcur Hsetup Hdestroy a)
    as (s2 & _ & Hs4); [by eapply list_elem_of_lookup_2|].
  exists i, c, a. do 4 (split; [done|]).
  split; [unfold live; simpl; rewrite Hs4; eauto|].
  eapply (registerStreamBuffers_live _ d
            (on (mStream <$> ss) (set_max_buffers 1) d x)); [done| | |].
  - simpl. by rewrite Hd4, Hx.
  - by destruct (on_cases (mStream <$> ss) (set_max_buffers 1) d) as [-> | ->].
  - exact Hs4.
Qed.

(** X11: after a call of [configureStreams] that returned -EINVAL, a
    descriptor that did not signal reuse and whose [priv] field the call
    has changed names a Stream that the rollback freed:
    [registerStreamBuffers] for it reads a dead object and has no defined
    result. *)
Theorem registerStreamBuffers_after_abort (st st' : State)
    (cfg : camera3_stream_configuration_t)
    (bs : camera3_stream_buffer_set_t) (d : addr) (x x' : camera3_stream_t) :
  configureStreams (Some cfg) st = Some (- EINVAL, st') →
  reuse_live st (streams cfg) →
  descs st !! d = Some x → ¬ max_buffers x > 0 →
  descs st' !! d = Some x' → priv x' ≠ priv x →
  stream bs = Some d →
  registerStreamBuffers (Some bs) st' = None.
Proof.
  intros Hrun Hlive Hx Hfresh Hx' Hpriv Hbs.
  destruct (decide (streams cfg = [])) as [Hnil|Hne].
  { rewrite (configure_empty _ _ Hnil) in Hrun. simplify_eq. }
  destruct (configure_outcome _ _ _ _ Hrun Hne Hlive)
    as (st1 & r & st2 & _ & _ & Hpost & [Hle Hcur] &
        [(_ & u & Hd)|(Hz & _)]); [|done].
  destruct (abort_post _ _ _ _ _ _ _ Hpost Hd) as (_ & Hd' & _ & _ & Hslots).
  destruct (fill_descs _ _ _ _ _ Hpost _ _ Hx) as (p & Hp & Hout & _).
  rewrite Hd', Hp in Hx'. injection Hx' as <-. simpl in Hpriv.
  destruct (decide (d ∈ processed (streams cfg) r)) as [Hin|Hnin];
    [|by specialize (Hout Hnin)].
  destruct (last_occurrence _ _ Hin) as (i & Hi & Hlast).
  destruct (Forall2_lookup_l _ _ _ _ _ Hslots Hi) as (a & Ha & x0 & Hx0 & Hcase).
  rewrite Hx in Hx0. injection Hx0 as <-.
  rewrite decide_False in Hcase by done. destruct Hcase as (_ & Hdead).
  destruct (fill_tags _ _ _ _ _ Hpost i d a) as (x2 & Hx2 & Hp2); [|done..|].
  { unfold processed in Hi. apply lookup_take_Some in Hi as [Hi _]. done. }
  eapply (registerStreamBuffers_dangling _ d x2 a); [done| |done..].
  by rewrite Hd'.
Qed.

End Buffers.

(** * The validator and the configurator, once more *)

Lemma objects_omap st l ss :
  objects st l ss → ss = omap (λ a, heap st !! a) l.
Proof.
  induction 1 as [|a s l ss Hs _ IH]; [done|].
  cbn [omap list_omap]. by rewrite Hs, <- IH.
Qed.

Lemma valid_stream_set_Permutation ts ts' :
  ts ≡ₚ ts' → valid_stream_set ts → valid_stream_set ts'.
Proof.
  intros Hperm (Hne & Hi & Ho). unfold valid_stream_set.
  unfold input_count, output_count in *.
  split; [|split].
  - intros ->. by apply Permutation_nil_r in Hperm.
  - by rewrite <- (Permutation_length (filter_Permutation _ _ _ Hperm)).
  - by rewrite <- (Permutation_length (filter_Permutation _ _ _ Hperm)).
Qed.

Lemma isValidStreamSet_dead arr st :
  ¬ Forall (live st) arr →
  isValidStreamSet (Some arr) (length arr) st = None.
Proof.
  intros Hdead.
  destruct (isValidStreamSet (Some arr) (length arr) st) as [[v st']|] eqn:Hrun;
    [|done].
  apply isValidStreamSet_inv in Hrun as (_ & ss & Hobj & _).
  rewrite firstn_all in Hobj. by apply objects_live in Hobj.
Qed.

(** X12: the verdict of [isValidStreamSet] on a whole array does not
    depend on the order of its elements: two arrays that hold the same
    pointers, each as often, get the same result in the same state, be it
    true, false or none at all. *)
Theorem isValidStreamSet_order (arr arr' : list addr) (st : State) :
  arr ≡ₚ arr' →
  isValidStreamSet (Some arr) (length arr) st
  = isValidStreamSet (Some arr') (length arr') st.
Proof.
  intros Hperm.
  destruct (decide (Forall (live st) arr)) as [Hlive|Hdead].
  - assert (Forall (live st) arr') as Hlive' by (by rewrite <- Hperm).
    destruct (live_objects _ _ Hlive) as [ss Hss].
    destruct (live_objects _ _ Hlive') as [ss' Hss'].
    rewrite (isValidStreamSet_Some arr _ ss), (isValidStreamSet_Some arr' _ ss');
      [|done|by rewrite firstn_all|done|by rewrite firstn_all].
    assert (mType <$> ss ≡ₚ mType <$> ss') as Htypes.
    { rewrite (objects_omap _ _ _ Hss), (objects_omap _ _ _ Hss').
      by rewrite Hperm. }
    do 2 f_equal. apply bool_decide_ext. split.
    + by apply valid_stream_set_Permutation.
    + by apply valid_stream_set_Permutation.
  - rewrite (isValidStreamSet_dead _ _ Hdead).
    rewrite isValidStreamSet_dead; [done|]. by rewrite <- Hperm.
Qed.

Lemma state_eq st st' :
  cam st' = cam st →
  (∀ a, heap st' !! a = heap st !! a) →
  (∀ d, descs st' !! d = descs st !! d) →
  st' = st.
Proof.
  destruct st, st'. simpl. intros -> Hh Hd. f_equal; by apply map_eq.
Qed.

Section SetupAgain.
Context `{GrallocUsage}.

(** X13: [setupStreams] is idempotent: run again on the state it left,
    with the same array, it has a defined result and changes nothing. *)
Theorem setupStreams_idempotent (streams : list addr) (count : nat)
    (st st' : State) (u : unit) :
  setupStreams streams count st = Some (u, st') →
  setupStreams streams count st' = Some (tt, st').
Proof.
  unfold setupStreams. intros Hrun.
  bind_step Hrun visited st1 Hv.
  apply array_prefix_inv in Hv as (Hle & -> & ->).
  rewrite (bind_Some _ _ _ _ _ (array_prefix_Some streams count st' Hle)).
  set (l := take count streams) in *.
  apply setup_inv in Hrun as (Hc & ss & Hobj & Hdl & Hh & Hd).
  assert (objects st' l (configured_stream <$> ss)) as Hobj'.
  { apply Forall2_fmap_r. eapply Forall2_impl_elem; [exact Hobj|].
    intros a s Hin _ Hs. simpl in *. rewrite Hh, Hs. simpl.
    by rewrite on_elem. }
  assert (Forall (λ s, is_Some (descs st' !! mStream s))
                 (configured_stream <$> ss)) as Hdl'.
  { apply Forall_fmap. eapply Forall_impl; [exact Hdl|].
    intros s Hs. simpl. rewrite Hd. by apply fmap_is_Some. }
  destruct (setup_defined _ _ _ Hobj' Hdl') as [st'' Hagain].
  rewrite Hagain. do 2 f_equal.
  apply setup_inv in Hagain as (Hc' & ss' & Hobj'' & _ & Hh' & Hd').
  rewrite (objects_unique _ _ _ _ Hobj'' Hobj') in Hd'.
  apply state_eq; [done| |].
  - intros a. rewrite Hh', Hh. destruct (heap st !! a) as [s|]; [|done].
    simpl. f_equal.
    by destruct (on_cases l configured_stream a) as [-> | ->].
  - intros d. rewrite Hd', Hd. rewrite <- list_fmap_compose.
    rewrite (list_fmap_ext _ mStream ss) by done.
    destruct (descs st !! d) as [x|]; [|done]. simpl. f_equal.
    by destruct (on_cases (mStream <$> ss) (set_max_buffers 1) d)
      as [-> | ->].
Qed.

End SetupAgain.

(** * configureStreams and the lifecycle fields *)

Section Relabel.
Variables (busy : bool) (callback_ops module : ptr).

Lemma sim_ret {A} (a : A) : sim busy callback_ops module (mret a) (mret a).
Proof. done. Qed.

Lemma sim_undefined {A} :
  sim busy callback_ops module (@undefined A) undefined.
Proof. done. Qed.

Lemma sim_bind {A B} (m m' : M A) (f f' : A → M B) :
  sim busy callback_ops module m m' →
  (∀ a, sim busy callback_ops module (f a) (f' a)) →
  sim busy callback_ops module (m ≫= f) (m' ≫= f').
Proof.
  intros Hm Hf st. unfold mbind, M_bind. rewrite (Hm st).
  destruct (m st) as [[a st1]|]; simpl; [apply Hf|done].
Qed.

Lemma sim_load_stream a :
  sim busy callback_ops module (load_stream a) (load_stream a).
Proof. intros st. unfold load_stream. simpl. by destruct (heap st !! a). Qed.

Lemma sim_update_stream a f :
  sim busy callback_ops module (update_stream a f) (update_stream a f).
Proof. intros st. unfold update_stream. simpl. by destruct (heap st !! a). Qed.

Lemma sim_new_stream s :
  sim busy callback_ops module (new_stream s) (new_stream s).
Proof. done. Qed.

Lemma sim_delete_stream a :
  sim busy callback_ops module (delete_stream a) (delete_stream a).
Proof. intros st. unfold delete_stream. simpl. by destruct (heap st !! a). Qed.

Lemma sim_load_desc d :
  sim busy callback_ops module (load_desc d) (load_desc d).
Proof. intros st. unfold load_desc. simpl. by destruct (descs st !! d). Qed.

Lemma sim_update_desc d f :
  sim busy callback_ops module (update_desc d f) (update_desc d f).
Proof. intros st. unfold update_desc. simpl. by destruct (descs st !! d). Qed.

Lemma sim_array_prefix {A} (arr : list A) count :
  sim busy callback_ops module (array_prefix arr count) (array_prefix arr count).
Proof. unfold array_prefix. by case_decide. Qed.

Lemma sim_for_each {A} (body : A → M unit) l :
  (∀ a, sim busy callback_ops module (body a) (body a)) →
  sim busy callback_ops module (for_each body l) (for_each body l).
Proof.
  intros Hbody. induction l as [|a l IH]; [done|].
  simpl. apply sim_bind; [apply Hbody|by intros _].
Qed.

(** A method that reads only the device id and the committed array of the
    Camera object. *)
Lemma sim_get_cam {A} (f f' : Camera → M A) :
  (∀ st, sim busy callback_ops module (f (cam st))
             (f' (cam (relabel busy callback_ops module st)))) →
  sim busy callback_ops module (get_cam ≫= f) (get_cam ≫= f').
Proof. intros Hf st. apply (Hf st st). Qed.

Ltac sim_step :=
  lazymatch goal with
  | |- sim _ _ _ (mret _) _ => apply sim_ret
  | |- sim _ _ _ undefined _ => apply sim_undefined
  | |- sim _ _ _ (load_stream _) _ => apply sim_load_stream
  | |- sim _ _ _ (update_stream _ _) _ => apply sim_update_stream
  | |- sim _ _ _ (new_stream _) _ => apply sim_new_stream
  | |- sim _ _ _ (delete_stream _) _ => apply sim_delete_stream
  | |- sim _ _ _ (load_desc _) _ => apply sim_load_desc
  | |- sim _ _ _ (update_desc _ _) _ => apply sim_update_desc
  | |- sim _ _ _ (array_prefix _ _) _ => apply sim_array_prefix
  | |- sim _ _ _ (get_cam ≫= _) _ => apply sim_get_cam; intros ?; simpl
  | |- sim _ _ _ (_ ≫= _) _ => apply sim_bind; [|intros ?]
  | |- sim _ _ _ (if ?b then _ else _) _ => destruct b
  | |- sim _ _ _ (match ?x with _ => _ end) _ => destruct x
  end.

Lemma sim_destroyStreams streams count :
  sim busy callback_ops module (destroyStreams streams count)
      (destroyStreams streams count).
Proof.
  unfold destroyStreams. repeat sim_step.
  apply sim_for_each. intros sl. unfold destroy_one. repeat sim_step.
Qed.

Lemma sim_reuseStream d :
  sim busy callback_ops module (reuseStream d) (reuseStream d).
Proof. unfold reuseStream. repeat sim_step. Qed.

Lemma sim_count_types l inputs outputs :
  sim busy callback_ops module (count_types l inputs outputs)
      (count_types l inputs outputs).
Proof.
  revert inputs outputs. induction l as [|a l IH]; intros inputs outputs;
    simpl; repeat sim_step. apply IH.
Qed.

Lemma sim_isValidStreamSet streams count :
  sim busy callback_ops module (isValidStreamSet streams count)
      (isValidStreamSet streams count).
Proof.
  unfold isValidStreamSet. repeat sim_step. apply sim_count_types.
Qed.

Context `{GrallocUsage}.

Lemma sim_setupStreams streams count :
  sim busy callback_ops module (setupStreams streams count)
      (setupStreams streams count).
Proof.
  unfold setupStreams. repeat sim_step.
  apply sim_for_each. intros b. unfold setup_one, setUsage, setMaxBuffers.
  repeat sim_step.
Qed.

Lemma sim_fillStreams l :
  sim busy callback_ops module (fillStreams l) (fillStreams l).
Proof.
  induction l as [|d l IH]; simpl; repeat sim_step;
    try apply sim_reuseStream; try apply IH.
Qed.

Lemma sim_err_out newStreams count :
  sim busy callback_ops module (err_out newStreams count)
      (err_out newStreams count).
Proof.
  unfold err_out. apply sim_bind; [apply sim_destroyStreams|].
  intros _. apply sim_ret.
Qed.

Lemma sim_configureStreams stream_config :
  sim busy callback_ops module (configureStreams stream_config)
      (configureStreams stream_config).
Proof.
  unfold configureStreams. destruct stream_config as [cfg|]; [|apply sim_ret].
  case_decide; [apply sim_ret|].
  apply sim_get_cam. intros st.
  cbn [cam relabel with_cam mId mBusy mCallbackOps mStreams mNumStreams
       mDevice_module].
  apply sim_bind; [apply sim_array_prefix|]. intros cur.
  apply sim_bind.
  { apply sim_for_each. intros a. apply sim_update_stream. }
  intros _. apply sim_bind; [apply sim_fillStreams|]. intros [c|arr];
    [|apply sim_err_out].
  apply sim_bind; [apply sim_isValidStreamSet|]. intros [|]; simpl;
    [|apply sim_err_out].
  apply sim_bind; [apply sim_setupStreams|]. intros _.
  apply sim_bind; [apply sim_destroyStreams|]. intros _.
  apply sim_bind; [|intros _; apply sim_ret].
  by intros st0.
Qed.

End Relabel.

Lemma relabel_same st :
  relabel (mBusy (cam st)) (mCallbackOps (cam st)) (mDevice_module (cam st)) st
  = st.
Proof. by destruct st as [[] ? ?]. Qed.

(** X14: [configureStreams] neither reads nor changes the busy flag, the
    callback handle or the module handle: with these three fields set to
    any other values it returns the same status and leaves the same
    Camera array, Streams and descriptors, and the three values are
    carried through.  Hence it makes no difference to the outcome whether
    [open], [initialize] or [close] ran just before it; in particular the
    call is not refused on a device that is not open. *)
Theorem configureStreams_ignores_lifecycle `{GrallocUsage}
    (busy : bool) (callback_ops module : ptr)
    (stream_config : option camera3_stream_configuration_t) (st : State) :
  configureStreams stream_config (relabel busy callback_ops module st)
  = prod_map id (relabel busy callback_ops module)
      <$> configureStreams stream_config st ∧
  (open module;; configureStreams stream_config) st
  = prod_map id (relabel true (mCallbackOps (cam st))
                   (if mBusy (cam st) then mDevice_module (cam st)
                    else module))
      <$> configureStreams stream_config st ∧
  (initialize callback_ops;; configureStreams stream_config) st
  = prod_map id (relabel (mBusy (cam st)) callback_ops
                   (mDevice_module (cam st)))
      <$> configureStreams stream_config st ∧
  (close;; configureStreams stream_config) st
  = prod_map id (relabel false (mCallbackOps (cam st))
                   (mDevice_module (cam st)))
      <$> configureStreams stream_config st.
Proof.
  split; [apply sim_configureStreams|].
  pose proof (relabel_same st) as Hsame.
  unfold open, close, initialize, get_cam, put_cam, mbind, M_bind, mret, M_ret.
  destruct (mBusy (cam st)) eqn:Hbusy; cbn [negb]; cbv beta iota.
  - split; [|split].
    + rewrite <- sim_configureStreams. by rewrite Hsame.
    + by rewrite <- sim_configureStreams.
    + by rewrite <- sim_configureStreams.
  - split; [|split].
    + by rewrite <- sim_configureStreams.
    + by rewrite <- sim_configureStreams.
    + rewrite <- sim_configureStreams. by rewrite Hsame.
Qed.

(** * The further properties at concrete states *)

Section MoreInstances.
Local Existing Instance android_gralloc.
Local Existing Instance accepting_buffers.

Lemma st_fresh_reuse_live : reuse_live st_fresh [1%positive].
Proof.
  apply (reuse_live_cons _ _ _ out_desc); [reflexivity| |apply reuse_live_nil].
  intros Hpos. vm_compute in Hpos. discriminate Hpos.
Defined.

Lemma st_next_reuse_live : reuse_live st_next [2%positive].
Proof.
  apply (reuse_live_cons _ _ _ out_desc); [reflexivity| |apply reuse_live_nil].
  intros Hpos. vm_compute in Hpos. discriminate Hpos.
Defined.

Lemma distinct_reuse_single st d : distinct_reuse st [d].
Proof.
  intros i j d1 d2 x1 x2 a Hi Hj _ _ _ _ _ _.
  destruct i as [|i], j as [|j]; done.
Defined.

Lemma st_changed_owned : owned st_changed.
Proof.
  intros a [s Hs]. simpl in Hs.
  apply lookup_singleton_Some in Hs as [<- _]. by_evaluation.
Defined.

(** X1 where [destroyStreams] frees the committed Stream of the scenario. *)
Lemma destroyStreams_effect_witness :
  destroyStreams (Some [stored 1%positive]) 1 st_once
    = Some (tt, with_heap ∅ st_once) ∧
  (1 ≤ length [stored 1%positive])%nat ∧
  Forall initialized (take 1 [stored 1%positive]) ∧
  cam (with_heap ∅ st_once) = cam st_once ∧
  descs (with_heap ∅ st_once) = descs st_once ∧
  ∀ a, heap (with_heap ∅ st_once) !! a =
       match heap st_once !! a with
       | Some s =>
           if decide (a ∈ entries (take 1 [stored 1%positive])
                      ∧ mReuse s = false)
           then None else Some s
       | None => None
       end.
Proof.
  split; [vm_compute; reflexivity|].
  apply (destroyStreams_effect [stored 1%positive] 1 st_once
           (with_heap ∅ st_once) tt).
  vm_compute. reflexivity.
Defined.

(** X2 at the same call. *)
Lemma destroyStreams_defined_witness :
  (1 ≤ length [stored 1%positive])%nat ∧
  Forall initialized (take 1 [stored 1%positive]) ∧
  Forall (live st_once) (entries (take 1 [stored 1%positive])) ∧
  NoDup (filter (λ a, mReuse <$> heap st_once !! a = Some false)
                (entries (take 1 [stored 1%positive]))) ∧
  ∃ st', destroyStreams (Some [stored 1%positive]) 1 st_once = Some (tt, st').
Proof.
  split; [apply le_n|].
  split; [exact (initialized_stored [1%positive])|].
  split; [by_evaluation|]. split; [by_evaluation|].
  apply (destroyStreams_defined [stored 1%positive] 1 st_once).
  - apply le_n.
  - exact (initialized_stored [1%positive]).
  - by_evaluation.
  - by_evaluation.
Defined.

(** X3 for an array that names the committed Stream twice. *)
Lemma destroyStreams_double_delete_witness :
  [stored 1%positive; stored 1%positive] !! 0%nat = Some (stored 1%positive) ∧
  [stored 1%positive; stored 1%positive] !! 1%nat = Some (stored 1%positive) ∧
  (0 < 1 < 2)%nat ∧
  heap st_once !! 1%positive = Some (out_stream false) ∧
  mReuse (out_stream false) = false ∧
  destroyStreams (Some [stored 1%positive; stored 1%positive]) 2 st_once = None.
Proof.
  do 2 (split; [reflexivity|]). split; [lia|].
  do 2 (split; [reflexivity|]).
  apply (destroyStreams_double_delete [stored 1%positive; stored 1%positive] 2
           st_once 0 1 1%positive (out_stream false)).
  - reflexivity.
  - reflexivity.
  - lia.
  - reflexivity.
  - reflexivity.
Defined.

(** X4 at the third call of the scenario. *)
Lemma configureStreams_frame_witness :
  configureStreams (Some (mk_config [2%positive; 1%positive])) st_changed
    = Some (- EINVAL, st_aborted) ∧
  (- EINVAL = 0 ∨ - EINVAL = - EINVAL) ∧
  mId (cam st_aborted) = mId (cam st_changed) ∧
  mBusy (cam st_aborted) = mBusy (cam st_changed) ∧
  mCallbackOps (cam st_aborted) = mCallbackOps (cam st_changed) ∧
  mDevice_module (cam st_aborted) = mDevice_module (cam st_changed) ∧
  (- EINVAL = - EINVAL → cam st_aborted = cam st_changed) ∧
  descs_frame st_changed st_aborted.
Proof.
  split; [vm_compute; reflexivity|].
  apply (configureStreams_frame (Some (mk_config [2%positive; 1%positive]))
           st_changed st_aborted (- EINVAL)).
  vm_compute. reflexivity.
Defined.

(** X5 at a call that replaces the committed Stream of the scenario. *)
Lemma configureStreams_supersedes_witness :
  configureStreams (Some (mk_config [2%positive])) st_next
    = Some (0, st_replaced) ∧
  reuse_live st_next [2%positive] ∧
  ∃ c, cam st_replaced = commit (cam st_next) c ∧
       length c = length [2%positive] ∧
       Forall (live st_replaced) c ∧
       (∀ a, a ∈ current (cam st_next) → a ∉ c →
             heap st_replaced !! a = None) ∧
       (∀ a, a ∉ current (cam st_next) → a ∉ c →
             heap st_replaced !! a = heap st_next !! a).
Proof.
  split; [vm_compute; reflexivity|]. split; [exact st_next_reuse_live|].
  apply (configureStreams_supersedes st_next st_replaced
           (mk_config [2%positive])).
  - vm_compute. reflexivity.
  - exact st_next_reuse_live.
Defined.

(** X6 at the first call of the scenario. *)
Lemma configureStreams_installs_valid_set_witness :
  configureStreams (Some (mk_config [1%positive])) st_fresh = Some (0, st_once) ∧
  reuse_live st_fresh [1%positive] ∧
  isValidStreamSet (mStreams (cam st_once)) (mNumStreams (cam st_once)) st_once
    = Some (true, st_once).
Proof.
  split; [vm_compute; reflexivity|]. split; [exact st_fresh_reuse_live|].
  apply (configureStreams_installs_valid_set st_fresh st_once
           (mk_config [1%positive])).
  - vm_compute. reflexivity.
  - exact st_fresh_reuse_live.
Defined.

(** X7 at the third call of the scenario, which constructs a Stream and
    frees it. *)
Lemma configureStreams_keeps_ownership_witness :
  owned st_changed ∧
  reuse_live st_changed [2%positive; 1%positive] ∧
  configureStreams (Some (mk_config [2%positive; 1%positive])) st_changed
    = Some (- EINVAL, st_aborted) ∧
  owned st_aborted.
Proof.
  split; [exact st_changed_owned|]. split; [exact st_changed_reuse_live|].
  split; [vm_compute; reflexivity|].
  apply (configureStreams_keeps_ownership st_changed st_aborted
           (mk_config [2%positive; 1%positive]) (- EINVAL)).
  - exact st_changed_owned.
  - exact st_changed_reuse_live.
  - vm_compute. reflexivity.
Defined.

(** X8 at the call that replaces the committed Stream. *)
Lemma configureStreams_keeps_wf_witness :
  device_wf st_next ∧
  reuse_live st_next [2%positive] ∧
  distinct_reuse st_next [2%positive] ∧
  configureStreams (Some (mk_config [2%positive])) st_next
    = Some (0, st_replaced) ∧
  device_wf st_replaced.
Proof.
  assert (device_wf st_next) as Hwf.
  { split; [by_evaluation|]. split; by_evaluation. }
  split; [exact Hwf|]. split; [exact st_next_reuse_live|].
  split; [apply distinct_reuse_single|].
  split; [vm_compute; reflexivity|].
  apply (configureStreams_keeps_wf st_next st_replaced
           (mk_config [2%positive]) 0).
  - exact Hwf.
  - exact st_next_reuse_live.
  - apply distinct_reuse_single.
  - vm_compute. reflexivity.
Defined.

(** X9 for the descriptor of the scenario before the first call. *)
Lemma registerStreamBuffers_untagged_witness :
  stream (buffers_for 1) = Some 1%positive ∧
  descs st_fresh !! 1%positive = Some out_desc ∧
  priv out_desc = None ∧
  registerStreamBuffers (Some (buffers_for 1)) st_fresh = None ∧
  registerStreamBuffers None st_fresh = Some (- EINVAL, st_fresh) ∧
  registerStreamBuffers
    (Some (mk_buffer_set None (num_buffers (buffers_for 1))
                         (buffers (buffers_for 1)))) st_fresh
  = Some (- EINVAL, st_fresh).
Proof.
  do 3 (split; [reflexivity|]).
  apply (registerStreamBuffers_untagged (buffers_for 1) 1%positive out_desc
           st_fresh).
  - reflexivity.
  - reflexivity.
  - reflexivity.
Defined.

(** X10 after the first call of the scenario. *)
Lemma registerStreamBuffers_after_commit_witness :
  configureStreams (Some (mk_config [1%positive])) st_fresh = Some (0, st_once) ∧
  reuse_live st_fresh [1%positive] ∧
  1%positive ∈ [1%positive] ∧
  stream (buffers_for 1) = Some 1%positive ∧
  ∃ i c a,
    [1%positive] !! i = Some 1%positive ∧
    (1%positive ∉ drop (S i) [1%positive]) ∧
    mStreams (cam st_once) = Some c ∧ c !! i = Some a ∧
    live st_once a ∧
    registerStreamBuffers (Some (buffers_for 1)) st_once
    = Stream_registerBuffers a (buffers_for 1) st_once.
Proof.
  split; [vm_compute; reflexivity|]. split; [exact st_fresh_reuse_live|].
  split; [by_evaluation|]. split; [reflexivity|].
  apply (registerStreamBuffers_after_commit st_fresh st_once
           (mk_config [1%positive]) (buffers_for 1) 1%positive).
  - vm_compute. reflexivity.
  - exact st_fresh_reuse_live.
  - by_evaluation.
  - reflexivity.
Defined.

(** X11 after the third call of the scenario, for the descriptor at
    address 2. *)
Lemma registerStreamBuffers_after_abort_witness :
  configureStreams (Some (mk_config [2%positive; 1%positive])) st_changed
    = Some (- EINVAL, st_aborted) ∧
  reuse_live st_changed [2%positive; 1%positive] ∧
  descs st_changed !! 2%positive = Some out_desc ∧
  ¬ max_buffers out_desc > 0 ∧
  descs st_aborted !! 2%positive = Some (set_priv (Some 2%positive) out_desc) ∧
  priv (set_priv (Some 2%positive) out_desc) ≠ priv out_desc ∧
  stream (buffers_for 2) = Some 2%positive ∧
  registerStreamBuffers (Some (buffers_for 2)) st_aborted = None.
Proof.
  assert (¬ max_buffers out_desc > 0) as Hfresh.
  { intros Hpos. vm_compute in Hpos. discriminate Hpos. }
  split; [vm_compute; reflexivity|]. split; [exact st_changed_reuse_live|].
  split; [reflexivity|]. split; [exact Hfresh|]. split; [reflexivity|].
  split; [discriminate|]. split; [reflexivity|].
  apply (registerStreamBuffers_after_abort st_changed st_aborted
           (mk_config [2%positive; 1%positive]) (buffers_for 2) 2%positive
           out_desc (set_priv (Some 2%positive) out_desc)).
  - vm_compute. reflexivity.
  - exact st_changed_reuse_live.
  - reflexivity.
  - exact Hfresh.
  - reflexivity.
  - discriminate.
  - reflexivity.
Defined.

(** X12 for the two orders of an output and an input Stream. *)
Lemma isValidStreamSet_order_witness :
  [1%positive; 2%positive] ≡ₚ [2%positive; 1%positive] ∧
  isValidStreamSet (Some [1%positive; 2%positive]) 2 st_in_out
  = isValidStreamSet (Some [2%positive; 1%positive]) 2 st_in_out.
Proof.
  split; [apply perm_swap|].
  apply (isValidStreamSet_order [1%positive; 2%positive]
           [2%positive; 1%positive] st_in_out).
  apply perm_swap.
Defined.

(** X13 at the first call of the scenario. *)
Lemma setupStreams_idempotent_witness :
  setupStreams [1%positive] 1 st_filled
    = Some (tt, with_cam (Camera_new 0) st_once) ∧
  setupStreams [1%positive] 1 (with_cam (Camera_new 0) st_once)
    = Some (tt, with_cam (Camera_new 0) st_once).
Proof.
  split; [vm_compute; reflexivity|].
  apply (setupStreams_idempotent [1%positive] 1 st_filled
           (with_cam (Camera_new 0) st_once) tt).
  vm_compute. reflexivity.
Defined.

(** X15 at the state of the third call, with the failing descriptor
    first. *)
Lemma configureStreams_mismatch_before_end_witness :
  device_ok st_changed ∧ request_ok st_changed [] ∧
  descs st_changed !! 1%positive = Some bidir_desc_tagged ∧
  max_buffers bidir_desc_tagged > 0 ∧
  priv bidir_desc_tagged = Some 1%positive ∧
  heap st_changed !! 1%positive = Some (out_stream true) ∧
  isValidReuseStream (out_stream true) (mId (cam st_changed)) bidir_desc_tagged
    = false ∧
  [2%positive] ≠ [] ∧
  configureStreams (Some (mk_config ([] ++ 1%positive :: [2%positive])))
    st_changed = None.
Proof.
  split; [by_evaluation|]. split; [apply request_ok_nil|].
  do 5 (split; [reflexivity|]). split; [discriminate|].
  apply (configureStreams_mismatch_before_end st_changed [] 1%positive
           [2%positive] bidir_desc_tagged 1%positive (out_stream true)).
  - by_evaluation.
  - apply request_ok_nil.
  - reflexivity.
  - reflexivity.
  - reflexivity.
  - reflexivity.
  - reflexivity.
  - discriminate.
Defined.

(** X16 at the first call of the scenario. *)
Lemma configureStreams_marks_descriptors_witness :
  configureStreams (Some (mk_config [1%positive])) st_fresh = Some (0, st_once) ∧
  reuse_live st_fresh [1%positive] ∧
  1%positive ∈ [1%positive] ∧
  ∃ x x', descs st_fresh !! 1%positive = Some x ∧
          descs st_once !! 1%positive = Some x' ∧
          max_buffers x' > 0 ∧
          (¬ max_buffers x > 0 → max_buffers x' = 1).
Proof.
  split; [vm_compute; reflexivity|]. split; [exact st_fresh_reuse_live|].
  split; [by_evaluation|].
  apply (configureStreams_marks_descriptors st_fresh st_once
           (mk_config [1%positive]) 1%positive).
  - vm_compute. reflexivity.
  - exact st_fresh_reuse_live.
  - by_evaluation.
Defined.

End MoreInstances.
